(** * Elimination of function applications (boolector, simplifier/btorelimapplies.c)

    A shallow embedding of [btor_eliminate_applies], the fixpoint pass that
    beta-reduces every non-parameterized application of a lambda and rebuilds
    the formula, together with the properties its specification states.

    The pass is the only function of the subsystem whose body is available.
    The node universe, the beta reducer, the rebuild pass and the utilities it
    calls are collaborators: they are operations of the class [NodeUniverse],
    and what a proof needs to know about them is a hypothesis of that proof.

    The second part embeds the command line front end, btormain.c: the
    options of the front end, a line of its help text, the suffix test for
    file names and the loop of [boolector_main] over the arguments. *)

From Stdlib Require Import Ascii.
From stdpp Require Import base numbers option strings list.

Open Scope Z_scope.

(** ** Results of a run *)

(** The debug-build conditions under which the process aborts, and the one
    undefined behaviour the C code can reach (overflow of an [int] counter). *)
Inductive failure :=
| DuplicateSubstitution   (* assert (!btor_hashptr_table_get (substitutions, app)) *)
| GroundApplySurvives     (* assert (app->parameterized) after the loop *)
| DebugCheckFailed        (* one of the three btor_dbg_check_... assertions *)
| SignedOverflow.         (* num_applies++, num_applies_total += ..., round++ *)

(** A run returns, aborts, or is cut off because the round loop was given too
    little fuel (the loop has no bound of its own). *)
Inductive outcome (A : Type) :=
| Returned (a : A)
| Aborted (f : failure)
| OutOfFuel.
Arguments Returned {A} a.
Arguments Aborted {A} f.
Arguments OutOfFuel {A}.

#[global] Instance outcome_ret : MRet outcome := @Returned.
#[global] Instance outcome_bind : MBind outcome := fun A B k m =>
  match m with
  | Returned a => k a
  | Aborted f => Aborted f
  | OutOfFuel => OutOfFuel
  end.

(** [assert (c)]: checked unless the build defines NDEBUG. *)
Definition assert (ndebug c : bool) (f : failure) : outcome unit :=
  if ndebug then Returned tt else if c then Returned tt else Aborted f.

Definition INT_MAX : Z := 2147483647.
Definition INT_MIN : Z := -2147483648.

(** Addition on C [int]: defined while the result is representable. *)
Definition int_add (a b : Z) : outcome Z :=
  if bool_decide (INT_MIN <= a + b <= INT_MAX) then Returned (a + b)
  else Aborted SignedOverflow.

(** [for_each body l s]: the shape of every iterator loop of the pass,
    [while (has_next (&it)) { x = next (&it); body }], over the sequence [l]
    the iterator yields. *)
Fixpoint for_each {A S : Type} (body : A -> S -> outcome S) (l : list A) (s : S)
  : outcome S :=
  match l with
  | [] => Returned s
  | x :: rest => s' ← body x s; for_each body rest s'
  end.

(** ** Tables *)

(** A [BtorPtrHashTable] keyed by [K]: the pairs in insertion order, which is
    the order its iterator follows. *)
Abbreviation table K V := (list (K * V)).

Fixpoint btor_hashptr_table_get {K V : Type} `{!EqDecision K}
  (t : table K V) (k : K) : option V :=
  match t with
  | [] => None
  | (k', v) :: rest => if decide (k' = k) then Some v else btor_hashptr_table_get rest k
  end.

Definition table_values {K V : Type} (t : table K V) : list V := snd <$> t.

(** What [btor_hashptr_table_get] finds in [t] it finds in [t'] too. *)
Definition table_within {K V : Type} `{!EqDecision K} (t t' : table K V) : Prop :=
  forall k v, btor_hashptr_table_get t k = Some v -> btor_hashptr_table_get t' k = Some v.

(** How often [x] occurs in [l]. *)
Definition occurrences {A : Type} `{!EqDecision A} (x : A) (l : list A) : Z :=
  Z.of_nat (length (filter (fun y => y = x) l)).
Definition table_keys {K V : Type} (t : table K V) : list K := fst <$> t.

(** ** The collaborators *)

(** The diagnostics of the pass: its two uses of BTOR_MSG, both at verbosity
    level 1.  They are recorded whatever the verbosity of the solver is. *)
Inductive message :=
| EliminateRound (num_applies round : Z)
    (* "eliminate %d applications in round %d" *)
| EliminatedTotal (num_applies_total delta : Z).
    (* "eliminated %d function applications in %.1f seconds" *)

(** What the pass consumes from the rest of the solver.  [node] is the
    canonical identity of a hash-consed node, [G] the state of the node
    universe.  Time stamps are integers (a number of clock units) instead of
    doubles; the pass only subtracts and accumulates them. *)
Class NodeUniverse (node G : Type) := {
  (** [btor->lambdas], in the order [btor_iter_hashptr_next] yields it *)
  lambdas : G -> list node;
  (** the apply parents of a node, in the order of
      [btor_iter_apply_parent_next] *)
  apply_parents : G -> node -> list node;
  (** [app->parameterized] *)
  parameterized : G -> node -> bool;
  (** the function child of an apply node; hash-consing ties it to the
      identity of the node *)
  applied_lambda : node -> option node;
  (** [btor_beta_reduce_full (btor, app, cache)]: the replacement, the cache
      as the reducer leaves it, and the universe with the nodes it created *)
  btor_beta_reduce_full :
    G -> node -> table (node * node) node -> node * table (node * node) node * G;
  (** [btor_substitute_and_rebuild (btor, substs)] *)
  btor_substitute_and_rebuild : G -> table node node -> G;
  (** [btor_node_copy (btor, n)]: one more reference on [n]; the pass itself
      takes none, its substitution map does *)
  btor_node_copy : G -> node -> G;
  (** [btor_node_release (btor, n)]: one reference on [n] less; may reclaim
      nodes *)
  btor_node_release : G -> node -> G;
  (** the conjunction of [btor_dbg_check_all_hash_tables_proxy_free],
      [btor_dbg_check_all_hash_tables_simp_free] and
      [btor_dbg_check_unique_table_children_proxy_free] *)
  btor_dbg_check : G -> bool;
  (** [btor_util_time_stamp ()]: the value of the k-th reading of the clock *)
  btor_util_time_stamp : nat -> Z;
}.

Section Driver.

Context {node G : Type} `{!EqDecision node} `{!NodeUniverse node G}.

Abbreviation cache := (table (node * node) node).
Abbreviation substs := (table node node).

(** The calls the pass makes to its collaborators, with their arguments (and
    results where a property speaks of them).  The log is ghost state: the
    properties about what is called, how often and in which order are stated
    on it. *)
Inductive call :=
| UtilTimeStamp (t : Z)
| HashptrTableNew
| InitSubstitutions
| BetaReduceFull (g : G) (app : node) (c : cache) (subst : node) (c' : cache)
| InsertSubstitution (app subst : node)
| NodeRelease (n : node)
| Msg (m : message)
| SubstituteAndRebuild (m : substs)
| DeleteSubstitutions (m : substs)
| NodePairDelete (p : node * node)
| HashptrTableDelete.

(** The part of [Btor] the pass reads or writes. *)
Record Btor := mkBtor {
  nodes : G;                 (* the node universe, with btor->lambdas *)
  substitutions : substs;    (* btor->substitutions; empty when not allocated *)
  time_elimapplies : Z;      (* btor->time.elimapplies *)
  ticks : nat;               (* readings of the clock so far *)
  calls : list call;         (* ghost: the calls made so far *)
}.

Definition set_nodes (g : G) (b : Btor) : Btor :=
  mkBtor g (substitutions b) (time_elimapplies b) (ticks b) (calls b).
Definition set_substitutions (m : substs) (b : Btor) : Btor :=
  mkBtor (nodes b) m (time_elimapplies b) (ticks b) (calls b).
Definition set_time_elimapplies (t : Z) (b : Btor) : Btor :=
  mkBtor (nodes b) (substitutions b) t (ticks b) (calls b).
Definition log (ev : call) (b : Btor) : Btor :=
  mkBtor (nodes b) (substitutions b) (time_elimapplies b) (ticks b) (calls b ++ [ev]).

(** [btor_util_time_stamp ()] *)
Definition time_stamp (b : Btor) : Z * Btor :=
  let t := btor_util_time_stamp (ticks b) in
  (t, log (UtilTimeStamp t)
        (mkBtor (nodes b) (substitutions b) (time_elimapplies b) (S (ticks b)) (calls b))).

(** [btor_node_release (btor, n)] *)
Definition node_release (n : node) (b : Btor) : Btor :=
  log (NodeRelease n) (set_nodes (btor_node_release (nodes b) n) b).

(** Modelled from the spec: [btor_init_substitutions] is not among the
    sources.  `begin()` creates an empty, round-scoped map. *)
Definition btor_init_substitutions (b : Btor) : Btor :=
  log InitSubstitutions (set_substitutions [] b).

(** Modelled from the spec: [btor_insert_substitution] is not among the
    sources.  `insert(node, replacement)` fails with a DuplicateSubstitution
    condition if [node] is already a key of the round's map; otherwise it
    records the pairing, and the map owns a reference to the replacement from
    then on (4.4).  That reference is one the map acquires: the driver
    releases the one the reducer gave it right after the insertion (line
    65), and the map releases its own when it is drained (3). *)
Definition btor_insert_substitution (app subst : node) (b : Btor) : outcome Btor :=
  match btor_hashptr_table_get (substitutions b) app with
  | Some _ => Aborted DuplicateSubstitution
  | None =>
      Returned (log (InsertSubstitution app subst)
                  (set_substitutions (substitutions b ++ [(app, subst)])
                     (set_nodes (btor_node_copy (nodes b) subst) b)))
  end.

(** Modelled from the spec: [btor_delete_substitutions] is not among the
    sources.  The map is drained, with release of the references it holds,
    and destroyed. *)
Definition btor_delete_substitutions (b : Btor) : Btor :=
  let m := substitutions b in
  log (DeleteSubstitutions m)
    (set_substitutions []
       (set_nodes (foldl btor_node_release (nodes b) (table_values m)) b)).

(** [btor_substitute_and_rebuild (btor, btor->substitutions)] *)
Definition substitute_and_rebuild (b : Btor) : Btor :=
  log (SubstituteAndRebuild (substitutions b))
    (set_nodes (btor_substitute_and_rebuild (nodes b) (substitutions b)) b).

(** ** The pass *)

Section Build.

(** [true] for a build with NDEBUG defined: the assertions are compiled out. *)
Variable ndebug : bool.

(** The local variables the collection loops update. *)
Record locals := mkLocals {
  l_btor : Btor;
  l_cache : cache;
  l_num_applies : Z;
}.

(** Lines 57-65: the body of the loop over the apply parents of a lambda. *)
Definition visit_apply_parent (app : node) (st : locals) : outcome locals :=
  let b := l_btor st in
  if parameterized (nodes b) app then Returned st          (* continue *)
  else
    num_applies ← int_add (l_num_applies st) 1;
    let '(subst, c', g') := btor_beta_reduce_full (nodes b) app (l_cache st) in
    let b := log (BetaReduceFull (nodes b) app (l_cache st) subst c') (set_nodes g' b) in
    _ ← assert ndebug
          (bool_decide (btor_hashptr_table_get (substitutions b) app = None))
          DuplicateSubstitution;
    b ← btor_insert_substitution app subst b;
    let b := node_release subst b in
    Returned (mkLocals b c' num_applies).

(** Lines 52-66: the body of the loop over [btor->lambdas].  The iterators of
    utils/btornodeiter.h are not among the sources: an iterator yields the
    finite sequence its table or parent list holds when it is initialised,
    here on the universe as it is when [fun] is reached. *)
Definition visit_lambda (fn : node) (st : locals) : outcome locals :=
  for_each visit_apply_parent (apply_parents (nodes (l_btor st)) fn) st.

(** Lines 49-67: collect the function applications. *)
Definition collect (st : locals) : outcome locals :=
  for_each visit_lambda (lambdas (nodes (l_btor st))) st.

(** The variables that live across rounds. *)
Record loop_state := mkLoop {
  s_btor : Btor;
  s_cache : cache;
  s_num_applies : Z;
  s_num_applies_total : Z;
  s_round : Z;
}.

(** Lines 45-78: one iteration of the do-while loop. *)
Definition round_body (s : loop_state) : outcome loop_state :=
  let b := btor_init_substitutions (s_btor s) in
  st ← collect (mkLocals b (s_cache s) 0);
  total ← int_add (s_num_applies_total s) (l_num_applies st);
  let b := log (Msg (EliminateRound (l_num_applies st) (s_round s))) (l_btor st) in
  let b := substitute_and_rebuild b in
  let b := btor_delete_substitutions b in
  round ← int_add (s_round s) 1;
  Returned (mkLoop b (l_cache st) (l_num_applies st) total round).

(** Lines 43-79: [do { ... } while (num_applies > 0)]. *)
Fixpoint rounds (fuel : nat) (s : loop_state) : outcome loop_state :=
  match fuel with
  | O => OutOfFuel
  | S fuel' =>
      s' ← round_body s;
      if bool_decide (s_num_applies s' > 0) then rounds fuel' s' else Returned s'
  end.

(** Lines 81-94: the post-condition check of debug builds. *)
Definition check_no_ground_apply (b : Btor) : outcome unit :=
  for_each
    (fun fn _ =>
       for_each
         (fun app _ => assert ndebug (parameterized (nodes b) app) GroundApplySurvives)
         (apply_parents (nodes b) fn) tt)
    (lambdas (nodes b)) tt.

(** Lines 96-102: release what the cache holds and delete it.
    [btor_node_pair_delete] is not among the sources; a pair is a key without
    ownership of its own, and deleting it is recorded as a call only. *)
Definition teardown_cache (c : cache) (b : Btor) : Btor :=
  log HashptrTableDelete
    (foldl (fun b kv => log (NodePairDelete kv.1) (node_release kv.2 b)) b c).

(** Lines 19-114.  [assert (btor)] has no counterpart: a [Btor] is always
    there.  [fuel] bounds the number of rounds. *)
Definition btor_eliminate_applies (fuel : nat) (b : Btor) : outcome Btor :=
  if bool_decide (length (lambdas (nodes b)) = 0%nat) then Returned b   (* line 31 *)
  else
    let '(start, b) := time_stamp b in
    let b := log HashptrTableNew b in
    s ← rounds fuel (mkLoop b [] 0 0 1);
    _ ← check_no_ground_apply (s_btor s);
    let b := teardown_cache (s_cache s) (s_btor s) in
    let '(stop, b) := time_stamp b in
    let delta := stop - start in
    let b := set_time_elimapplies (time_elimapplies b + delta) b in
    let b := log (Msg (EliminatedTotal (s_num_applies_total s) delta)) b in
    _ ← assert ndebug (btor_dbg_check (nodes b)) DebugCheckFailed;
    Returned b.

End Build.

End Driver.

Arguments call : clear implicits.
Arguments Btor : clear implicits.
Arguments locals : clear implicits.
Arguments loop_state : clear implicits.

(** ** What is observed of a run *)

Section Observations.

Context {node G : Type} `{!EqDecision node} `{!NodeUniverse node G}.

Abbreviation cache := (table (node * node) node).
Abbreviation substs := (table node node).
Abbreviation call := (call node G).
Abbreviation Btor := (Btor node G).

(** The post-condition the debug build asserts after the loop: every apply
    parent of every registered lambda is parameterized. *)
Definition no_ground_apply (g : G) : Prop :=
  forall fn app, fn ∈ lambdas g -> app ∈ apply_parents g fn ->
    parameterized g app = true.

(** One elimination (lines 61-65): the universe and the cache the reducer was
    called on, the application, the replacement and the cache afterwards. *)
Record elimination := mkElim {
  e_graph : G;
  e_app : node;
  e_cache : cache;
  e_subst : node;
  e_cache' : cache;
}.

Definition elimination_calls (e : elimination) : list call :=
  [BetaReduceFull (e_graph e) (e_app e) (e_cache e) (e_subst e) (e_cache' e);
   InsertSubstitution (e_app e) (e_subst e);
   NodeRelease (e_subst e)].

(** The substitution map a round accumulates. *)
Definition recorded (es : list elimination) : substs :=
  (fun e => (e_app e, e_subst e)) <$> es.

(** The calls of one round of the loop that made the eliminations [es]. *)
Definition round_calls (round : Z) (es : list elimination) : list call :=
  InitSubstitutions :: (es ≫= elimination_calls) ++
  [Msg (EliminateRound (Z.of_nat (length es)) round);
   SubstituteAndRebuild (recorded es);
   DeleteSubstitutions (recorded es)].

(** The calls of consecutive rounds, numbered from [round]. *)
Fixpoint loop_calls (round : Z) (rs : list (list elimination)) : list call :=
  match rs with
  | [] => []
  | es :: rest => round_calls round es ++ loop_calls (round + 1) rest
  end.

(** Each call of the reducer is a call on a ground application, and its
    record holds what the reducer returned. *)
Definition elimination_ok (e : elimination) : Prop :=
  parameterized (e_graph e) (e_app e) = false /\
  exists g', btor_beta_reduce_full (e_graph e) (e_app e) (e_cache e)
             = (e_subst e, e_cache' e, g').

(** The cache is handed from one call of the reducer to the next. *)
Fixpoint cache_threaded (c : cache) (es : list elimination) : Prop :=
  match es with
  | [] => True
  | e :: rest => e_cache e = c /\ cache_threaded (e_cache' e) rest
  end.

(** The cache after the eliminations [es], starting from [c]. *)
Fixpoint final_cache (c : cache) (es : list elimination) : cache :=
  match es with
  | [] => c
  | e :: rest => final_cache (e_cache' e) rest
  end.

(** What a stretch of the collection loops that made the eliminations [es]
    does to the local variables. *)
Definition collects (st : locals node G) (es : list elimination) (st' : locals node G)
  : Prop :=
  Forall elimination_ok es /\
  cache_threaded (l_cache st) es /\
  l_cache st' = final_cache (l_cache st) es /\
  l_num_applies st' = l_num_applies st + Z.of_nat (length es) /\
  substitutions (l_btor st') = substitutions (l_btor st) ++ recorded es /\
  calls (l_btor st') = calls (l_btor st) ++ (es ≫= elimination_calls) /\
  time_elimapplies (l_btor st') = time_elimapplies (l_btor st) /\
  ticks (l_btor st') = ticks (l_btor st) /\
  (es = [] -> st' = st).

(** The keys of the round's map while the parents [rest] of [fn] and then
    the lambdas [fns] are still to be visited: no key is among [rest], and no
    key applies one of [fns]. *)
Definition keys_apart (fn : node) (fns rest : list node) (st : locals node G) : Prop :=
  NoDup rest /\
  (forall app, app ∈ rest -> applied_lambda app = Some fn) /\
  (forall k, k ∈ table_keys (substitutions (l_btor st)) -> k ∉ rest) /\
  (forall k f, k ∈ table_keys (substitutions (l_btor st)) -> f ∈ fns ->
     applied_lambda k <> Some f).

(** The keys of the round's map while the lambdas [fns] are still to be
    visited. *)
Definition keys_of_visited (fns : list node) (st : locals node G) : Prop :=
  NoDup fns /\
  (forall k f, k ∈ table_keys (substitutions (l_btor st)) -> f ∈ fns ->
     applied_lambda k <> Some f).

(** The calls of the teardown of the cache [c] (lines 96-102). *)
Definition teardown_calls (c : cache) : list call :=
  (c ≫= fun kv => [NodeRelease kv.2; NodePairDelete kv.1]) ++ [HashptrTableDelete].

(** The per-round diagnostics in a log: substitution count and round index. *)
Definition round_records (l : list call) : list (Z * Z) :=
  l ≫= fun ev =>
    match ev with Msg (EliminateRound n r) => [(n, r)] | _ => [] end.

(** The maps the rebuild pass was invoked with. *)
Definition rebuild_maps (l : list call) : list substs :=
  l ≫= fun ev => match ev with SubstituteAndRebuild m => [m] | _ => [] end.

(** The applications handed to the reducer. *)
Definition reduced_apps (l : list call) : list node :=
  l ≫= fun ev => match ev with BetaReduceFull _ app _ _ _ => [app] | _ => [] end.

(** The calls of the reducer, as eliminations. *)
Definition reductions (l : list call) : list elimination :=
  l ≫= fun ev =>
    match ev with
    | BetaReduceFull g app c subst c' => [mkElim g app c subst c']
    | _ => []
    end.

(** The pairings inserted into a substitution map. *)
Definition insertions (l : list call) : substs :=
  l ≫= fun ev => match ev with InsertSubstitution app subst => [(app, subst)] | _ => [] end.

(** The substitutions the per-round diagnostics of a log add up to. *)
Definition substitutions_recorded (l : list call) : Z :=
  foldr (fun nr acc => nr.1 + acc) 0 (round_records l).

(** The number of pair caches created. *)
Definition caches_created (l : list call) : nat :=
  length (l ≫= fun ev => match ev with HashptrTableNew => [tt] | _ => [] end).

(** Does the log show a round that recorded no substitution and invoked the
    rebuild pass all the same? *)
Fixpoint rebuild_in_quiet_round (l : list call) : bool :=
  match l with
  | Msg (EliminateRound n _) :: (SubstituteAndRebuild _ :: _) as rest =>
      bool_decide (n = 0) || rebuild_in_quiet_round rest
  | _ :: rest => rebuild_in_quiet_round rest
  | [] => false
  end.

(** The references the pass acquires: the one the reducer returns to its
    caller, one for the value of each entry the reducer adds to the cache,
    and the one the substitution map takes on a replacement. *)
Definition acquired (ev : call) : list node :=
  match ev with
  | BetaReduceFull _ _ c subst c' => subst :: table_values (drop (length c) c')
  | InsertSubstitution _ subst => [subst]
  | _ => []
  end.

(** The references the pass releases: by [btor_node_release], and those of a
    substitution map when it is deleted. *)
Definition released (ev : call) : list node :=
  match ev with
  | NodeRelease n => [n]
  | DeleteSubstitutions m => table_values m
  | _ => []
  end.

(** The calls [l], made while the pass holds the references [h], release
    only references the pass holds at that point, and leave it holding [h']. *)
Definition settles (h : list node) (l : list call) (h' : list node) : Prop :=
  (forall p q, l = p ++ q -> p ≫= released ⊆+ (p ≫= acquired) ++ h) /\
  (l ≫= acquired) ++ h ≡ₚ (l ≫= released) ++ h'.

(** The reference counts [refs] in [b], which the pass reached from [b0],
    are those in [b0] with the references that the calls made since then
    acquired, less those they released. *)
Definition accounted (refs : G -> node -> Z) (b0 b : Btor) : Prop :=
  exists new,
    calls b = calls b0 ++ new /\
    forall n,
      refs (nodes b) n =
      refs (nodes b0) n
      + occurrences n (new ≫= acquired) - occurrences n (new ≫= released).

(** The values of the entries the eliminations [es] added to the cache. *)
Definition added_values (es : list elimination) : list node :=
  es ≫= fun e => table_values (drop (length (e_cache e)) (e_cache' e)).

(** The first and the second reading of the clock of a run that starts in [b]. *)
Definition t_start (b : Btor) : Z := btor_util_time_stamp (ticks b).
Definition t_stop (b : Btor) : Z := btor_util_time_stamp (S (ticks b)).

(** The re-run of the pass on [b1] makes exactly one round, which records no
    substitution, and leaves the universe as it is. *)
Definition rerun_is_one_quiet_round (ndebug : bool) (fuel : nat) (b1 : Btor) : Prop :=
  exists b2 new,
    btor_eliminate_applies ndebug fuel b1 = Returned b2 /\
    calls b2 = calls b1 ++ new /\
    round_records new = [(0, 1)] /\
    nodes b2 = nodes b1.

(** The calls of a run, when it returns. *)
Definition calls_of (r : outcome Btor) : option (list call) :=
  match r with Returned b => Some (calls b) | _ => None end.

(** The universe of a run, when it returns. *)
Definition nodes_of (r : outcome Btor) : option G :=
  match r with Returned b => Some (nodes b) | _ => None end.

End Observations.

Arguments elimination : clear implicits.

(** ** A node universe of hash-consed terms *)

Module TermUniverse.

(** Modelled from the spec: the node universe is not among the sources.  A
    node is its structural value, so that equal structure is equal identity
    (hash-consing); its kind is its constructor. *)
Inductive term :=
| Var (v : nat)                  (* a free variable of the formula *)
| Param (x : nat)                (* the parameter a lambda binds *)
| Lambda (x : nat) (body : term)
| Apply (fn arg : term)
| Op (l r : term).               (* any binary operator *)

#[global] Instance term_eq_dec : EqDecision term.
Proof. solve_decision. Defined.

(** Modelled from the spec: the formula is the list of its roots; a node is
    present while a root reaches it. *)
Definition graph : Type := list term.

Fixpoint subterms (t : term) : list term :=
  t :: match t with
       | Var _ | Param _ => []
       | Lambda _ body => subterms body
       | Apply fn arg => subterms fn ++ subterms arg
       | Op l r => subterms l ++ subterms r
       end.

Definition reachable (g : graph) : list term :=
  remove_dups (g ≫= subterms).

(** Modelled from the spec: a node is parameterized when its value depends on
    a parameter that no binder inside it binds. *)
Fixpoint free_params (t : term) : list nat :=
  match t with
  | Var _ => []
  | Param x => [x]
  | Lambda x body => filter (fun y => y ≠ x) (free_params body)
  | Apply fn arg => free_params fn ++ free_params arg
  | Op l r => free_params l ++ free_params r
  end.

Definition is_parameterized (t : term) : bool :=
  match free_params t with [] => false | _ => true end.

Definition is_lambda (t : term) : bool :=
  match t with Lambda _ _ => true | _ => false end.

Definition fun_of (t : term) : option term :=
  match t with Apply fn _ => Some fn | _ => None end.

(** The number of nodes of a term, as a tree. *)
Fixpoint term_size (t : term) : nat :=
  match t with
  | Var _ | Param _ => 1
  | Lambda _ body => S (term_size body)
  | Apply fn arg => S (term_size fn + term_size arg)
  | Op l r => S (term_size l + term_size r)
  end.

(** Modelled from the spec: the lambda registry is the set of lambda nodes
    currently present in the formula. *)
Definition registry (g : graph) : list term :=
  filter (fun t => is_lambda t = true) (reachable g).

(** Modelled from the spec: the application edges of a lambda, from the apply
    nodes of the formula that apply it. *)
Definition parents (g : graph) (fn : term) : list term :=
  filter (fun t => fun_of t = Some fn) (reachable g).

(** Modelled from the spec: [btor_beta_reduce_full] is not among the
    sources.  `reduce(applyNode, cache)` gives the fully reduced body (2): it
    replaces the parameter of the applied lambda with the concrete argument
    throughout the body, recursively, consulting and populating the cache
    for repeated sub-reductions (4.3).

    [eval env t c] is [t] with its parameters replaced as [env] binds them
    and every application of a lambda inside it reduced: the argument is
    evaluated first, then the body of the lambda with its parameter bound to
    that argument.  The reduction of a lambda that is not parameterized is
    looked up in the cache under the pair (lambda, argument) and entered
    there when it is computed; that of a parameterized lambda depends on the
    bindings around it and is not cached.  The arguments of the solver's
    lambdas are no functions, so that replacing a parameter creates no
    application of a lambda and the result holds none. *)
Fixpoint eval (env : table nat term) (t : term) (c : table (term * term) term)
  : term * table (term * term) term :=
  match t with
  | Var v => (Var v, c)
  | Param x => (default (Param x) (btor_hashptr_table_get env x), c)
  | Lambda x body =>
      let '(body', c) := eval (filter (fun xa => xa.1 ≠ x) env) body c in
      (Lambda x body', c)
  | Op l r =>
      let '(l', c) := eval env l c in
      let '(r', c) := eval env r c in
      (Op l' r', c)
  | Apply fn arg =>
      let '(a, c) := eval env arg c in
      match fn with
      | Lambda x body =>
          if is_parameterized fn then eval ((x, a) :: env) body c
          else
            match btor_hashptr_table_get c (fn, a) with
            | Some r => (r, c)
            | None =>
                let '(r, c) := eval ((x, a) :: env) body c in
                (r, c ++ [((fn, a), r)])
            end
      | _ =>
          let '(f, c) := eval env fn c in
          (Apply f a, c)
      end
  end.

(** Modelled from the spec: the reducer never changes a node of the formula
    (4.3). *)
Definition reduce (g : graph) (app : term) (c : table (term * term) term)
  : term * table (term * term) term * graph :=
  let '(r, c') := eval [] app c in (r, c', g).

(** Modelled from the spec: [btor_substitute_and_rebuild] is not among the
    sources.  Every occurrence of a mapped key is replaced by its mapped
    value, the same value at every occurrence; a chain of substitutions is
    not followed within one invocation (4.5). *)
Fixpoint replace (m : table term term) (t : term) : term :=
  match btor_hashptr_table_get m t with
  | Some r => r
  | None =>
      match t with
      | Var _ | Param _ => t
      | Lambda x body => Lambda x (replace m body)
      | Apply fn arg => Apply (replace m fn) (replace m arg)
      | Op l r => Op (replace m l) (replace m r)
      end
  end.

Definition rebuild (g : graph) (m : table term term) : graph :=
  replace m <$> g.

#[global] Instance term_universe : NodeUniverse term graph := {|
  lambdas := registry;
  apply_parents := parents;
  parameterized := fun _ t => is_parameterized t;
  applied_lambda := fun_of;
  btor_beta_reduce_full := reduce;
  btor_substitute_and_rebuild := rebuild;
  btor_node_copy := fun g _ => g;
  btor_node_release := fun g _ => g;
  btor_dbg_check := fun _ => true;
  btor_util_time_stamp := fun k => Z.of_nat k;
|}.

Definition btor_of (g : graph) : Btor term graph := mkBtor g [] 0 0 [].

(** the identity lambda, and a lambda that applies it to its own parameter *)
Definition id_lambda : term := Lambda 1 (Param 1).
Definition outer_lambda : term := Lambda 0 (Apply id_lambda (Param 0)).

(** Scenario A: [λx. x] applied to the free variable [v]. *)
Definition scenario_a : graph := [Apply id_lambda (Var 7)].

(** Scenario B: [λx. (λy. y)(x)] applied to [v]. *)
Definition scenario_b : graph := [Apply outer_lambda (Var 7)].

(** A formula with a ground application of the identity, next to a lambda
    whose body applies the identity to its parameter. *)
Definition mixed : graph := [Op outer_lambda (Apply id_lambda (Var 7))].

(** What the pass returns on [mixed]: the ground application is gone, the
    parameterized one stays. *)
Definition mixed_converged : Btor term graph :=
  mkBtor [Op outer_lambda (Var 7)] [] 1 2
    [UtilTimeStamp 0; HashptrTableNew; InitSubstitutions;
     BetaReduceFull mixed (Apply id_lambda (Var 7)) [] (Var 7)
       [((id_lambda, Var 7), Var 7)];
     InsertSubstitution (Apply id_lambda (Var 7)) (Var 7);
     NodeRelease (Var 7);
     Msg (EliminateRound 1 1);
     SubstituteAndRebuild [(Apply id_lambda (Var 7), Var 7)];
     DeleteSubstitutions [(Apply id_lambda (Var 7), Var 7)];
     InitSubstitutions;
     Msg (EliminateRound 0 2);
     SubstituteAndRebuild [];
     DeleteSubstitutions [];
     NodeRelease (Var 7);
     NodePairDelete (id_lambda, Var 7);
     HashptrTableDelete;
     UtilTimeStamp 1;
     Msg (EliminatedTotal 1 1)].

(** A formula that holds a lambda and no ground application. *)
Definition lone_lambda : graph := [outer_lambda].

(** A formula in which the identity is applied to [v] twice: by a node of the
    formula, and within the reduction of the other application. *)
Definition repeated : graph :=
  [Op (Apply id_lambda (Var 7)) (Apply outer_lambda (Var 7))].

(** What the pass returns on [repeated]: the reducer is called on the
    application of the outer lambda first, and enters the application of the
    identity to [v], which it reduces on the way, into the cache; the call on
    the application of the identity to [v] that follows leaves the cache as
    it is. *)
Definition repeated_converged : Btor term graph :=
  mkBtor [Op (Var 7) (Var 7)] [] 1 2
    [UtilTimeStamp 0; HashptrTableNew; InitSubstitutions;
     BetaReduceFull repeated (Apply outer_lambda (Var 7)) [] (Var 7)
       [((id_lambda, Var 7), Var 7); ((outer_lambda, Var 7), Var 7)];
     InsertSubstitution (Apply outer_lambda (Var 7)) (Var 7);
     NodeRelease (Var 7);
     BetaReduceFull repeated (Apply id_lambda (Var 7))
       [((id_lambda, Var 7), Var 7); ((outer_lambda, Var 7), Var 7)] (Var 7)
       [((id_lambda, Var 7), Var 7); ((outer_lambda, Var 7), Var 7)];
     InsertSubstitution (Apply id_lambda (Var 7)) (Var 7);
     NodeRelease (Var 7);
     Msg (EliminateRound 2 1);
     SubstituteAndRebuild
       [(Apply outer_lambda (Var 7), Var 7); (Apply id_lambda (Var 7), Var 7)];
     DeleteSubstitutions
       [(Apply outer_lambda (Var 7), Var 7); (Apply id_lambda (Var 7), Var 7)];
     InitSubstitutions;
     Msg (EliminateRound 0 2);
     SubstituteAndRebuild [];
     DeleteSubstitutions [];
     NodeRelease (Var 7);
     NodePairDelete (id_lambda, Var 7);
     NodeRelease (Var 7);
     NodePairDelete (outer_lambda, Var 7);
     HashptrTableDelete;
     UtilTimeStamp 1;
     Msg (EliminatedTotal 2 1)].

(** What the pass returns on scenario A. *)
Definition scenario_a_converged : Btor term graph :=
  mkBtor [Var 7] [] 1 2
    [UtilTimeStamp 0; HashptrTableNew; InitSubstitutions;
     BetaReduceFull scenario_a (Apply id_lambda (Var 7)) [] (Var 7)
       [((id_lambda, Var 7), Var 7)];
     InsertSubstitution (Apply id_lambda (Var 7)) (Var 7);
     NodeRelease (Var 7);
     Msg (EliminateRound 1 1);
     SubstituteAndRebuild [(Apply id_lambda (Var 7), Var 7)];
     DeleteSubstitutions [(Apply id_lambda (Var 7), Var 7)];
     InitSubstitutions;
     Msg (EliminateRound 0 2);
     SubstituteAndRebuild [];
     DeleteSubstitutions [];
     NodeRelease (Var 7);
     NodePairDelete (id_lambda, Var 7);
     HashptrTableDelete;
     UtilTimeStamp 1;
     Msg (EliminatedTotal 1 1)].

End TermUniverse.

(** ** The term universe, with the references held on its nodes *)

Module CountedUniverse.
Import TermUniverse.

(** Modelled from the spec: the node universe is not among the sources.  A
    node has a live reference count (3); acquiring and releasing a reference
    are operations of the universe (6).  [counts] holds, for each node, the
    references that owners outside the formula hold on it - the caller of the
    reducer, the pair cache, a substitution map -, as the number of
    acquisitions less the number of releases. *)
Record counted := mkCounted {
  formula : graph;
  counts : table term Z;
}.

Definition refs (g : counted) (n : term) : Z :=
  default 0 (btor_hashptr_table_get (counts g) n).

Fixpoint bump (d : Z) (n : term) (cs : table term Z) : table term Z :=
  match cs with
  | [] => [(n, d)]
  | (m, k) :: rest =>
      if decide (m = n) then (m, k + d) :: rest else (m, k) :: bump d n rest
  end.

Definition acquire (g : counted) (n : term) : counted :=
  mkCounted (formula g) (bump 1 n (counts g)).

Definition release (g : counted) (n : term) : counted :=
  mkCounted (formula g) (bump (-1) n (counts g)).

(** Modelled from the spec: the reducer returns a node with one reference
    that its caller owns (4.3), and each entry it puts into the cache holds
    one reference to its value (3, 4.6). *)
Definition counted_reduce (g : counted) (app : term) (c : table (term * term) term)
  : term * table (term * term) term * counted :=
  let '(r, c', f) := reduce (formula g) app c in
  (r, c',
   foldl acquire (mkCounted f (counts g)) (r :: table_values (drop (length c) c'))).

(** Modelled from the spec: the rebuild pass keeps the reference counts
    right (4.5); it holds no reference of its own when it returns. *)
Definition counted_rebuild (g : counted) (m : table term term) : counted :=
  mkCounted (rebuild (formula g) m) (counts g).

#[global] Instance counted_universe : NodeUniverse term counted := {|
  lambdas := fun g => registry (formula g);
  apply_parents := fun g => parents (formula g);
  parameterized := fun _ t => is_parameterized t;
  applied_lambda := fun_of;
  btor_beta_reduce_full := counted_reduce;
  btor_substitute_and_rebuild := counted_rebuild;
  btor_node_copy := acquire;
  btor_node_release := release;
  btor_dbg_check := fun _ => true;
  btor_util_time_stamp := fun k => Z.of_nat k;
|}.

(** A formula on whose nodes nobody holds a reference. *)
Definition counted_of (g : graph) : Btor term counted :=
  mkBtor (mkCounted g []) [] 0 0 [].

(** What the pass returns on scenario B: the references on [v] - that of the
    caller of the reducer, those of the two entries of the cache, that of
    the substitution map - are acquired and released again. *)
Definition scenario_b_converged : Btor term counted :=
  mkBtor (mkCounted [Var 7] [(Var 7, 0)]) [] 1 2
    [UtilTimeStamp 0; HashptrTableNew; InitSubstitutions;
     BetaReduceFull (mkCounted scenario_b []) (Apply outer_lambda (Var 7)) [] (Var 7)
       [((id_lambda, Var 7), Var 7); ((outer_lambda, Var 7), Var 7)];
     InsertSubstitution (Apply outer_lambda (Var 7)) (Var 7);
     NodeRelease (Var 7);
     Msg (EliminateRound 1 1);
     SubstituteAndRebuild [(Apply outer_lambda (Var 7), Var 7)];
     DeleteSubstitutions [(Apply outer_lambda (Var 7), Var 7)];
     InitSubstitutions;
     Msg (EliminateRound 0 2);
     SubstituteAndRebuild [];
     DeleteSubstitutions [];
     NodeRelease (Var 7);
     NodePairDelete (id_lambda, Var 7);
     NodeRelease (Var 7);
     NodePairDelete (outer_lambda, Var 7);
     HashptrTableDelete;
     UtilTimeStamp 1;
     Msg (EliminatedTotal 1 1)].

End CountedUniverse.

(** ** More of what a run shows *)

Section MoreObservations.

Context {node G : Type} `{!EqDecision node} `{!NodeUniverse node G}.

Abbreviation cache := (table (node * node) node).
Abbreviation substs := (table node node).
Abbreviation call := (call node G).

(** The readings of the clock. *)
Definition time_stamps (l : list call) : list Z :=
  l ≫= fun ev => match ev with UtilTimeStamp t => [t] | _ => [] end.

(** The pairs handed to [btor_node_pair_delete]. *)
Definition pairs_deleted (l : list call) : list (node * node) :=
  l ≫= fun ev => match ev with NodePairDelete p => [p] | _ => [] end.

(** The number of hash tables deleted. *)
Definition tables_deleted (l : list call) : nat :=
  length (l ≫= fun ev => match ev with HashptrTableDelete => [tt] | _ => [] end).

(** The totals reported by the closing diagnostic. *)
Definition totals_reported (l : list call) : list (Z * Z) :=
  l ≫= fun ev => match ev with Msg (EliminatedTotal n d) => [(n, d)] | _ => [] end.

End MoreObservations.

(** * The command line front end (btormain.c)

    The front end turns the command line into calls of the Boolector
    library.  The parts embedded here are the ones the file itself defines:
    the table of its own options, the formatting of a line of the help
    text, the test of a file name's suffix, and the loop over the arguments
    of [boolector_main] (lines 587-982).  The library behind it (boolector.h,
    btoropt.h, btorexit.h, btorconfig.h) and the C library are
    collaborators. *)

Module BtorMain.

(** A C string: the characters before its terminating NUL. *)
Abbreviation cstring := (list ascii).

(** A string literal of the source. *)
Definition lit (s : string) : cstring := String.list_ascii_of_string s.

(** What the C standard leaves open and the code can reach. *)
Inductive fault :=
| IntConversion    (* a [size_t] stored in an [int] that cannot hold it *)
| OutOfBounds      (* a read or write beyond the end of an array *)
| Uninitialised    (* a buffer used as a string before anything is written to it *)
| NullPointer.     (* a null pointer where a string or a stream is expected *)

(** A computation of the front end returns, aborts on an assertion, or
    leaves defined behaviour. *)
Inductive res (A : Type) :=
| Ok (a : A)
| AssertionFails
| Fault (f : fault).
Arguments Ok {A} a.
Arguments AssertionFails {A}.
Arguments Fault {A} f.

#[global] Instance res_ret : MRet res := @Ok.
#[global] Instance res_bind : MBind res := fun A B k m =>
  match m with
  | Ok a => k a
  | AssertionFails => AssertionFails
  | Fault f => Fault f
  end.

(** [assert (c)] of assert.h. *)
Definition c_assert (ndebug c : bool) : res unit :=
  if ndebug then Ok tt else if c then Ok tt else AssertionFails.

(** ** The C library, as far as the front end uses it *)

Definition strlen (s : cstring) : nat := length s.

(** [int n = strlen (s)]: the conversion is implementation-defined when the
    length exceeds INT_MAX. *)
Definition to_int (n : nat) : res Z :=
  if bool_decide (Z.of_nat n <= INT_MAX) then Ok (Z.of_nat n) else Fault IntConversion.

(** [!strcmp (a, b)] *)
Definition streq (a b : cstring) : bool := bool_decide (a = b).

(** [s[j]] for [j <= strlen (s)]; the character at [strlen (s)] is NUL. *)
Definition char_at (s : cstring) (j : nat) : ascii := nth j s zero.

(** [sprintf (buf, ...)] into a buffer of [size] characters: the text and
    its terminating NUL have to fit. *)
Definition sprintf (size : Z) (text : cstring) : res cstring :=
  if bool_decide (Z.of_nat (strlen text) + 1 <= size) then Ok text
  else Fault OutOfBounds.

(** A [char *] handed to a [%s] conversion or to a function that takes a
    string. *)
Definition deref (p : option cstring) : res cstring :=
  match p with Some s => Ok s | None => Fault NullPointer end.

(** A stream: one of the standard ones, or what a successful [fopen] or
    [popen] returned. *)
Inductive FILE :=
| stdin
| stdout
| fopened (name mode : cstring)
| popened (cmd mode : cstring).

(** ** Options *)

(** The members of [BtorOpt] (btoropt.h) that BTORMAIN_INIT_OPT sets. *)
Record BtorOpt := mkOpt {
  internal : Z;
  shrt : option cstring;
  lng : cstring;
  dflt : Z;
  val : Z;
  min : Z;
  max : Z;
  desc : cstring;
}.

(** BTORMAIN_INIT_OPT (OPT, INTL, SHRT, LNG, VAL, MIN, MAX, DESC) *)
Definition BTORMAIN_INIT_OPT (intl : Z) (s : option string) (l : string)
  (v mn mx : Z) (d : string) : BtorOpt :=
  mkOpt intl (lit <$> s) (lit l) v v mn mx (lit d).

(** The switches of the build. *)
Record config := mkConfig {
  NDEBUG : bool;
  NBTORLOG : bool;
  BTOR_USE_LINGELING : bool;
  BTOR_USE_PICOSAT : bool;
  BTOR_USE_MINISAT : bool;
}.

(** [BtorMainOpts] without its two dummies; a member that the build leaves
    out is [None]. *)
Record BtorMainOpts := mkMainOpts {
  help : BtorOpt;
  copyright : BtorOpt;
  version : BtorOpt;
  time : BtorOpt;
  output : BtorOpt;
  lingeling : option BtorOpt;
  lingeling_nofork : option BtorOpt;
  lingeling_opts : option BtorOpt;
  picosat : option BtorOpt;
  minisat : option BtorOpt;
}.

(** Lines 131-205. *)
Definition btormain_init_opts (cfg : config) : BtorMainOpts := {|
  help := BTORMAIN_INIT_OPT 0 (Some "h") "help" 0 0 1 "print this message and exit";
  copyright := BTORMAIN_INIT_OPT 0 (Some "c") "copyright" 0 0 1 "print copyright and exit";
  version := BTORMAIN_INIT_OPT 0 (Some "V") "version" 0 0 1 "print version and exit";
  time := BTORMAIN_INIT_OPT 0 (Some "t") "time" 0 0 (-1) "set time limit";
  output := BTORMAIN_INIT_OPT 1 (Some "o") "output" 0 0 0 "set output file for dumping";
  lingeling :=
    if BTOR_USE_LINGELING cfg then
      Some (BTORMAIN_INIT_OPT 1 None "lingeling" 0 0 1 "force Lingeling as SAT solver")
    else None;
  lingeling_opts :=
    if BTOR_USE_LINGELING cfg then
      Some (BTORMAIN_INIT_OPT 1 None "lingeling_opts" 0 0 0
              "set lingeling option(s) '--<opt>=<val>'")
    else None;
  lingeling_nofork :=
    if BTOR_USE_LINGELING cfg then
      Some (BTORMAIN_INIT_OPT 1 None "lingeing_nofork" 0 0 0
              "do not use 'fork/clone' for Lingeling")
    else None;
  picosat :=
    if BTOR_USE_PICOSAT cfg then
      Some (BTORMAIN_INIT_OPT 1 None "picosat" 0 0 1 "force PicoSAT as SAT solver")
    else None;
  minisat :=
    if BTOR_USE_MINISAT cfg then
      Some (BTORMAIN_INIT_OPT 1 None "minisat" 0 0 1 "force MiniSAT as SAT solver")
    else None;
|}.

(** The options from BTORMAIN_FIRST_OPT to BTORMAIN_LAST_OPT, in the order
    of the members of the struct. *)
Definition main_opts (o : BtorMainOpts) : list BtorOpt :=
  [help o; copyright o; version o; time o; output o] ++
  option_list (lingeling o) ++ option_list (lingeling_nofork o) ++
  option_list (lingeling_opts o) ++ option_list (picosat o) ++
  option_list (minisat o).

(** ** A line of the help text (lines 237-299) *)

(** ["\n"] *)
Definition newline : cstring := [ascii_of_nat 10].

Definition LEN_OPTSTR : Z := 35.
Definition LEN_PARAMSTR : Z := 16.

(** Lines 252-264: the placeholder for the value of the option. *)
Definition param_of (l : cstring) : cstring :=
  if streq l (lit "look_ahead") || streq l (lit "in_depth") || streq l (lit "interval")
  then lit "<w>"
  else if streq l (lit "time") then lit "<seconds>"
  else if streq l (lit "output") then lit "<file>"
  else if streq l (lit "rewrite_level") then lit "<n>"
  else if streq l (lit "lingeling_opts") then lit "[,<opt>=<val>]+"
  else [].

(** Lines 266-272: the condition of the assertion. *)
Definition fits_asserted (o : BtorOpt) (paramstr : cstring) : bool :=
  streq (lng o) (lit "lingeling_opts")
  || match shrt o with
     | Some s =>
         bool_decide (2 * Z.of_nat (strlen paramstr) + Z.of_nat (strlen s)
                      + Z.of_nat (strlen (lng o)) + 7 <= LEN_OPTSTR)
     | None =>
         bool_decide (2 * Z.of_nat (strlen paramstr) + Z.of_nat (strlen (lng o)) + 7
                      <= LEN_OPTSTR)
     end.

(** Lines 274-277: the long name with every underscore turned into a dash. *)
Definition dash (c : ascii) : ascii :=
  if bool_decide (c = "_"%char) then "-"%char else c.
Definition dashed (l : cstring) : cstring := dash <$> l.

(** Lines 279-288: the arguments of the ["  %s%s%s%s%s--%s%s%s"] format. *)
Definition opt_text (o : BtorOpt) (paramstr lngstr : cstring) : cstring :=
  lit "  " ++
  (if shrt o is Some _ then lit "-" else []) ++
  default [] (shrt o) ++
  (if shrt o is Some _
   then if bool_decide (0 < strlen paramstr)%nat then lit " " else [] else []) ++
  (if shrt o is Some _ then paramstr else []) ++
  (if shrt o is Some _ then lit ", " else []) ++
  lit "--" ++ lngstr ++
  (if bool_decide (0 < strlen paramstr)%nat then lit "=" else []) ++
  paramstr.

(** [print_opt (app, opt)]: the line written to [app->outfile].  What lines
    249-250 put into [optstr] is overwritten by [sprintf] and by the padding
    of lines 292-294. *)
Definition print_opt (ndebug : bool) (o : BtorOpt) : res cstring :=
  paramstr ← sprintf LEN_PARAMSTR (param_of (lng o));
  _ ← c_assert ndebug (fits_asserted o paramstr);
  len ← to_int (strlen (lng o));
  let lngstr := dashed (lng o) in
  optstr ← sprintf LEN_OPTSTR (opt_text o paramstr lngstr);
  len ← to_int (strlen optstr);
  (* for (i = len; i < LEN_OPTSTR - 1; i++) optstr[i] = ' ' *)
  let optstr := optstr ++ replicate (Z.to_nat (LEN_OPTSTR - 1 - len)) " "%char in
  Ok (optstr ++ lit " " ++ desc o ++ newline).

(** ** The suffix of a file name (lines 550-559) *)

Definition has_suffix (str suffix : cstring) : res Z :=
  l ← to_int (strlen str);
  k ← to_int (strlen suffix);
  let d := l - k in
  if bool_decide (d < 0) then Ok 0
  else Ok (if streq (drop (Z.to_nat d) str) suffix then 1 else 0).

(** [a || b] on the results of two calls: [b] is evaluated only when [a]
    is zero. *)
Definition or_else (a b : res Z) : res Z :=
  x ← a; if bool_decide (x <> 0) then Ok 1 else (y ← b; Ok (if bool_decide (y <> 0) then 1 else 0)).

(** ** The library and the system *)

(** What the front end calls or logs. *)
Inductive event :=
| Stderr (text : cstring)                       (* fputs and vfprintf on stderr *)
| Fprintf (f : FILE) (text : cstring)           (* fprintf on [app->outfile] *)
| FileExists (name : cstring) (r : bool)        (* btor_file_exists *)
| Fopen (name mode : cstring) (r : bool)        (* fopen; [r]: not null *)
| Popen (cmd mode : cstring) (r : bool)         (* popen; [r]: not null *)
| SetOpt (name : cstring) (v : Z).              (* boolector_set_opt *)

(** The Boolector library behind boolector.h, and the system calls.  A call
    of the system may answer differently as the run goes on: its answer is a
    function of what happened so far. *)
Class Boolector (B : Type) := {
  (** the options from [boolector_first_opt] to [boolector_last_opt] *)
  boolector_opts : B -> list BtorOpt;
  (** the options from [btor_first_opt] to [btor_last_opt] *)
  btor_opts : B -> list BtorOpt;
  (** [boolector_set_opt (btor, name, val)] *)
  boolector_set_opt : B -> cstring -> Z -> B;
  (** [boolector_get_opt (btor, name)->val] *)
  boolector_get_opt_val : B -> cstring -> Z;
  (** btorexit.h, btorparse.h, btoropt.h and btorconfig.h *)
  BTOR_ERR_EXIT : Z;
  BTOR_INPUT_FORMAT_BTOR : Z;
  BTOR_INPUT_FORMAT_SMT1 : Z;
  BTOR_INPUT_FORMAT_SMT2 : Z;
  BTOR_OUTPUT_BASE_HEX : Z;
  BTOR_OUTPUT_BASE_DEC : Z;
  BTOR_OUTPUT_FORMAT_BTOR : Z;
  BTOR_OUTPUT_FORMAT_SMT1 : Z;
  BTOR_OUTPUT_FORMAT_SMT2 : Z;
  BTOR_PARSE_MODE_BASIC_INCREMENTAL : Z;
  BTOR_PARSE_MODE_INCREMENTAL_BUT_CONTINUE : Z;
  BTOR_VERSION : cstring;
  (** [atoi] of stdlib.h; [btor_file_exists] of btorutil.h and [fopen] and
      [popen] of stdio.h, each with the history of the run: whether the file
      is there, whether the stream returned is not null *)
  atoi : cstring -> Z;
  btor_file_exists : list event -> cstring -> bool;
  fopen : list event -> cstring -> cstring -> bool;
  popen : list event -> cstring -> cstring -> bool;
}.

Section FrontEnd.

Context {B : Type} `{!Boolector B}.

Variable cfg : config.

(** [BtorMainApp]; [mm] is left out, and [trace] is the history of the run. *)
Record BtorMainApp := mkApp {
  btor : B;
  opts : BtorMainOpts;
  done : Z;
  err : Z;
  infile_name : option cstring;
  infile : option FILE;
  close_infile : Z;
  outfile : option FILE;
  close_outfile : Z;
  trace : list event;
}.

Definition set_btor (x : B) (a : BtorMainApp) : BtorMainApp :=
  mkApp x (opts a) (done a) (err a) (infile_name a) (infile a) (close_infile a)
    (outfile a) (close_outfile a) (trace a).
Definition set_done (x : Z) (a : BtorMainApp) : BtorMainApp :=
  mkApp (btor a) (opts a) x (err a) (infile_name a) (infile a) (close_infile a)
    (outfile a) (close_outfile a) (trace a).
Definition set_err (x : Z) (a : BtorMainApp) : BtorMainApp :=
  mkApp (btor a) (opts a) (done a) x (infile_name a) (infile a) (close_infile a)
    (outfile a) (close_outfile a) (trace a).
Definition set_infile_name (x : option cstring) (a : BtorMainApp) : BtorMainApp :=
  mkApp (btor a) (opts a) (done a) (err a) x (infile a) (close_infile a)
    (outfile a) (close_outfile a) (trace a).
Definition set_infile (x : option FILE) (a : BtorMainApp) : BtorMainApp :=
  mkApp (btor a) (opts a) (done a) (err a) (infile_name a) x (close_infile a)
    (outfile a) (close_outfile a) (trace a).
Definition set_close_infile (x : Z) (a : BtorMainApp) : BtorMainApp :=
  mkApp (btor a) (opts a) (done a) (err a) (infile_name a) (infile a) x
    (outfile a) (close_outfile a) (trace a).
Definition set_outfile (x : option FILE) (a : BtorMainApp) : BtorMainApp :=
  mkApp (btor a) (opts a) (done a) (err a) (infile_name a) (infile a) (close_infile a)
    x (close_outfile a) (trace a).
Definition set_close_outfile (x : Z) (a : BtorMainApp) : BtorMainApp :=
  mkApp (btor a) (opts a) (done a) (err a) (infile_name a) (infile a) (close_infile a)
    (outfile a) x (trace a).
Definition record (ev : event) (a : BtorMainApp) : BtorMainApp :=
  mkApp (btor a) (opts a) (done a) (err a) (infile_name a) (infile a) (close_infile a)
    (outfile a) (close_outfile a) (trace a ++ [ev]).

(** [*static_app] after lines 583-585: [btormain_new_btormain] sets
    [infile] to stdin and [outfile] to stdout on a struct that BTOR_CNEWN
    cleared, and [btormain_init_opts] fills in the options. *)
Definition new_app (b : B) : BtorMainApp :=
  mkApp b (btormain_init_opts cfg) 0 0 None (Some stdin) 0 (Some stdout) 0 [].

(** Lines 208-220: the message goes to stderr between ["boolector: "] and a
    newline. *)
Definition btormain_error (msg : cstring) (a : BtorMainApp) : BtorMainApp :=
  set_err BTOR_ERR_EXIT
    (record (Stderr (lit "boolector: " ++ msg ++ newline)) a).

(** [fprintf (app->outfile, ...)] *)
Definition fprintf (text : cstring) (a : BtorMainApp) : res BtorMainApp :=
  match outfile a with
  | Some f => Ok (record (Fprintf f text) a)
  | None => Fault NullPointer
  end.

(** [boolector_set_opt (static_app->btor, name, v)] *)
Definition boolector_set (name : cstring) (v : Z) (a : BtorMainApp) : BtorMainApp :=
  record (SetOpt name v) (set_btor (boolector_set_opt (btor a) name v) a).

(** [print_opt] on the stream of the application. *)
Definition print_opt_to (o : BtorOpt) (a : BtorMainApp) : res BtorMainApp :=
  line ← print_opt (NDEBUG cfg) o;
  fprintf line a.

(** The loops of [print_help] over the options: [body] on every element in
    turn. *)
Fixpoint each {A S : Type} (body : A -> S -> res S) (l : list A) (s : S) : res S :=
  match l with
  | [] => Ok s
  | x :: l' => s' ← body x s; each body l' s'
  end.

(** [to.shrt = ...; to.lng = ...; to.desc = ...] on the local [BtorOpt to],
    whose other members are never set nor read. *)
Definition to_opt (s : option string) (l d : string) : BtorOpt :=
  mkOpt 0 (lit <$> s) (lit l) 0 0 0 0 (lit d).

(** Lines 301-397. *)
Definition print_help (a : BtorMainApp) : res BtorMainApp :=
  a ← fprintf (lit "usage: boolector [<option>...][<input>]" ++ newline) a;
  a ← fprintf newline a;
  a ← fprintf (lit "where <option> is one of the following:" ++ newline) a;
  a ← fprintf newline a;
  a ← each (fun o a =>
              if bool_decide (internal o <> 0) then Ok a
              else
                a ← (if streq (lng o) (lit "time") || streq (lng o) (lit "output")
                     then fprintf newline a else Ok a);
                print_opt_to o a)
         (main_opts (opts a)) a;
  a ← fprintf newline a;
  a ← each (fun o a =>
              if bool_decide (internal o <> 0) then Ok a
              else
                a ← (if streq (lng o) (lit "incremental")
                        || streq (lng o) (lit "beta_reduce_all")
                        || streq (lng o) (lit "no_pretty_print")
                     then fprintf newline a else Ok a);
                if streq (lng o) (lit "input_format") then
                  a ← fprintf newline a;
                  a ← print_opt_to (to_opt None "btor" "force BTOR input format") a;
                  a ← print_opt_to (to_opt None "smt" "force SMT-LIB v2 input format") a;
                  a ← print_opt_to (to_opt None "smt1" "force SMT-LIB v1 input format") a;
                  fprintf newline a
                else if streq (lng o) (lit "output_number_format") then
                  a ← print_opt_to (output (opts a)) a;
                  a ← fprintf newline a;
                  a ← print_opt_to
                        (to_opt (Some "x") "hex" "force hexadecimal number output") a;
                  print_opt_to (to_opt (Some "d") "dec" "force decimal number output") a
                else if streq (lng o) (lit "output_format") then
                  a ← fprintf newline a;
                  a ← print_opt_to
                        (to_opt (Some "db") "dump_btor" "dump formula in BTOR format") a;
                  a ← print_opt_to
                        (to_opt (Some "ds") "dump_smt" "dump formula in SMT-LIB v2 format") a;
                  a ← print_opt_to
                        (to_opt (Some "ds1") "dump_smt1" "dump formula in SMT-LIB v1 format")
                        a;
                  fprintf newline a
                else print_opt_to o a)
         (boolector_opts (btor a)) a;
  a ← (match lingeling (opts a), lingeling_nofork (opts a), lingeling_opts (opts a) with
       | Some l, Some lf, Some lo =>                  (* BTOR_USE_LINGELING *)
           a ← fprintf newline a;
           a ← print_opt_to l a;
           a ← print_opt_to lf a;
           print_opt_to lo a
       | _, _, _ =>
           match picosat (opts a), minisat (opts a) with
           | Some p, _ => print_opt_to p a            (* BTOR_USE_PICOSAT *)
           | None, Some m => print_opt_to m a         (* BTOR_USE_MINISAT *)
           | None, None => Ok a                       (* #error: no such build *)
           end
       end);
  Ok (set_done 1 a).

(** Lines 399-433. *)
Definition print_copyright (a : BtorMainApp) : res BtorMainApp :=
  let line (s : string) (a : BtorMainApp) := fprintf (lit s ++ newline) a in
  a ← line "This software is" a;
  a ← line "Copyright (c) 2007-2009 Robert Brummayer" a;
  a ← line "Copyright (c) 2007-2014 Armin Biere" a;
  a ← line "Copyright (c) 2012-2014 Aina Niemetz, Mathias Preiner" a;
  a ← line "Copyright (c) 2013 Christian Reisenberger" a;
  a ← line "Institute for Formal Models and Verification" a;
  a ← line "Johannes Kepler University, Linz, Austria" a;
  a ← (if BTOR_USE_LINGELING cfg then
         a ← fprintf newline a;
         a ← line "This software is linked against Lingeling" a;
         a ← line "Copyright (c) 2010-2014 Armin Biere" a;
         a ← line "Institute for Formal Models and Verification" a;
         line "Johannes Kepler University, Linz, Austria" a
       else Ok a);
  a ← (if BTOR_USE_PICOSAT cfg then
         a ← fprintf newline a;
         a ← line "This software is linked against PicoSAT" a;
         a ← line "Copyright (c) 2006-2014 Armin Biere" a;
         a ← line "Institute for Formal Models and Verification" a;
         line "Johannes Kepler University, Linz, Austria" a
       else Ok a);
  a ← (if BTOR_USE_MINISAT cfg then
         a ← fprintf newline a;
         a ← line "This software is linked against MiniSAT" a;
         line "Copyright (c) 2003-2013, Niklas Een, Niklas Sorensson" a
       else Ok a);
  Ok (set_done 1 a).

(** Lines 435-441. *)
Definition print_version (a : BtorMainApp) : res BtorMainApp :=
  a ← fprintf (BTOR_VERSION ++ newline) a;
  Ok (set_done 1 a).

(** ** The loop over the arguments (lines 587-982) *)

(** The variables of [boolector_main] and the statics that the loop reads or
    writes.  [lingeling_opts] is a pointer into an argument: [Some None] is
    the pointer one past the terminating NUL of the argument.  The counters
    grow by one per argument at most, and there are fewer than INT_MAX
    arguments: their increments are exact. *)
Record frame := mkFrame {
  i : Z;
  static_verbosity : Z;
  static_set_alarm : Z;
  log_level : Z;                               (* the local [log] *)
  lingeling_opts_arg : option (option cstring); (* the local [lingeling_opts] *)
  inc : Z;
  incid : Z;
  incla : Z;
  incint : Z;
  dump : Z;
  app : BtorMainApp;                           (* [*static_app] *)
}.

Definition set_i (x : Z) (f : frame) : frame :=
  mkFrame x (static_verbosity f) (static_set_alarm f) (log_level f)
    (lingeling_opts_arg f) (inc f) (incid f) (incla f) (incint f) (dump f) (app f).
Definition set_static_verbosity (x : Z) (f : frame) : frame :=
  mkFrame (i f) x (static_set_alarm f) (log_level f)
    (lingeling_opts_arg f) (inc f) (incid f) (incla f) (incint f) (dump f) (app f).
Definition set_static_set_alarm (x : Z) (f : frame) : frame :=
  mkFrame (i f) (static_verbosity f) x (log_level f)
    (lingeling_opts_arg f) (inc f) (incid f) (incla f) (incint f) (dump f) (app f).
Definition set_log_level (x : Z) (f : frame) : frame :=
  mkFrame (i f) (static_verbosity f) (static_set_alarm f) x
    (lingeling_opts_arg f) (inc f) (incid f) (incla f) (incint f) (dump f) (app f).
Definition set_lingeling_opts_arg (x : option (option cstring)) (f : frame) : frame :=
  mkFrame (i f) (static_verbosity f) (static_set_alarm f) (log_level f)
    x (inc f) (incid f) (incla f) (incint f) (dump f) (app f).
Definition set_inc (x : Z) (f : frame) : frame :=
  mkFrame (i f) (static_verbosity f) (static_set_alarm f) (log_level f)
    (lingeling_opts_arg f) x (incid f) (incla f) (incint f) (dump f) (app f).
Definition set_incid (x : Z) (f : frame) : frame :=
  mkFrame (i f) (static_verbosity f) (static_set_alarm f) (log_level f)
    (lingeling_opts_arg f) (inc f) x (incla f) (incint f) (dump f) (app f).
Definition set_incla (x : Z) (f : frame) : frame :=
  mkFrame (i f) (static_verbosity f) (static_set_alarm f) (log_level f)
    (lingeling_opts_arg f) (inc f) (incid f) x (incint f) (dump f) (app f).
Definition set_incint (x : Z) (f : frame) : frame :=
  mkFrame (i f) (static_verbosity f) (static_set_alarm f) (log_level f)
    (lingeling_opts_arg f) (inc f) (incid f) (incla f) x (dump f) (app f).
Definition set_dump (x : Z) (f : frame) : frame :=
  mkFrame (i f) (static_verbosity f) (static_set_alarm f) (log_level f)
    (lingeling_opts_arg f) (inc f) (incid f) (incla f) (incint f) x (app f).
Definition set_app (x : BtorMainApp) (f : frame) : frame :=
  mkFrame (i f) (static_verbosity f) (static_set_alarm f) (log_level f)
    (lingeling_opts_arg f) (inc f) (incid f) (incla f) (incint f) (dump f) x.
Definition on_app (g : BtorMainApp -> BtorMainApp) (f : frame) : frame :=
  set_app (g (app f)) f.

(** Lines 573-585: the state in which the loop is entered.
    [static_set_alarm] is a static that nothing sets before the loop. *)
Definition initial (b : B) : frame :=
  mkFrame 1 0 0 0 None 0 0 0 0 0 (new_app b).

(** How an iteration ends: at the end of the body or at [continue], or with
    [goto DONE]. *)
Inductive flow :=
| Next (f : frame)
| GotoDone (f : frame).

(** [btormain_error (static_app, ...); goto DONE;] *)
Definition error_done (msg : cstring) (f : frame) : res flow :=
  Ok (GotoDone (on_app (btormain_error msg) f)).

(** [argv[i]] for [0 <= i <= argc]; [argv[argc]] is a null pointer. *)
Definition arg_at (argv : list cstring) (i : Z) : res (option cstring) :=
  if bool_decide (0 <= i <= Z.of_nat (length argv)) then Ok (argv !! Z.to_nat i)
  else Fault OutOfBounds.

(** Lines 599-614: the input is read through a decompressor. *)
Definition open_compressed (name : cstring) (a : BtorMainApp) : res BtorMainApp :=
  (* BTOR_NEWN (mm, cmd, strlen (infile_name + 40)) *)
  size ← (if bool_decide (40 <= strlen name)%nat
          then Ok (Z.of_nat (strlen (drop 40 name)))
          else Fault OutOfBounds);
  gz ← has_suffix name (lit ".gz");
  cmd ← (if bool_decide (gz <> 0)
         then c ← sprintf size (lit "gunzip -c " ++ name); Ok (Some c)
         else
           bz2 ← has_suffix name (lit ".bz2");
           if bool_decide (bz2 <> 0)
           then c ← sprintf size (lit "bzcat " ++ name); Ok (Some c)
           else
             z7 ← has_suffix name (lit ".7z");
             if bool_decide (z7 <> 0)
             then c ← sprintf size (lit "7z x -so " ++ name ++ lit " 2>/dev/null");
                  Ok (Some c)
             else Ok None);
  (* popen (cmd, "r") reads the buffer *)
  cmd ← (match cmd with Some c => Ok c | None => Fault Uninitialised end);
  let opened := popen (trace a) cmd (lit "r") in
  let a := record (Popen cmd (lit "r") opened) a in
  if opened
  then Ok (set_close_infile 2 (set_infile (Some (popened cmd (lit "r"))) a))
  else Ok (set_infile None a).

(** Lines 615-616: the input is read as it is. *)
Definition open_plain (name : cstring) (a : BtorMainApp) : BtorMainApp :=
  let opened := fopen (trace a) name (lit "r") in
  let a := record (Fopen name (lit "r") opened) a in
  if opened
  then set_close_infile 1 (set_infile (Some (fopened name (lit "r"))) a)
  else set_infile None a.

(** Lines 589-626: an argument that does not start with a dash names the
    input. *)
Definition open_infile (name : cstring) (f : frame) : res flow :=
  let a := app f in
  if bool_decide (close_infile a <> 0) then error_done (lit "multiple input files") f
  else
    let a := set_infile_name (Some name) a in
    let found := btor_file_exists (trace a) name in
    let a := record (FileExists name found) a in
    a ← (if negb found then Ok (set_infile None a)
         else
           compressed ← or_else (has_suffix name (lit ".gz"))
                           (or_else (has_suffix name (lit ".bz2"))
                                    (has_suffix name (lit "7z")));
           if bool_decide (compressed <> 0) then open_compressed name a
           else Ok (open_plain name a));
    match infile a with
    | None => error_done (lit "can not read '" ++ name ++ lit "'") (set_app a f)
    | Some _ => Ok (Next (set_app a f))
    end.

(** What lines 628-641 compute from an argument that starts with a dash. *)
Record parsed := mkParsed {
  s_shrt : Z;
  s_opt : cstring;
  s_valstr : option cstring;    (* [None]: one past the end of the argument *)
  s_readval : Z;
  s_val : Z;
}.

(** [argv[i][j] == '-' ? '_' : argv[i][j]] *)
Definition underscore (c : ascii) : ascii :=
  if bool_decide (c = "-"%char) then "_"%char else c.

(** Lines 633-634: the loop that fills [char opt[50]]; [rest] is what is
    left of the argument from index [j] on. *)
Fixpoint scan_name (rest : cstring) (k : Z) (opt : cstring) : res (Z * cstring * cstring) :=
  match rest with
  | [] => Ok (k, opt, rest)
  | c :: rest' =>
      if bool_decide (c = "="%char) then Ok (k, opt, rest)
      else if bool_decide (k < 50) then
        scan_name rest' (k + 1) (opt ++ [underscore c])
      else Fault OutOfBounds
  end.

(** Lines 628-641. *)
Definition split_arg (arg : cstring) : res parsed :=
  len ← to_int (strlen arg);
  let shrt := if bool_decide (char_at arg 1 = "-"%char) then 0 else 1 in
  '(k, opt, rest) ← scan_name (drop (if bool_decide (shrt <> 0) then 1%nat else 2%nat) arg) 0 [];
  (* opt[k] = '\0' *)
  _ ← (if bool_decide (k < 50) then Ok tt else Fault OutOfBounds);
  match rest with
  | c :: valstr => Ok (mkParsed shrt opt (Some valstr) 1 (atoi valstr))   (* '=' *)
  | [] => Ok (mkParsed shrt opt None 0 0)
  end.

(** The test that selects a branch:
    [(shrt && o.shrt && !strcmp (opt, o.shrt)) || !strcmp (opt, o.lng)]. *)
Definition matches (s : parsed) (o : BtorOpt) : bool :=
  (bool_decide (s_shrt s <> 0)
   && match shrt o with Some n => streq (s_opt s) n | None => false end)
  || streq (s_opt s) (lng o).

(** ["%s%s"] on [shrt ? "-" : "--"] and [shrt ? o.shrt : o.lng]. *)
Definition spelled (s : parsed) (o : BtorOpt) : res cstring :=
  if bool_decide (s_shrt s <> 0) then n ← deref (shrt o); Ok (lit "-" ++ n)
  else Ok (lit "--" ++ lng o).

(** [if (!readval && ++i >= argc) { missing argument } else if (!readval)
    val = atoi (argv[i]);]: the frame with [i] advanced and the value, or
    the frame in which the error was reported. *)
Definition read_value (argv : list cstring) (s : parsed) (name : res cstring)
  (f : frame) : res (frame * Z + frame) :=
  if bool_decide (s_readval s = 0) then
    let f := set_i (i f + 1) f in
    if bool_decide (i f >= Z.of_nat (length argv)) then
      n ← name;
      Ok (inr (on_app (btormain_error (lit "missing argument for '" ++ n ++ lit "'")) f))
    else
      arg ← arg_at argv (i f);
      arg ← deref arg;
      Ok (inl (f, atoi arg))
  else Ok (inl (f, s_val s)).

(** Lines 664-690: [-t], [--time]. *)
Definition time_option (argv : list cstring) (s : parsed) (f : frame) : res flow :=
  let o := time (opts (app f)) in
  r ← read_value argv s (spelled s o) f;
  match r with
  | inr f => Ok (GotoDone f)
  | inl (f, val) =>
      let f := set_static_set_alarm val f in
      if bool_decide (static_set_alarm f <= 0) then
        n ← spelled s o;
        error_done (lit "invalid argument for '" ++ n ++ lit "'") f
      else
        Ok (Next (on_app (boolector_set (lit "time") (static_set_alarm f)) f))
  end.

(** [if (!readval && ++i > argc) { missing argument }] of the branches of
    [output] and [lingeling_opts]. *)
Definition skip_value (argv : list cstring) (s : parsed) (o : BtorOpt) (f : frame)
  : res (frame + frame) :=
  if bool_decide (s_readval s = 0) then
    let f := set_i (i f + 1) f in
    if bool_decide (i f > Z.of_nat (length argv)) then
      n ← spelled s o;
      Ok (inr (on_app (btormain_error (lit "missing argument for '" ++ n ++ lit "'")) f))
    else Ok (inl f)
  else Ok (inl f).

(** Lines 692-718: [-o], [--output]. *)
Definition output_option (argv : list cstring) (s : parsed) (f : frame) : res flow :=
  r ← skip_value argv s (output (opts (app f))) f;
  match r with
  | inr f => Ok (GotoDone f)
  | inl f =>
      if bool_decide (close_outfile (app f) <> 0) then error_done (lit "multiple output files") f
      else
        arg ← arg_at argv (i f);
        name ← deref arg;
        let a := app f in
        let opened := fopen (trace a) name (lit "w") in
        let a := record (Fopen name (lit "w") opened) a in
        if opened then
          Ok (Next (set_app
                      (set_close_outfile 1
                         (set_outfile (Some (fopened name (lit "w"))) a)) f))
        else
          error_done (lit "can not create '" ++ name ++ lit "'")
            (set_app (set_outfile None a) f)
  end.

(** Lines 720-737, in a build with BTOR_USE_LINGELING. *)
Definition lingeling_opts_option (argv : list cstring) (s : parsed) (o : BtorOpt)
  (f : frame) : res flow :=
  r ← skip_value argv s o f;
  match r with
  | inr f => Ok (GotoDone f)
  | inl f => Ok (Next (set_lingeling_opts_arg (Some (s_valstr s)) f))
  end.

(** [boolector_set_opt (static_app->btor, name, v)] as a whole branch. *)
Definition set_and_go (name : cstring) (v : Z) (f : frame) : res flow :=
  Ok (Next (on_app (boolector_set name v) f)).

(** The three branches of the incremental windows (lines 803-901): [others]
    are the flags of the two other windows, [set_flag] sets the flag of this
    one. *)
Definition window_option (argv : list cstring) (s : parsed) (o : BtorOpt)
  (others : bool) (what : string) (set_flag : Z -> frame -> frame) (f : frame)
  : res flow :=
  if others then
    error_done (lit "Can only use one out of '--incremental-in-depth', '--incremental-look-ahead', or '--incremental-interval'") f
  else
    r ← read_value argv s (spelled s o) f;
    match r with
    | inr f => Ok (GotoDone f)
    | inl (f, val) =>
        if bool_decide (val < 1) then
          error_done (lit "incremental " ++ lit what ++ lit " width must be >= 1") f
        else Ok (Next (set_flag 1 (on_app (boolector_set (lng o) val) f)))
    end.

(** The two branches of the rewrite levels (lines 926-965); [name] is what
    the diagnostic of a missing value shows. *)
Definition rewrite_level_option (argv : list cstring) (s : parsed) (o : BtorOpt)
  (name : res cstring) (f : frame) : res flow :=
  r ← read_value argv s name f;
  match r with
  | inr f => Ok (GotoDone f)
  | inl (f, val) =>
      if bool_decide (val > 3) || bool_decide (val < 0) then
        error_done (lit "rewrite level not in [0,3]") f
      else Ok (Next (on_app (boolector_set (lng o) val) f))
  end.

(** [(shrt && o->shrt && !strcmp (o->shrt, n)) || !strcmp (o->lng, l)] *)
Definition is_opt (s : parsed) (o : BtorOpt) (n l : string) : bool :=
  (bool_decide (s_shrt s <> 0)
   && match shrt o with Some x => streq x (lit n) | None => false end)
  || streq (lng o) (lit l).

(** Lines 788-979: the option [o] of the library that the argument names. *)
Definition library_option (argv : list cstring) (s : parsed) (o : BtorOpt) (f : frame)
  : res flow :=
  if is_opt s o "i" "incremental" then
    let f := set_inc (Z.lor (inc f) BTOR_PARSE_MODE_BASIC_INCREMENTAL) f in
    set_and_go (lng o) (inc f) f
  else if is_opt s o "I" "incremental_all" then
    let f := on_app (boolector_set (lng o) BTOR_PARSE_MODE_INCREMENTAL_BUT_CONTINUE) f in
    let f := set_inc (Z.lor (inc f) BTOR_PARSE_MODE_INCREMENTAL_BUT_CONTINUE) f in
    set_and_go (lit "incremental") (inc f) f
  else if streq (lng o) (lit "incremental_in_depth") then
    window_option argv s o
      (bool_decide (incla f <> 0) || bool_decide (incint f <> 0)) "in-depth" set_incid f
  else if streq (lng o) (lit "incremental_look_ahead") then
    window_option argv s o
      (bool_decide (incid f <> 0) || bool_decide (incint f <> 0)) "look-ahead" set_incla f
  else if streq (lng o) (lit "incremental_inverval") then
    window_option argv s o
      (bool_decide (incid f <> 0) || bool_decide (incla f <> 0)) "interval" set_incint f
  else if is_opt s o "dp" "dual_prop" then
    if bool_decide (boolector_get_opt_val (btor (app f)) (lit "just") <> 0) then
      error_done (lit "multiple exclusive optimization techniques enabled") f
    else set_and_go (lng o) 1 f
  else if is_opt s o "ju" "just" then
    if bool_decide (boolector_get_opt_val (btor (app f)) (lit "dual_prop") <> 0) then
      error_done (lit "multiple exclusive optimization techniques enabled") f
    else set_and_go (lng o) 1 f
  else if is_opt s o "rwl" "rewrite_level" then
    rewrite_level_option argv s o (spelled s o) f
  else if streq (lng o) (lit "rewrite_level_pbr") then
    rewrite_level_option argv s o (Ok (lit "--" ++ lng o)) f
  else if negb (NBTORLOG cfg) && is_opt s o "l" "loglevel" then
    Ok (Next (set_log_level (log_level f + 1) f))
  else if is_opt s o "v" "verbosity" then
    Ok (Next (set_static_verbosity (static_verbosity f + 1) f))
  else set_and_go (lng o) 1 f.

(** Lines 738-981: the names the front end knows by heart, then the options
    of the library. *)
Definition other_option (argv : list cstring) (s : parsed) (f : frame) : res flow :=
  let opt := s_opt s in
  if streq opt (lit "btor") then
    set_and_go (lit "input_format") BTOR_INPUT_FORMAT_BTOR f
  else if streq opt (lit "smt") then
    set_and_go (lit "input_format") BTOR_INPUT_FORMAT_SMT2 f
  else if streq opt (lit "smt1") then
    set_and_go (lit "input_format") BTOR_INPUT_FORMAT_SMT1 f
  else if streq opt (lit "x") || streq opt (lit "hex") then
    set_and_go (lit "output_number_format") BTOR_OUTPUT_BASE_HEX f
  else if streq opt (lit "d") || streq opt (lit "dec") then
    set_and_go (lit "output_number_format") BTOR_OUTPUT_BASE_DEC f
  else if streq opt (lit "db") || streq opt (lit "dump_btor") then
    let f := set_dump BTOR_OUTPUT_FORMAT_BTOR f in
    set_and_go (lit "output_format") (dump f) f
  else if streq opt (lit "ds") || streq opt (lit "dump_smt") then
    let f := set_dump BTOR_OUTPUT_FORMAT_SMT2 f in
    set_and_go (lit "output_format") (dump f) f
  else if streq opt (lit "ds1") || streq opt (lit "dump_smt1") then
    let f := set_dump BTOR_OUTPUT_FORMAT_SMT1 f in
    set_and_go (lit "output_format") (dump f) f
  else
    match list_find (fun o => matches s o = true) (btor_opts (btor (app f))) with
    | None =>
        error_done (lit "invalid option '" ++
              (if bool_decide (s_shrt s <> 0) then lit "-" else lit "--") ++
              opt ++ lit "'") f
    | Some (_, o) => library_option argv s o f
    end.

(** Lines 588-981: the body of the loop, on [argv[i]]. *)
Definition visit_arg (argv : list cstring) (f : frame) : res flow :=
  arg ← arg_at argv (i f);
  arg ← deref arg;
  if bool_decide (char_at arg 0 <> "-"%char) then open_infile arg f
  else
    s ← split_arg arg;
    let o := opts (app f) in
    if matches s (help o) then
      a ← print_help (app f); Ok (GotoDone (set_app a f))
    else if matches s (copyright o) then
      a ← print_copyright (app f); Ok (GotoDone (set_app a f))
    else if matches s (version o) then
      a ← print_version (app f); Ok (GotoDone (set_app a f))
    else if matches s (time o) then time_option argv s f
    else if matches s (output o) then output_option argv s f
    else
      match lingeling_opts o with
      | Some lo =>
          if matches s lo then lingeling_opts_option argv s lo f
          else other_option argv s f
      | None => other_option argv s f
      end.

(** [for (i = 1; i < argc; i++) { ... }], entered with [i] set; [argc] is
    the length of [argv].  [None]: the fuel did not last. *)
Fixpoint args_loop (fuel : nat) (argv : list cstring) (f : frame) : option (res flow) :=
  if bool_decide (i f < Z.of_nat (length argv)) then
    match fuel with
    | O => None
    | S fuel' =>
        match visit_arg argv f with
        | Ok (Next f') => args_loop fuel' argv (set_i (i f' + 1) f')
        | r => Some r
        end
    end
  else Some (Ok (Next f)).

(** The loop as [boolector_main] runs it, from [i = 1]. *)
Definition parse_args (argv : list cstring) (b : B) : option (res flow) :=
  args_loop (length argv) argv (initial b).

(** Line 984: [assert (!static_app->done && !static_app->err)]. *)
Definition assert_parsed (f : frame) : res unit :=
  c_assert (NDEBUG cfg)
    (bool_decide (done (app f) = 0) && bool_decide (err (app f) = 0)).

(** ** What the state of the front end shows *)

(** The names handed to [btor_file_exists]. *)
Definition inputs_probed (t : list event) : list cstring :=
  t ≫= fun ev => match ev with FileExists n _ => [n] | _ => [] end.

(** The commands handed to [popen]. *)
Definition pipes_opened (t : list event) : list cstring :=
  t ≫= fun ev => match ev with Popen c _ _ => [c] | _ => [] end.

(** The input is the standard input and no file was looked for, or it is
    the one file that was looked for, opened for reading. *)
Definition input_state (a : BtorMainApp) : Prop :=
  (close_infile a = 0 /\ infile a = Some stdin /\ infile_name a = None /\
   inputs_probed (trace a) = []) \/
  (exists name,
     close_infile a = 1 /\ infile a = Some (fopened name (lit "r")) /\
     infile_name a = Some name /\ inputs_probed (trace a) = [name]).

(** The output is the standard output, or a file opened for writing. *)
Definition output_state (a : BtorMainApp) : Prop :=
  (close_outfile a = 0 /\ outfile a = Some stdout) \/
  (exists name, close_outfile a = 1 /\ outfile a = Some (fopened name (lit "w"))).

(** Two states of the application that differ at most in the library and in
    events other than the search for an input and the opening of a pipe. *)
Definition steady (a a' : BtorMainApp) : Prop :=
  opts a' = opts a /\ done a' = done a /\ err a' = err a /\
  infile_name a' = infile_name a /\ infile a' = infile a /\
  close_infile a' = close_infile a /\
  outfile a' = outfile a /\ close_outfile a' = close_outfile a /\
  inputs_probed (trace a') = inputs_probed (trace a) /\
  pipes_opened (trace a') = pipes_opened (trace a).

(** The state between two arguments. *)
Definition parsing (f : frame) : Prop :=
  done (app f) = 0 /\ err (app f) = 0 /\
  opts (app f) = btormain_init_opts cfg /\
  input_state (app f) /\ output_state (app f) /\
  pipes_opened (trace (app f)) = [].

(** The state in which [DONE] is reached from within the loop: after one of
    the three printing options, or after an error. *)
Definition stopped (f : frame) : Prop :=
  (done (app f) = 1 /\ err (app f) = 0) \/
  (done (app f) = 0 /\ err (app f) = BTOR_ERR_EXIT).

(** What an iteration that starts in [f] ends in: the next argument or the
    one after it, or [DONE]. *)
Definition follows (f : frame) (r : flow) : Prop :=
  match r with
  | Next f' => parsing f' /\ i f <= i f' <= i f + 1
  | GotoDone f' => stopped f'
  end.

End FrontEnd.

End BtorMain.

(** ** A library and a system for the examples

    The examples below run the front end against a small stand-in: a
    library with four options that remembers what it was told, a decimal
    [atoi], and a file system that holds two files. *)

Module Demo.
Import BtorMain.

Definition digit (c : ascii) : option Z :=
  let n := Z.of_nat (nat_of_ascii c) in
  if bool_decide (48 <= n <= 57) then Some (n - 48) else None.

Fixpoint read_digits (acc : Z) (s : cstring) : Z :=
  match s with
  | c :: s' =>
      match digit c with Some d => read_digits (10 * acc + d) s' | None => acc end
  | [] => acc
  end.

Definition library_opts : list BtorOpt :=
  [ mkOpt 0 (Some (lit "m")) (lit "model_gen") 0 0 0 1 (lit "generate model");
    mkOpt 0 (Some (lit "i")) (lit "incremental") 0 0 0 1 (lit "incremental usage");
    mkOpt 0 (Some (lit "rwl")) (lit "rewrite_level") 3 3 0 3 (lit "set rewrite level");
    mkOpt 0 (Some (lit "v")) (lit "verbosity") 0 0 0 3 (lit "increase verbosity") ].

#[global] Instance library : Boolector (list (cstring * Z)) := {|
  boolector_opts := fun _ => library_opts;
  btor_opts := fun _ => library_opts;
  boolector_set_opt := fun b name v => (name, v) :: b;
  boolector_get_opt_val := fun b name =>
    default 0 ((fun p => p.2.2) <$> list_find (fun p => p.1 = name) b);
  BTOR_ERR_EXIT := 1;
  BTOR_INPUT_FORMAT_BTOR := 1;
  BTOR_INPUT_FORMAT_SMT1 := 2;
  BTOR_INPUT_FORMAT_SMT2 := 3;
  BTOR_OUTPUT_BASE_HEX := 1;
  BTOR_OUTPUT_BASE_DEC := 2;
  BTOR_OUTPUT_FORMAT_BTOR := 1;
  BTOR_OUTPUT_FORMAT_SMT1 := 2;
  BTOR_OUTPUT_FORMAT_SMT2 := 3;
  BTOR_PARSE_MODE_BASIC_INCREMENTAL := 1;
  BTOR_PARSE_MODE_INCREMENTAL_BUT_CONTINUE := 2;
  BTOR_VERSION := lit "2.0.0";
  atoi := read_digits 0;
  btor_file_exists := fun _ name =>
    bool_decide (name ∈ [lit "f.btor"; lit "0123456789012345678901234567890123456789.gz"]);
  fopen := fun _ _ _ => true;
  popen := fun _ _ _ => true;
|}.

(** A build with Lingeling and with assertions. *)
Definition build : config := mkConfig false false true false false.

End Demo.

(** ** Reasoning about outcomes and loops *)

Lemma bind_Returned {A B : Type} (m : outcome A) (k : A -> outcome B) (b : B) :
  m ≫= k = Returned b -> exists a, m = Returned a /\ k a = Returned b.
Proof. destruct m as [a| |]; simpl; intros E; try discriminate. by exists a. Qed.

Lemma bind_Aborted {A B : Type} (m : outcome A) (k : A -> outcome B) (f : failure) :
  m ≫= k = Aborted f ->
  m = Aborted f \/ exists a, m = Returned a /\ k a = Aborted f.
Proof. destruct m as [a| |]; simpl; intros E; try discriminate.
  - right. by exists a.
  - left. congruence.
Qed.

Lemma int_add_Returned (a b c : Z) :
  int_add a b = Returned c -> c = a + b /\ INT_MIN <= c <= INT_MAX.
Proof.
  unfold int_add. case_bool_decide; intros E; inversion E; subst. done.
Qed.

Lemma int_add_small (a b : Z) :
  INT_MIN <= a + b <= INT_MAX -> int_add a b = Returned (a + b).
Proof. intros Hb. unfold int_add. by rewrite bool_decide_eq_true_2. Qed.

Lemma assert_Returned (ndebug c : bool) (f : failure) (u : unit) :
  assert ndebug c f = Returned u -> ndebug = true \/ c = true.
Proof. unfold assert. destruct ndebug, c; intros E; try discriminate; auto. Qed.

(** Peel the monadic binds of a hypothesis that says a computation returned. *)
Ltac returned H :=
  repeat match type of H with
    | (_ ≫= _) = Returned _ =>
        let a := fresh "a" in
        let Ha := fresh "Ha" in
        apply bind_Returned in H as (a & Ha & H)
    end.

Lemma for_each_app {A S : Type} (body : A -> S -> outcome S) (l1 l2 : list A) (s : S) :
  for_each body (l1 ++ l2) s = for_each body l1 s ≫= for_each body l2.
Proof.
  revert s. induction l1 as [|x l1 IH]; intros s; simpl; [done|].
  destruct (body x s); simpl; auto.
Qed.

(** An invariant that may mention what is left to iterate. *)
Lemma for_each_inv {A S : Type} (P : list A -> S -> Prop)
  (body : A -> S -> outcome S) (l : list A) (s s' : S) :
  P l s ->
  (forall x rest s s', P (x :: rest) s -> body x s = Returned s' -> P rest s') ->
  for_each body l s = Returned s' -> P [] s'.
Proof.
  intros HP Hstep. revert s HP. induction l as [|x l IH]; intros s HP E; simpl in E.
  - by inversion E; subst.
  - returned E. eauto.
Qed.

(** A loop cannot abort with [f] if no iteration can, under an invariant. *)
Lemma for_each_not_aborted {A S : Type} (P : list A -> S -> Prop) (f : failure)
  (body : A -> S -> outcome S) (l : list A) (s : S) :
  P l s ->
  (forall x rest s, P (x :: rest) s ->
     body x s <> Aborted f /\ forall s', body x s = Returned s' -> P rest s') ->
  for_each body l s <> Aborted f.
Proof.
  intros HP Hstep. revert s HP. induction l as [|x l IH]; intros s HP E; simpl in E.
  - discriminate.
  - destruct (Hstep x l s HP) as [Hne Hnext].
    apply bind_Aborted in E as [E | (s1 & E1 & E)]; [done|].
    eapply IH; eauto.
Qed.

(** ** The pass, step by step *)

Section DriverFacts.

Context {node G : Type} `{!EqDecision node} `{!NodeUniverse node G}.

Abbreviation cache := (table (node * node) node).
Abbreviation substs := (table node node).
Abbreviation call := (call node G).
Abbreviation Btor := (Btor node G).
Abbreviation locals := (locals node G).
Abbreviation loop_state := (loop_state node G).
Abbreviation elimination := (elimination node G).

Implicit Types (b : Btor) (st : locals) (s : loop_state) (es : list elimination).

Lemma table_get_None {K V : Type} `{!EqDecision K} (t : table K V) (k : K) :
  btor_hashptr_table_get t k = None <-> k ∉ table_keys t.
Proof.
  unfold table_keys. induction t as [|[k' v] t IH]; simpl.
  - split; [intros _; apply not_elem_of_nil | done].
  - rewrite not_elem_of_cons. destruct (decide (k' = k)) as [->|Hne]; split.
    + discriminate.
    + intros [? _]; done.
    + intros E. split; [congruence | by apply IH].
    + intros [_ ?]. by apply IH.
Qed.

(** What one iteration of the loop over the apply parents does. *)
Lemma visit_apply_parent_Returned ndebug app st st' :
  visit_apply_parent ndebug app st = Returned st' ->
  (parameterized (nodes (l_btor st)) app = true /\ st' = st) \/
  (exists subst c' g',
     parameterized (nodes (l_btor st)) app = false /\
     btor_beta_reduce_full (nodes (l_btor st)) app (l_cache st) = (subst, c', g') /\
     btor_hashptr_table_get (substitutions (l_btor st)) app = None /\
     l_num_applies st + 1 <= INT_MAX /\
     st' = mkLocals
             (mkBtor (btor_node_release (btor_node_copy g' subst) subst)
                (substitutions (l_btor st) ++ [(app, subst)])
                (time_elimapplies (l_btor st)) (ticks (l_btor st))
                (calls (l_btor st) ++
                   elimination_calls
                     (mkElim (nodes (l_btor st)) app (l_cache st) subst c')))
             c' (l_num_applies st + 1)).
Proof.
  unfold visit_apply_parent. intros E.
  destruct (parameterized (nodes (l_btor st)) app) eqn:Hp.
  { left. by inversion E. }
  right. apply bind_Returned in E as (n & Hn & E).
  apply int_add_Returned in Hn as [-> Hb].
  destruct (btor_beta_reduce_full (nodes (l_btor st)) app (l_cache st))
    as [[subst c'] g'] eqn:Hr.
  apply bind_Returned in E as (u & _ & E).
  apply bind_Returned in E as (b1 & Hins & E).
  unfold btor_insert_substitution in Hins. simpl in Hins.
  destruct (btor_hashptr_table_get (substitutions (l_btor st)) app) eqn:Hget;
    [discriminate|].
  inversion Hins; subst b1; clear Hins. inversion E; subst st'; clear E.
  exists subst, c', g'. repeat split; try done; try lia.
  unfold node_release, log, set_nodes, set_substitutions, elimination_calls; simpl.
  by rewrite <- !app_assoc.
Qed.

Lemma final_cache_app (c : cache) es1 es2 :
  final_cache c (es1 ++ es2) = final_cache (final_cache c es1) es2.
Proof. revert c. induction es1 as [|e es1 IH]; intros c; simpl; auto. Qed.

Lemma cache_threaded_app (c : cache) es1 es2 :
  cache_threaded c es1 -> cache_threaded (final_cache c es1) es2 ->
  cache_threaded c (es1 ++ es2).
Proof.
  revert c. induction es1 as [|e es1 IH]; intros c H1 H2; simpl in *; [done|].
  destruct H1 as [-> H1]. split; [done|]. by apply IH.
Qed.

Lemma collects_refl st : collects st [] st.
Proof.
  unfold collects. simpl. rewrite !app_nil_r, Z.add_0_r.
  repeat split; done.
Qed.

Lemma collects_trans st es1 st1 es2 st2 :
  collects st es1 st1 -> collects st1 es2 st2 -> collects st (es1 ++ es2) st2.
Proof.
  intros (Hok1 & Hth1 & Hc1 & Hn1 & Hs1 & Hl1 & Ht1 & Hk1 & He1)
         (Hok2 & Hth2 & Hc2 & Hn2 & Hs2 & Hl2 & Ht2 & Hk2 & He2).
  unfold collects. repeat split.
  - by apply Forall_app.
  - apply cache_threaded_app; [done|]. by rewrite <- Hc1.
  - by rewrite final_cache_app, <- Hc1.
  - rewrite Hn2, Hn1, length_app. lia.
  - unfold recorded in *. by rewrite Hs2, Hs1, fmap_app, app_assoc.
  - by rewrite Hl2, Hl1, bind_app, app_assoc.
  - congruence.
  - congruence.
  - intros [-> ->]%app_eq_nil. by rewrite He2, He1.
Qed.

Lemma visit_apply_parent_collects ndebug app st st' :
  visit_apply_parent ndebug app st = Returned st' ->
  exists es, collects st es st'.
Proof.
  intros [[_ ->] | (subst & c' & g' & Hp & Hr & Hget & Hb & ->)]%visit_apply_parent_Returned.
  - exists []. apply collects_refl.
  - exists [mkElim (nodes (l_btor st)) app (l_cache st) subst c'].
    unfold collects; simpl.
    repeat split; try done.
    apply Forall_singleton. split; [done|]. by exists g'.
Qed.

Lemma for_each_collects {A : Type} (body : A -> locals -> outcome locals) (l : list A) :
  (forall x st st', body x st = Returned st' -> exists es, collects st es st') ->
  forall st st', for_each body l st = Returned st' -> exists es, collects st es st'.
Proof.
  intros Hbody. induction l as [|x l IH]; intros st st' E; simpl in E.
  - inversion E; subst. exists []. apply collects_refl.
  - returned E. apply Hbody in Ha as [es1 H1]. apply IH in E as [es2 H2].
    exists (es1 ++ es2). by eapply collects_trans.
Qed.

Lemma collect_collects ndebug st st' :
  collect ndebug st = Returned st' -> exists es, collects st es st'.
Proof.
  apply for_each_collects. intros fn st1 st2.
  apply for_each_collects. apply visit_apply_parent_collects.
Qed.

(** A stretch of the collection that leaves the counter as it was made no
    call, and every apply parent it met was parameterized. *)
Lemma visit_lambda_quiet ndebug (apps : list node) st st' :
  for_each (visit_apply_parent ndebug) apps st = Returned st' ->
  l_num_applies st' = l_num_applies st ->
  st' = st /\ forall app, app ∈ apps -> parameterized (nodes (l_btor st)) app = true.
Proof.
  revert st. induction apps as [|app apps IH]; intros st E Hnum; simpl in E.
  - inversion E; subst. split; [done|]. intros app []%elem_of_nil.
  - apply bind_Returned in E as (st1 & E1 & E).
    destruct (for_each_collects _ apps (visit_apply_parent_collects ndebug) _ _ E)
      as (es2 & _ & _ & _ & Hn2 & _).
    apply visit_apply_parent_Returned in E1
      as [[Hp ->] | (subst & c' & g' & _ & _ & _ & _ & ->)].
    + destruct (IH _ E Hnum) as [-> Hall]. split; [done|].
      intros a [->|Ha]%elem_of_cons; auto.
    + simpl in Hn2. lia.
Qed.

Lemma collect_quiet ndebug st st' :
  collect ndebug st = Returned st' ->
  l_num_applies st' = l_num_applies st ->
  st' = st /\ no_ground_apply (nodes (l_btor st)).
Proof.
  unfold collect, no_ground_apply.
  generalize (lambdas (nodes (l_btor st))) as fns.
  intros fns. revert st. induction fns as [|fn fns IH]; intros st E Hnum; simpl in E.
  - inversion E; subst. split; [done|]. intros fn app []%elem_of_nil.
  - apply bind_Returned in E as (st1 & E1 & E).
    assert (exists es2, collects st1 es2 st') as (es2 & _ & _ & _ & Hn2 & _).
    { revert E. apply for_each_collects. intros fn' s1 s2.
      apply for_each_collects, visit_apply_parent_collects. }
    assert (exists es1, collects st es1 st1) as (es1 & _ & _ & _ & Hn1 & _).
    { revert E1. apply for_each_collects, visit_apply_parent_collects. }
    apply visit_lambda_quiet in E1 as [-> Hall]; [|lia].
    destruct (IH _ E Hnum) as [-> Hrest]. split; [done|].
    intros f app [->|Hf]%elem_of_cons; eauto.
Qed.

Lemma visit_parameterized ndebug app st :
  parameterized (nodes (l_btor st)) app = true ->
  visit_apply_parent ndebug app st = Returned st.
Proof. intros Hp. unfold visit_apply_parent. by rewrite Hp. Qed.

(** Conversely, on a universe without ground application the collection
    does nothing. *)
Lemma collect_no_ground ndebug st :
  no_ground_apply (nodes (l_btor st)) -> collect ndebug st = Returned st.
Proof.
  unfold collect, no_ground_apply.
  generalize (lambdas (nodes (l_btor st))) as fns.
  induction fns as [|fn fns IH]; intros Hno; simpl; [done|].
  assert (visit_lambda ndebug fn st = Returned st) as ->.
  { unfold visit_lambda.
    assert (forall app, app ∈ apply_parents (nodes (l_btor st)) fn ->
                   parameterized (nodes (l_btor st)) app = true) as Hall.
    { intros app. apply Hno. left. }
    revert Hall. generalize (apply_parents (nodes (l_btor st)) fn) as apps.
    induction apps as [|app apps IHa]; intros Hall; simpl; [done|].
    rewrite visit_parameterized by (apply Hall; left). simpl.
    apply IHa. intros a Ha. apply Hall. by right. }
  simpl. apply IH. intros f app Hf. apply Hno. by right.
Qed.

(** The keys of the round's map stay pairwise distinct. *)
Lemma collect_keys_NoDup ndebug st st' :
  collect ndebug st = Returned st' ->
  NoDup (table_keys (substitutions (l_btor st))) ->
  NoDup (table_keys (substitutions (l_btor st'))).
Proof.
  intros E Hnd. revert E.
  apply (for_each_inv (fun _ st => NoDup (table_keys (substitutions (l_btor st)))));
    [done|].
  clear. intros fn _ st st' Hnd.
  apply (for_each_inv (fun _ st => NoDup (table_keys (substitutions (l_btor st)))));
    [done|].
  clear. intros app _ st st' Hnd
    [[_ ->] | (subst & c' & g' & _ & _ & Hget & _ & ->)]%visit_apply_parent_Returned;
    [done|].
  simpl. unfold table_keys. rewrite fmap_app. simpl.
  apply NoDup_app. split; [done|]. split; [|apply NoDup_singleton].
  intros k Hk ->%list_elem_of_singleton. by apply table_get_None in Hget.
Qed.

(** One round of the loop. *)
Lemma round_body_Returned ndebug s s' :
  round_body ndebug s = Returned s' ->
  exists es st,
    collect ndebug (mkLocals (btor_init_substitutions (s_btor s)) (s_cache s) 0)
      = Returned st /\
    collects (mkLocals (btor_init_substitutions (s_btor s)) (s_cache s) 0) es st /\
    s_num_applies_total s + Z.of_nat (length es) <= INT_MAX /\
    s_round s + 1 <= INT_MAX /\
    s' = mkLoop
           (btor_delete_substitutions
              (substitute_and_rebuild
                 (log (Msg (EliminateRound (Z.of_nat (length es)) (s_round s)))
                    (l_btor st))))
           (l_cache st) (Z.of_nat (length es))
           (s_num_applies_total s + Z.of_nat (length es)) (s_round s + 1).
Proof.
  unfold round_body. intros E.
  apply bind_Returned in E as (st & Hc & E).
  apply bind_Returned in E as (total & Ht & E).
  apply bind_Returned in E as (round & Hr & E).
  apply int_add_Returned in Ht as [-> Hbt], Hr as [-> Hbr].
  destruct (collect_collects _ _ _ Hc) as [es Hes].
  exists es, st. split; [done|]. split; [done|].
  destruct Hes as (_ & _ & _ & Hn & _). simpl in Hn. rewrite Z.add_0_l in Hn.
  rewrite <- Hn. repeat split; try lia. by inversion E.
Qed.

Lemma round_body_facts ndebug s s' :
  round_body ndebug s = Returned s' ->
  exists es,
    Forall elimination_ok es /\
    cache_threaded (s_cache s) es /\
    s_cache s' = final_cache (s_cache s) es /\
    s_num_applies s' = Z.of_nat (length es) /\
    s_num_applies_total s' = s_num_applies_total s + Z.of_nat (length es) /\
    s_round s' = s_round s + 1 /\
    calls (s_btor s') = calls (s_btor s) ++ round_calls (s_round s) es /\
    substitutions (s_btor s') = [] /\
    time_elimapplies (s_btor s') = time_elimapplies (s_btor s) /\
    ticks (s_btor s') = ticks (s_btor s) /\
    NoDup (table_keys (recorded es)).
Proof.
  intros (es & st & Hcol & Hes & _ & _ & ->)%round_body_Returned.
  apply collect_keys_NoDup in Hcol; [|apply NoDup_nil_2].
  destruct Hes as (Hok & Hth & Hc & _ & Hs & Hl & Ht & Hk & _).
  simpl in *. rewrite Hs in Hcol. exists es. repeat split; try done.
  rewrite Hl, Hs. unfold round_calls. simpl.
  by rewrite <- !app_assoc.
Qed.

Lemma rounds_Returned ndebug fuel s s' :
  rounds ndebug fuel s = Returned s' ->
  exists rs,
    Forall (fun es => es <> []) rs /\
    Forall elimination_ok (concat rs) /\
    cache_threaded (s_cache s) (concat rs) /\
    s_cache s' = final_cache (s_cache s) (concat rs) /\
    calls (s_btor s') = calls (s_btor s) ++ loop_calls (s_round s) (rs ++ [[]]) /\
    s_num_applies_total s' = s_num_applies_total s + Z.of_nat (length (concat rs)) /\
    s_round s' = s_round s + Z.of_nat (length rs) + 1 /\
    s_num_applies s' = 0 /\
    substitutions (s_btor s') = [] /\
    time_elimapplies (s_btor s') = time_elimapplies (s_btor s) /\
    ticks (s_btor s') = ticks (s_btor s) /\
    Forall (fun es => NoDup (table_keys (recorded es))) rs.
Proof.
  revert s. induction fuel as [|fuel IH]; intros s E; simpl in E; [discriminate|].
  apply bind_Returned in E as (s1 & E1 & E).
  destruct (round_body_facts _ _ _ E1)
    as (es & Hok & Hth & Hc & Hn & Ht & Hr & Hl & Hs & Hti & Hk & Hnd).
  case_bool_decide as Hpos.
  - apply IH in E
      as (rs & Hne & Hoks & Hths & Hcs & Hls & Hts & Hrs & Hns & Hss & Htis & Hks & Hnds).
    exists (es :: rs). simpl. repeat split; try congruence; [| | | | | | |by constructor].
    + constructor; [|done]. intros ->. simpl in Hn. lia.
    + by apply Forall_app.
    + apply cache_threaded_app; [done|]. by rewrite <- Hc.
    + by rewrite final_cache_app, <- Hc.
    + rewrite Hls, Hl, Hr. by rewrite <- app_assoc.
    + rewrite Hts, Ht, length_app. lia.
    + rewrite Hrs, Hr. lia.
  - inversion E; subst s'; clear E. exists [].
    assert (es = []) as -> by (destruct es; [done | simpl in Hn; lia]).
    simpl in *. repeat split; try done; try lia.
Qed.

(** Only the round loop can run out of fuel, and fuel beyond what a run needs
    changes nothing. *)
Lemma for_each_fueled {A S : Type} (body : A -> S -> outcome S) (l : list A) (acc : S) :
  (forall x (acc : S), body x acc <> OutOfFuel) -> for_each body l acc <> OutOfFuel.
Proof.
  intros Hbody. revert acc. induction l as [|x l IH]; intros acc; simpl; [done|].
  specialize (Hbody x acc). destruct (body x acc); simpl; [apply IH | done | done].
Qed.

Lemma round_body_fueled ndebug s : round_body ndebug s <> OutOfFuel.
Proof.
  unfold round_body.
  assert (collect ndebug (mkLocals (btor_init_substitutions (s_btor s)) (s_cache s) 0)
          <> OutOfFuel) as Hc.
  { apply for_each_fueled. intros fn st. apply for_each_fueled.
    intros app st1. unfold visit_apply_parent.
    destruct (parameterized _ _); [done|].
    unfold int_add. case_bool_decide; [|done]. simpl.
    destruct (btor_beta_reduce_full _ _ _) as [[subst c'] g']. simpl.
    unfold assert, btor_insert_substitution. simpl.
    destruct ndebug; simpl.
    - by destruct (btor_hashptr_table_get _ _).
    - case_bool_decide as Hget; simpl; [|done]. by rewrite Hget. }
  destruct (collect ndebug _); simpl; [|done|done].
  unfold int_add. repeat (case_bool_decide; simpl); done.
Qed.

Lemma rounds_more_fuel ndebug fuel fuel' s :
  rounds ndebug fuel s <> OutOfFuel -> (fuel <= fuel')%nat ->
  rounds ndebug fuel' s = rounds ndebug fuel s.
Proof.
  revert fuel' s. induction fuel as [|fuel IH]; intros fuel' s Hne Hle; [done|].
  destruct fuel' as [|fuel']; [lia|]. simpl in *.
  destruct (round_body ndebug s) as [s1| |]; simpl in *; [|done|done].
  case_bool_decide; [|done]. apply IH; [done|lia].
Qed.

Lemma run_more_fuel ndebug fuel fuel' b :
  btor_eliminate_applies ndebug fuel b <> OutOfFuel -> (fuel <= fuel')%nat ->
  btor_eliminate_applies ndebug fuel' b = btor_eliminate_applies ndebug fuel b.
Proof.
  unfold btor_eliminate_applies. case_bool_decide; [done|].
  unfold time_stamp. cbv beta iota zeta. intros Hne Hle.
  rewrite (rounds_more_fuel ndebug fuel fuel'); [done| |done].
  intros Hout. by rewrite Hout in Hne.
Qed.

(** The teardown of the cache, as a whole. *)
Lemma teardown_cache_eq (c : cache) b :
  teardown_cache c b =
  mkBtor (foldl btor_node_release (nodes b) (table_values c)) (substitutions b)
    (time_elimapplies b) (ticks b) (calls b ++ teardown_calls c).
Proof.
  unfold teardown_cache, teardown_calls, table_values.
  revert b. induction c as [|[k v] c IH]; intros b.
  - by destruct b.
  - simpl. specialize (IH (log (NodePairDelete k) (node_release v b))).
    unfold log at 1 in IH. simpl in IH. unfold log at 1.
    injection IH as -> -> -> -> ->. simpl. by rewrite <- !app_assoc.
Qed.

Lemma early_return ndebug fuel b :
  lambdas (nodes b) = [] -> btor_eliminate_applies ndebug fuel b = Returned b.
Proof. intros Hl. unfold btor_eliminate_applies. by rewrite Hl. Qed.

(** A run that goes through the loop. *)
Lemma run_Returned ndebug fuel b b' :
  btor_eliminate_applies ndebug fuel b = Returned b' ->
  lambdas (nodes b) <> [] ->
  exists rs s,
    rounds ndebug fuel
      (mkLoop (log HashptrTableNew (time_stamp b).2) [] 0 0 1) = Returned s /\
    Forall (fun es => es <> []) rs /\
    Forall elimination_ok (concat rs) /\
    cache_threaded [] (concat rs) /\
    s_cache s = final_cache [] (concat rs) /\
    check_no_ground_apply ndebug (s_btor s) = Returned tt /\
    nodes b' = foldl btor_node_release (nodes (s_btor s)) (table_values (s_cache s)) /\
    substitutions b' = [] /\
    time_elimapplies b' = time_elimapplies b + (t_stop b - t_start b) /\
    ticks b' = S (S (ticks b)) /\
    calls b' =
      calls b ++ [UtilTimeStamp (t_start b); HashptrTableNew] ++
      loop_calls 1 (rs ++ [[]]) ++
      teardown_calls (final_cache [] (concat rs)) ++
      [UtilTimeStamp (t_stop b);
       Msg (EliminatedTotal (Z.of_nat (length (concat rs))) (t_stop b - t_start b))] /\
    Forall (fun es => NoDup (table_keys (recorded es))) rs /\
    (ndebug = true \/ btor_dbg_check (nodes b') = true).
Proof.
  unfold btor_eliminate_applies. intros E Hne.
  rewrite bool_decide_eq_false_2 in E by (by destruct (lambdas (nodes b))).
  unfold time_stamp in E. cbv beta iota zeta in E.
  apply bind_Returned in E as (s & Hs & E).
  apply bind_Returned in E as ([] & Hchk & E).
  rewrite teardown_cache_eq in E. cbv beta iota zeta in E.
  apply bind_Returned in E as (u & Hdbg & E).
  apply assert_Returned in Hdbg. simpl in Hdbg.
  destruct (rounds_Returned _ _ _ _ Hs)
    as (rs & Hnes & Hoks & Hths & Hcs & Hls & Hts & Hrs & Hns & Hss & Htis & Hks & Hnds).
  simpl in *. exists rs, s. inversion E; subst b'; clear E. simpl.
  rewrite Htis, Hks, Hls, Hts, Hss, <- Hcs. unfold t_stop, t_start.
  repeat split; try done.
  by rewrite <- !app_assoc.
Qed.

Lemma check_no_ground_apply_passes ndebug b :
  no_ground_apply (nodes b) -> check_no_ground_apply ndebug b = Returned tt.
Proof.
  unfold check_no_ground_apply, no_ground_apply.
  generalize (lambdas (nodes b)) as fns.
  induction fns as [|fn fns IH]; intros Hno; simpl; [done|].
  assert (forall apps : list node,
            (forall app, app ∈ apps -> parameterized (nodes b) app = true) ->
            for_each (fun app (_ : unit) =>
                        assert ndebug (parameterized (nodes b) app) GroundApplySurvives)
              apps tt = Returned tt) as Hin.
  { induction apps as [|app apps IHa]; intros Hall; simpl; [done|].
    rewrite (Hall app) by left. unfold assert at 1.
    destruct ndebug; simpl; apply IHa; intros a Ha; apply Hall; by right. }
  rewrite Hin by (intros app; apply Hno; left). simpl.
  apply IH. intros f app Hf. apply Hno. by right.
Qed.

Lemma foldl_release_no_ground (ns : list node) (g : G) :
  (forall g n, no_ground_apply g -> no_ground_apply (btor_node_release g n)) ->
  no_ground_apply g -> no_ground_apply (foldl btor_node_release g ns).
Proof.
  intros Hrel. revert g. induction ns as [|n ns IH]; intros g Hg; simpl; auto.
Qed.

(** ** The properties of the specification *)

(** C4. On a graph whose lambda registry is empty the pass returns at once,
    whatever the fuel: it performs no round (no round is recorded among the
    calls, for no call is made) and the node universe, hence the set of nodes
    the formula reaches, is the one it was given. *)
Theorem empty_registry_zero_rounds ndebug fuel b :
  lambdas (nodes b) = [] ->
  exists b' new,
    btor_eliminate_applies ndebug fuel b = Returned b' /\
    nodes b' = nodes b /\
    calls b' = calls b ++ new /\ round_records new = [].
Proof.
  intros Hl. exists b, []. split; [by apply early_return|].
  by rewrite app_nil_r.
Qed.

(** C10. On the early-return path of the empty registry no pair cache is
    allocated, no diagnostic is emitted (the log of calls does not grow), the
    cumulative time [btor->time.elimapplies] keeps its value and the clock is
    not read: the state returned is the state received. *)
Theorem empty_registry_frame ndebug fuel b :
  lambdas (nodes b) = [] ->
  exists b',
    btor_eliminate_applies ndebug fuel b = Returned b' /\
    caches_created (calls b') = caches_created (calls b) /\
    round_records (calls b') = round_records (calls b) /\
    calls b' = calls b /\
    time_elimapplies b' = time_elimapplies b /\
    ticks b' = ticks b /\
    b' = b.
Proof. intros Hl. exists b. split; [by apply early_return|]. done. Qed.

Section Converged.

(** The rebuild pass leaves the universe alone when the map is empty. *)
Hypothesis rebuild_empty : forall g : G, btor_substitute_and_rebuild g [] = g.

(** Releasing a reference may reclaim nodes; it adds no lambda to the
    registry and no apply parent to a lambda, and it changes no flag. *)
Hypothesis release_shrinks : forall (g : G) (n fn app : node),
  fn ∈ lambdas (btor_node_release g n) ->
  app ∈ apply_parents (btor_node_release g n) fn ->
  fn ∈ lambdas g /\ app ∈ apply_parents g fn /\
  parameterized (btor_node_release g n) app = parameterized g app.

Lemma release_no_ground (g : G) (n : node) :
  no_ground_apply g -> no_ground_apply (btor_node_release g n).
Proof.
  intros Hg fn app Hf Ha.
  destruct (release_shrinks g n fn app Hf Ha) as (Hf' & Ha' & ->). by apply (Hg fn).
Qed.

(** The loop ends on a universe without ground application, and its last
    round leaves the universe as it found it. *)
Lemma rounds_no_ground ndebug fuel s s' :
  rounds ndebug fuel s = Returned s' -> no_ground_apply (nodes (s_btor s')).
Proof.
  revert s. induction fuel as [|fuel IH]; intros s E; simpl in E; [discriminate|].
  apply bind_Returned in E as (s1 & E1 & E).
  case_bool_decide as Hpos; [by eapply IH|].
  inversion E; subst s'; clear E.
  apply round_body_Returned in E1 as (es & st & Hc & Hes & _ & _ & ->).
  simpl in Hpos. assert (es = []) as -> by (destruct es; [done | simpl in Hpos; lia]).
  destruct Hes as (_ & _ & _ & Hn & _ & _ & _ & _ & Hst).
  rewrite (Hst eq_refl) in Hc |- *.
  apply collect_quiet in Hc as [_ Hno]; [|done].
  simpl in *. by rewrite rebuild_empty.
Qed.

Lemma run_no_ground ndebug fuel b b' :
  btor_eliminate_applies ndebug fuel b = Returned b' -> no_ground_apply (nodes b').
Proof.
  intros E. destruct (lambdas (nodes b)) as [|fn fns] eqn:Hl.
  - rewrite early_return in E by done. inversion E; subst b'.
    intros fn app Hf. rewrite Hl in Hf. by apply elem_of_nil in Hf.
  - apply run_Returned in E as (rs & s & Hs & _ & _ & _ & _ & _ & -> & _);
      [|by rewrite Hl].
    apply foldl_release_no_ground; [apply release_no_ground|].
    by eapply rounds_no_ground.
Qed.

(** C1. After the pass returns, every apply parent of every lambda of the
    registry has its parameterized flag set: no ground application of a
    registered lambda remains.  It holds in release builds too, where the
    check of lines 81-94 is compiled out. *)
Theorem no_ground_apply_after_return ndebug fuel b b' :
  btor_eliminate_applies ndebug fuel b = Returned b' ->
  forall fn app,
    fn ∈ lambdas (nodes b') -> app ∈ apply_parents (nodes b') fn ->
    parameterized (nodes b') app = true.
Proof. intros E. by apply (run_no_ground ndebug fuel b b'). Qed.

(** A round on a universe without ground application. *)
Lemma quiet_round ndebug s :
  no_ground_apply (nodes (s_btor s)) ->
  INT_MIN <= s_num_applies_total s <= INT_MAX ->
  INT_MIN <= s_round s + 1 <= INT_MAX ->
  round_body ndebug s =
  Returned (mkLoop
              (mkBtor (nodes (s_btor s)) [] (time_elimapplies (s_btor s))
                 (ticks (s_btor s)) (calls (s_btor s) ++ round_calls (s_round s) []))
              (s_cache s) 0 (s_num_applies_total s) (s_round s + 1)).
Proof.
  intros Hno Ht Hr. unfold round_body.
  rewrite collect_no_ground by done. simpl.
  rewrite int_add_small by lia. simpl.
  rewrite int_add_small by lia. simpl.
  unfold btor_delete_substitutions, substitute_and_rebuild, log, set_nodes,
    set_substitutions. simpl.
  rewrite rebuild_empty, Z.add_0_r. by rewrite <- !app_assoc.
Qed.

(** The whole pass on such a universe, when its registry is not empty. *)
Lemma run_converged ndebug fuel b :
  lambdas (nodes b) <> [] ->
  no_ground_apply (nodes b) ->
  ndebug = true \/ btor_dbg_check (nodes b) = true ->
  btor_eliminate_applies ndebug (S fuel) b =
  Returned (mkBtor (nodes b) [] (time_elimapplies b + (t_stop b - t_start b))
              (S (S (ticks b)))
              (calls b ++
               [UtilTimeStamp (t_start b); HashptrTableNew; InitSubstitutions;
                Msg (EliminateRound 0 1); SubstituteAndRebuild [];
                DeleteSubstitutions []; HashptrTableDelete;
                UtilTimeStamp (t_stop b);
                Msg (EliminatedTotal 0 (t_stop b - t_start b))])).
Proof.
  intros Hne Hno Hdbg. unfold btor_eliminate_applies.
  rewrite bool_decide_eq_false_2 by (by destruct (lambdas (nodes b))).
  unfold time_stamp. cbv beta iota zeta.
  unfold rounds. rewrite quiet_round; [| done | done | done].
  simpl. rewrite check_no_ground_apply_passes by done. simpl.
  unfold assert, t_stop, t_start, log, set_time_elimapplies, round_calls.
  destruct Hdbg as [-> | ->].
  - simpl. by rewrite <- !app_assoc.
  - destruct ndebug; simpl; by rewrite <- !app_assoc.
Qed.

(** C5, as amended.  Re-running the pass on a universe it returned performs
    no substitution and leaves the universe unchanged: when the registry of
    that universe is not empty the re-run makes one round, which records zero
    substitutions, and stops; when the registry is empty the re-run returns
    at once and there is no round at all. *)
Theorem rerun_on_converged ndebug fuel fuel' b b1 :
  btor_eliminate_applies ndebug fuel b = Returned b1 ->
  exists b2 new,
    btor_eliminate_applies ndebug (S fuel') b1 = Returned b2 /\
    nodes b2 = nodes b1 /\
    calls b2 = calls b1 ++ new /\
    reduced_apps new = [] /\
    round_records new =
      if decide (lambdas (nodes b1) = []) then [] else [(0, 1)].
Proof.
  intros E. pose proof (run_no_ground _ _ _ _ E) as Hno.
  destruct (decide (lambdas (nodes b1) = [])) as [Hl|Hl].
  - exists b1, []. rewrite early_return by done. by rewrite app_nil_r.
  - assert (ndebug = true \/ btor_dbg_check (nodes b1) = true) as Hdbg.
    { destruct (decide (lambdas (nodes b) = [])) as [Hb|Hb].
      - rewrite early_return in E by done. congruence.
      - by apply run_Returned in E
          as (rs & s & _ & _ & _ & _ & _ & _ & _ & _ & _ & _ & _ & _ & ?). }
    eexists _, _. rewrite run_converged by done. simpl. done.
Qed.

End Converged.

(** What the observations see of the calls of the eliminations. *)
Lemma rebuild_maps_eliminations es :
  rebuild_maps (es ≫= elimination_calls) = [].
Proof.
  unfold rebuild_maps. induction es as [|e es IH]; [done|].
  change ((e :: es) ≫= elimination_calls)
    with (elimination_calls e ++ (es ≫= elimination_calls)).
  by rewrite bind_app, IH.
Qed.

Lemma round_records_eliminations es :
  round_records (es ≫= elimination_calls) = [].
Proof.
  unfold round_records. induction es as [|e es IH]; [done|].
  change ((e :: es) ≫= elimination_calls)
    with (elimination_calls e ++ (es ≫= elimination_calls)).
  by rewrite bind_app, IH.
Qed.

Lemma reductions_eliminations es :
  reductions (es ≫= elimination_calls) = es.
Proof.
  unfold reductions. induction es as [|e es IH]; [done|].
  change ((e :: es) ≫= elimination_calls)
    with (elimination_calls e ++ (es ≫= elimination_calls)).
  rewrite bind_app, IH. by destruct e.
Qed.

Lemma insertions_eliminations es :
  insertions (es ≫= elimination_calls) = recorded es.
Proof.
  unfold insertions. induction es as [|e es IH]; [done|].
  change ((e :: es) ≫= elimination_calls)
    with (elimination_calls e ++ (es ≫= elimination_calls)).
  by rewrite bind_app, IH.
Qed.

Lemma rebuild_maps_loop (r : Z) (rs : list (list elimination)) :
  rebuild_maps (loop_calls r rs) = recorded <$> rs.
Proof.
  revert r. induction rs as [|es rs IH]; intros r; [done|].
  simpl. unfold rebuild_maps in *. rewrite bind_app, IH. f_equal.
  unfold round_calls.
  change (InitSubstitutions :: ?l) with ([InitSubstitutions] ++ l).
  rewrite !bind_app. fold (rebuild_maps (es ≫= elimination_calls)).
  by rewrite rebuild_maps_eliminations.
Qed.

Lemma reductions_loop (r : Z) (rs : list (list elimination)) :
  reductions (loop_calls r rs) = concat rs.
Proof.
  revert r. induction rs as [|es rs IH]; intros r; [done|].
  simpl. unfold reductions in *. rewrite bind_app, IH. f_equal.
  unfold round_calls.
  change (InitSubstitutions :: ?l) with ([InitSubstitutions] ++ l).
  rewrite !bind_app. fold (reductions (es ≫= elimination_calls)).
  rewrite reductions_eliminations. simpl. by rewrite app_nil_r.
Qed.

Lemma insertions_loop (r : Z) (rs : list (list elimination)) :
  insertions (loop_calls r rs) = recorded (concat rs).
Proof.
  revert r. induction rs as [|es rs IH]; intros r; [done|].
  simpl. unfold insertions in *. rewrite bind_app, IH.
  unfold recorded. rewrite fmap_app. f_equal.
  unfold round_calls.
  change (InitSubstitutions :: ?l) with ([InitSubstitutions] ++ l).
  rewrite !bind_app. fold (insertions (es ≫= elimination_calls)).
  rewrite insertions_eliminations. simpl. by rewrite app_nil_r.
Qed.

Lemma round_records_loop (r : Z) (rs : list (list elimination)) :
  round_records (loop_calls r rs) =
  imap (fun i es => (Z.of_nat (length es), r + Z.of_nat i)) rs.
Proof.
  revert r. induction rs as [|es rs IH]; intros r; [done|].
  change (loop_calls r (es :: rs)) with (round_calls r es ++ loop_calls (r + 1) rs).
  unfold round_records in *. rewrite bind_app, IH, imap_cons.
  unfold round_calls.
  change (InitSubstitutions :: ?l) with ([InitSubstitutions] ++ l).
  rewrite !bind_app. fold (round_records (es ≫= elimination_calls)).
  rewrite round_records_eliminations. simpl. rewrite Z.add_0_r. f_equal.
  apply imap_ext. intros i es' _. simpl. f_equal. lia.
Qed.

Lemma teardown_calls_cons (k : node * node) (v : node) (c : cache) :
  teardown_calls (G:=G) ((k, v) :: c) =
  [NodeRelease v; NodePairDelete k] ++ teardown_calls c.
Proof. done. Qed.

Lemma observations_teardown (c : cache) :
  rebuild_maps (teardown_calls (G:=G) c) = [] /\
  round_records (teardown_calls (G:=G) c) = [] /\
  reductions (teardown_calls (G:=G) c) = [] /\
  insertions (teardown_calls (G:=G) c) = [] /\
  caches_created (teardown_calls (G:=G) c) = 0%nat.
Proof.
  induction c as [|[k v] c (IH1 & IH2 & IH3 & IH4 & IH5)]; [done|].
  rewrite teardown_calls_cons.
  unfold rebuild_maps, round_records, reductions, insertions, caches_created in *.
  rewrite !bind_app, IH1, IH2, IH3, IH4. rewrite length_app, IH5. done.
Qed.

Lemma substitutions_recorded_app (l1 l2 : list call) :
  substitutions_recorded (l1 ++ l2) =
  substitutions_recorded l1 + substitutions_recorded l2.
Proof.
  unfold substitutions_recorded, round_records. rewrite bind_app.
  induction (l1 ≫= _) as [|x l IH]; simpl; lia.
Qed.

Lemma substitutions_recorded_loop (r : Z) (rs : list (list elimination)) :
  substitutions_recorded (loop_calls r rs) = Z.of_nat (length (concat rs)).
Proof.
  revert r. induction rs as [|es rs IH]; intros r; [done|].
  change (loop_calls r (es :: rs)) with (round_calls r es ++ loop_calls (r + 1) rs).
  change (concat (es :: rs)) with (es ++ concat rs).
  rewrite substitutions_recorded_app, IH, length_app.
  unfold round_calls.
  change (InitSubstitutions :: ?l) with ([InitSubstitutions] ++ l).
  rewrite !substitutions_recorded_app.
  unfold substitutions_recorded at 2. rewrite round_records_eliminations.
  unfold substitutions_recorded. simpl. lia.
Qed.

(** What a returned run shows of its eliminations. *)
Lemma run_eliminations ndebug fuel b b' :
  btor_eliminate_applies ndebug fuel b = Returned b' ->
  exists new,
    calls b' = calls b ++ new /\
    Forall elimination_ok (reductions new) /\
    cache_threaded [] (reductions new) /\
    insertions new = recorded (reductions new) /\
    substitutions_recorded new = Z.of_nat (length (reductions new)) /\
    (new = [] \/
     exists rest,
       new = UtilTimeStamp (t_start b) :: HashptrTableNew :: rest /\
       caches_created rest = 0%nat).
Proof.
  intros E. destruct (decide (lambdas (nodes b) = [])) as [Hl|Hl].
  { rewrite early_return in E by done. inversion E; subst b'.
    exists []. rewrite app_nil_r. repeat split; try done. by left. }
  apply run_Returned in E
    as (rs & s & _ & _ & Hoks & Hth & _ & _ & _ & _ & _ & _ & Hcalls & _); [|done].
  eexists. split; [exact Hcalls|].
  destruct (observations_teardown (final_cache [] (concat rs)))
    as (_ & H2 & H3 & H4 & H5).
  assert (reductions
            ([UtilTimeStamp (t_start b); HashptrTableNew] ++
             loop_calls 1 (rs ++ [[]]) ++
             teardown_calls (final_cache [] (concat rs)) ++
             [UtilTimeStamp (t_stop b);
              Msg (EliminatedTotal (Z.of_nat (length (concat rs)))
                     (t_stop b - t_start b))]) = concat rs) as ->.
  { unfold reductions. rewrite !bind_app.
    fold (reductions (loop_calls 1 (rs ++ [[]]))).
    fold (reductions (teardown_calls (G:=G) (final_cache [] (concat rs)))).
    rewrite reductions_loop, H3, concat_app. simpl. by rewrite !app_nil_r. }
  split; [done|]. split; [done|]. split; [|split].
  - unfold insertions. rewrite !bind_app.
    fold (insertions (loop_calls 1 (rs ++ [[]]))).
    fold (insertions (teardown_calls (G:=G) (final_cache [] (concat rs)))).
    rewrite insertions_loop, H4, concat_app. simpl. by rewrite !app_nil_r.
  - rewrite !substitutions_recorded_app, substitutions_recorded_loop.
    unfold substitutions_recorded at 2. rewrite H2.
    unfold substitutions_recorded. simpl. rewrite concat_app, length_app. simpl. lia.
  - right. eexists. split; [reflexivity|].
    unfold caches_created in *. rewrite !bind_app, !length_app, H5.
    assert (forall r l, length (loop_calls (G:=G) r l ≫= fun ev =>
               match ev with HashptrTableNew => [()] | _ => [] end) = 0%nat) as ->.
    { intros r l. revert r. induction l as [|es l IH]; intros r; [done|].
      simpl. rewrite bind_app, length_app, IH. unfold round_calls.
      change (InitSubstitutions :: ?k) with ([InitSubstitutions] ++ k).
      rewrite !bind_app, !length_app. simpl.
      induction es as [|e es IHe]; [done|].
      change ((e :: es) ≫= elimination_calls)
        with (elimination_calls e ++ (es ≫= elimination_calls)).
      rewrite bind_app, length_app. simpl. lia. }
    done.
Qed.

(** C9.  A parameterized apply parent is skipped: visiting it changes
    nothing and calls nothing.  So in a run that returns, every application
    handed to the reducer had its parameterized flag clear when it was handed
    over, and the pairings inserted into the substitution maps are those of
    the applications that were reduced, each with the replacement the
    reducer returned for it. *)
Theorem parameterized_parents_skipped ndebug :
  (forall app st,
     parameterized (nodes (l_btor st)) app = true ->
     visit_apply_parent ndebug app st = Returned st) /\
  (forall fuel b b',
     btor_eliminate_applies ndebug fuel b = Returned b' ->
     exists new,
       calls b' = calls b ++ new /\
       Forall (fun e => parameterized (e_graph e) (e_app e) = false)
         (reductions new) /\
       insertions new = recorded (reductions new)).
Proof.
  split; [apply visit_parameterized|].
  intros fuel b b' (new & Hc & Hok & _ & Hins & _)%run_eliminations.
  exists new. split; [done|]. split; [|done].
  eapply Forall_impl; [exact Hok|]. by intros e [? _].
Qed.

(** What the table finds in a table that was added to. *)
Lemma table_get_app {K V : Type} `{!EqDecision K} (t1 t2 : table K V) (k : K) :
  btor_hashptr_table_get (t1 ++ t2) k =
  match btor_hashptr_table_get t1 k with
  | Some v => Some v
  | None => btor_hashptr_table_get t2 k
  end.
Proof.
  induction t1 as [|[k' v] t1 IH]; simpl; [done|]. by destruct (decide (k' = k)).
Qed.

Lemma table_within_app {K V : Type} `{!EqDecision K} (t new : table K V) :
  table_within t (t ++ new).
Proof. intros k v Hget. by rewrite table_get_app, Hget. Qed.

Lemma table_within_trans {K V : Type} `{!EqDecision K} (t1 t2 t3 : table K V) :
  table_within t1 t2 -> table_within t2 t3 -> table_within t1 t3.
Proof. intros H1 H2 k v Hget. by apply H2, H1. Qed.

Section CacheReuse.

(** The contract of the reducer towards the pair cache (4.3, 4.6).  It adds
    entries to the cache and removes and overwrites none.  And a reduction
    whose result the cache holds is served from the cache: called on an
    application with a cache in which everything is found that was to be
    found after an earlier call on that application, the reducer returns the
    node it returned then and leaves the cache as it is. *)
Hypothesis reduce_populates : forall (g : G) (app : node) (c : cache),
  exists new, (btor_beta_reduce_full g app c).1.2 = c ++ new.
Hypothesis reduce_serves : forall (g g' : G) (app : node) (c c' : cache),
  table_within (btor_beta_reduce_full g app c).1.2 c' ->
  (btor_beta_reduce_full g' app c').1 = ((btor_beta_reduce_full g app c).1.1, c').

(** What the cache holds when the first of the calls [es] is made, every
    later call finds. *)
Lemma threaded_within (c : cache) es (j : nat) (e : elimination) :
  cache_threaded c es -> Forall elimination_ok es -> es !! j = Some e ->
  table_within c (e_cache e).
Proof.
  revert c j. induction es as [|e0 es IH]; intros c j Hth Hok Hj; [done|].
  destruct Hth as [Hc Hth]. inversion_clear Hok as [|? ? [_ [g' Hr]] Hok'].
  destruct j as [|j]; simpl in Hj.
  { inversion Hj; subst e0. rewrite Hc. by intros k v. }
  eapply table_within_trans; [|by eapply IH].
  destruct (reduce_populates (e_graph e0) (e_app e0) (e_cache e0)) as [new Hnew].
  rewrite Hr in Hnew. simpl in Hnew. rewrite Hnew, Hc. apply table_within_app.
Qed.

Lemma served_later (c : cache) es (i j : nat) (e1 e2 : elimination) :
  cache_threaded c es -> Forall elimination_ok es ->
  (i < j)%nat -> es !! i = Some e1 -> es !! j = Some e2 ->
  table_within (e_cache' e1) (e_cache e2) /\
  (e_app e2 = e_app e1 -> e_subst e2 = e_subst e1 /\ e_cache' e2 = e_cache e2).
Proof.
  revert c i j. induction es as [|e0 es IH]; intros c i j Hth Hok Hij Hi Hj; [done|].
  destruct Hth as [Hc Hth]. inversion Hok as [|? ? [_ [g1 Hr1]] Hok']; subst.
  destruct j as [|j]; [lia|]. simpl in Hj.
  destruct i as [|i]; simpl in Hi.
  - inversion Hi; subst e0. clear Hi.
    pose proof (threaded_within _ _ _ _ Hth Hok' Hj) as Hin.
    split; [done|]. intros Happ.
    assert (elimination_ok e2) as [_ [g2 Hr2]].
    { eapply Forall_forall; [exact Hok'|]. by eapply list_elem_of_lookup_2. }
    pose proof (reduce_serves (e_graph e1) (e_graph e2) (e_app e1)
                  (e_cache e1) (e_cache e2)) as Hs.
    rewrite Hr1 in Hs. simpl in Hs. specialize (Hs Hin).
    rewrite <- Happ, Hr2 in Hs. simpl in Hs. by inversion Hs.
  - eapply (IH _ i j); eauto. lia.
Qed.

(** The applications the loop over the apply parents of a lambda hands to the
    reducer are among those parents. *)
Lemma visit_parents_collects ndebug (apps : list node) st st' :
  for_each (visit_apply_parent ndebug) apps st = Returned st' ->
  exists es, collects st es st'  /\ Forall (fun e => e_app e ∈ apps) es.
Proof.
  revert st. induction apps as [|app apps IH]; intros st E; simpl in E.
  { inversion E; subst. exists []. split; [apply collects_refl|done]. }
  apply bind_Returned in E as (st1 & E1 & E).
  destruct (IH _ E) as (es2 & H2 & Hin2).
  assert (Forall (fun e => e_app e ∈ app :: apps) es2) as Hin2'.
  { eapply Forall_impl; [exact Hin2|]. intros e He. by right. }
  destruct (visit_apply_parent_collects _ _ _ _ E1) as [es1 H1].
  exists (es1 ++ es2). split; [by eapply collects_trans|].
  apply Forall_app. split; [|done].
  apply visit_apply_parent_Returned in E1
    as [[_ ->] | (subst & c' & g' & _ & _ & _ & _ & ->)].
  - destruct H1 as (_ & _ & _ & Hn & _).
    destruct es1; [done | simpl in Hn; lia].
  - destruct H1 as (_ & _ & _ & Hn & _ & Hcalls & _). simpl in Hn, Hcalls.
    apply app_inv_head in Hcalls.
    destruct es1 as [|e1 [|e2 es1]]; simpl in Hn; try lia.
    unfold elimination_calls in Hcalls. simpl in Hcalls.
    inversion Hcalls. apply Forall_singleton. left.
Qed.


End CacheReuse.

Lemma occurrences_app {A : Type} `{!EqDecision A} (x : A) (l1 l2 : list A) :
  occurrences x (l1 ++ l2) = occurrences x l1 + occurrences x l2.
Proof. unfold occurrences. rewrite filter_app, length_app. lia. Qed.

Lemma occurrences_perm {A : Type} `{!EqDecision A} (x : A) (l1 l2 : list A) :
  l1 ≡ₚ l2 -> occurrences x l1 = occurrences x l2.
Proof. intros Hp. unfold occurrences. by rewrite Hp. Qed.

Section References.

(** [refs g n]: the live reference count of the node [n] in the universe
    [g] (3), as far as it is due to owners outside the formula. *)
Variable refs : G -> node -> Z.

(** The reducer consults the cache and adds entries to it; it removes and
    overwrites none. *)
Hypothesis reduce_populates : forall (g : G) (app : node) (c : cache),
  exists new, (btor_beta_reduce_full g app c).1.2 = c ++ new.

(** The reducer returns a node with one reference that the caller owns, and
    each entry it adds to the cache holds one reference to its value (4.3,
    4.6). *)
Hypothesis reduce_acquires : forall (g : G) (app : node) (c : cache) (n : node),
  refs (btor_beta_reduce_full g app c).2 n =
  refs g n
  + occurrences n
      ((btor_beta_reduce_full g app c).1.1 ::
       table_values (drop (length c) (btor_beta_reduce_full g app c).1.2)).

(** Acquiring and releasing a reference (6). *)
Hypothesis copy_acquires : forall (g : G) (m n : node),
  refs (btor_node_copy g m) n = refs g n + occurrences n [m].
Hypothesis release_releases : forall (g : G) (m n : node),
  refs (btor_node_release g m) n = refs g n - occurrences n [m].

(** The rebuild pass keeps the reference counts right: it leaves no
    reference of its own behind (4.5). *)
Hypothesis rebuild_transfers : forall (g : G) (m : substs) (n : node),
  refs (btor_substitute_and_rebuild g m) n = refs g n.

Lemma accounted_refl b : accounted refs b b.
Proof.
  exists []. split; [by rewrite app_nil_r|]. intros n. unfold occurrences. simpl. lia.
Qed.

Lemma accounted_step b0 b b1 (evs : list call) :
  accounted refs b0 b ->
  calls b1 = calls b ++ evs ->
  (forall n, refs (nodes b1) n =
             refs (nodes b) n
             + occurrences n (evs ≫= acquired) - occurrences n (evs ≫= released)) ->
  accounted refs b0 b1.
Proof.
  intros (new & Hc & Hn) Hc1 Hn1. exists (new ++ evs).
  split; [by rewrite Hc1, Hc, app_assoc|].
  intros n. rewrite Hn1, Hn, !bind_app, !occurrences_app. lia.
Qed.

Lemma foldl_release_refs (l : list node) (g : G) (n : node) :
  refs (foldl btor_node_release g l) n = refs g n - occurrences n l.
Proof.
  revert g. induction l as [|m l IH]; intros g; simpl.
  - unfold occurrences. simpl. lia.
  - rewrite IH, release_releases.
    change (m :: l) with ([m] ++ l). rewrite occurrences_app. lia.
Qed.

Lemma visit_apply_parent_accounted ndebug b0 app st st' :
  accounted refs b0 (l_btor st) ->
  visit_apply_parent ndebug app st = Returned st' ->
  accounted refs b0 (l_btor st').
Proof.
  intros Hacc
    [[_ ->] | (subst & c' & g' & _ & Hr & _ & _ & ->)]%visit_apply_parent_Returned;
    [done|].
  eapply accounted_step; [exact Hacc|done|]. intros n. simpl.
  rewrite release_releases, copy_acquires.
  pose proof (reduce_acquires (nodes (l_btor st)) app (l_cache st) n) as Hacq.
  rewrite Hr in Hacq. simpl in Hacq. rewrite Hacq.
  change (subst :: table_values (drop (length (l_cache st)) c') ++ [subst])
    with ((subst :: table_values (drop (length (l_cache st)) c')) ++ [subst]).
  rewrite occurrences_app. lia.
Qed.

Lemma collect_accounted ndebug b0 st st' :
  accounted refs b0 (l_btor st) ->
  collect ndebug st = Returned st' ->
  accounted refs b0 (l_btor st').
Proof.
  intros Hacc.
  apply (for_each_inv (fun _ st => accounted refs b0 (l_btor st))); [done|].
  intros fn _ st1 st2 Hacc1.
  apply (for_each_inv (fun _ st => accounted refs b0 (l_btor st))); [done|].
  intros app _ st3 st4 Hacc3. by apply visit_apply_parent_accounted.
Qed.

Lemma round_body_accounted ndebug b0 s s' :
  accounted refs b0 (s_btor s) ->
  round_body ndebug s = Returned s' ->
  accounted refs b0 (s_btor s').
Proof.
  intros Hacc (es & st & Hcol & _ & _ & _ & ->)%round_body_Returned.
  apply collect_accounted with (b0 := b0) in Hcol; simpl.
  - eapply accounted_step; [exact Hcol| |].
    + unfold btor_delete_substitutions, substitute_and_rebuild, log. simpl.
      rewrite <- !app_assoc. reflexivity.
    + intros n. simpl. rewrite foldl_release_refs, rebuild_transfers.
      rewrite app_nil_r. unfold occurrences at 2. simpl. lia.
  - simpl. eapply accounted_step; [exact Hacc|reflexivity|].
    intros n. simpl. unfold occurrences. simpl. lia.
Qed.

Lemma rounds_accounted ndebug fuel b0 s s' :
  accounted refs b0 (s_btor s) ->
  rounds ndebug fuel s = Returned s' ->
  accounted refs b0 (s_btor s').
Proof.
  revert s. induction fuel as [|fuel IH]; intros s Hacc E; simpl in E; [discriminate|].
  apply bind_Returned in E as (s1 & E1 & E).
  apply (round_body_accounted _ b0) in E1; [|done].
  case_bool_decide; [by eapply IH|]. by inversion E; subst.
Qed.

Lemma teardown_calls_released (c : cache) :
  teardown_calls (G:=G) c ≫= acquired = [] /\
  teardown_calls (G:=G) c ≫= released = table_values c.
Proof.
  induction c as [|[k v] c [IH1 IH2]]; [done|].
  rewrite teardown_calls_cons, !bind_app, IH1, IH2. done.
Qed.

(** The reference counts after a run, from those before it and its log. *)
Lemma run_accounted ndebug fuel b b' :
  btor_eliminate_applies ndebug fuel b = Returned b' -> accounted refs b b'.
Proof.
  unfold btor_eliminate_applies. case_bool_decide.
  { intros E. inversion E; subst. apply accounted_refl. }
  unfold time_stamp. cbv beta iota zeta. intros E.
  apply bind_Returned in E as (s & Hs & E).
  apply bind_Returned in E as ([] & Hchk & E).
  rewrite teardown_cache_eq in E. cbv beta iota zeta in E.
  apply bind_Returned in E as (u & Hdbg & E). inversion E; subst b'; clear E.
  apply (rounds_accounted _ _ b) in Hs.
  - eapply accounted_step; [exact Hs| |].
    + simpl. rewrite <- !app_assoc. reflexivity.
    + intros n. simpl. rewrite foldl_release_refs, !bind_app.
      destruct (teardown_calls_released (s_cache s)) as [-> ->]. simpl.
      rewrite app_nil_r. unfold occurrences at 2. simpl. lia.
  - simpl. eapply accounted_step; [apply accounted_refl| |].
    + simpl. rewrite <- app_assoc. reflexivity.
    + intros n. simpl. unfold occurrences. simpl. lia.
Qed.

Lemma elimination_populates (e : elimination) :
  elimination_ok e -> exists new, e_cache' e = e_cache e ++ new.
Proof.
  intros [_ [g' Hr]].
  destruct (reduce_populates (e_graph e) (e_app e) (e_cache e)) as [new Hnew].
  rewrite Hr in Hnew. by exists new.
Qed.

Lemma settles_nil (h : list node) : settles h ([] : list call) h.
Proof.
  split; [|done]. intros p q Hpq. symmetry in Hpq.
  apply app_eq_nil in Hpq as [-> _]. apply submseteq_nil_l.
Qed.

Lemma settles_app (h h1 h2 : list node) (l1 l2 : list call) :
  settles h l1 h1 -> settles h1 l2 h2 -> settles h (l1 ++ l2) h2.
Proof.
  intros [Hp1 Hb1] [Hp2 Hb2]. split.
  - intros p q Hpq. apply app_eq_inv in Hpq as [(k & -> & ->) | (k & -> & ->)].
    + by apply (Hp1 p k).
    + rewrite !bind_app. specialize (Hp2 k q eq_refl).
      transitivity ((l1 ≫= released) ++ (k ≫= acquired) ++ h1).
      { by apply submseteq_app. }
      apply Permutation_submseteq.
      transitivity ((k ≫= acquired) ++ (l1 ≫= released) ++ h1); [solve_Permutation|].
      rewrite <- Hb1. solve_Permutation.
  - rewrite !bind_app.
    transitivity ((l2 ≫= acquired) ++ (l1 ≫= acquired) ++ h); [solve_Permutation|].
    rewrite Hb1.
    transitivity ((l1 ≫= released) ++ (l2 ≫= acquired) ++ h1); [solve_Permutation|].
    rewrite Hb2. solve_Permutation.
Qed.

Lemma settles_perm (h k h' k' : list node) (l : list call) :
  h ≡ₚ k -> h' ≡ₚ k' -> settles h l h' -> settles k l k'.
Proof.
  intros Hh Hh' [Hp Hb]. split.
  - intros p q Hpq. rewrite <- Hh. by apply (Hp p q).
  - by rewrite <- Hh, <- Hh'.
Qed.

Lemma settles_acquire (h : list node) (ev : call) :
  released ev = [] -> settles h [ev] (acquired ev ++ h).
Proof.
  intros Hr. split.
  - intros [|x p] q Hpq; [apply submseteq_nil_l|].
    injection Hpq as <- Hpq. symmetry in Hpq. apply app_eq_nil in Hpq as [-> _].
    simpl. rewrite Hr. apply submseteq_nil_l.
  - simpl. by rewrite Hr, !app_nil_r.
Qed.

Lemma settles_release (h : list node) (ev : call) :
  acquired ev = [] -> settles (released ev ++ h) [ev] h.
Proof.
  intros Ha. split.
  - intros [|x p] q Hpq; [apply submseteq_nil_l|].
    injection Hpq as <- Hpq. symmetry in Hpq. apply app_eq_nil in Hpq as [-> _].
    simpl. rewrite Ha, !app_nil_r. simpl. by apply submseteq_inserts_r.
  - simpl. by rewrite Ha, !app_nil_r.
Qed.

Lemma settles_neutral (h : list node) (ev : call) :
  acquired ev = [] -> released ev = [] -> settles h [ev] h.
Proof. intros Ha Hr. pose proof (settles_acquire h ev Hr) as H. by rewrite Ha in H. Qed.

(** One elimination leaves the pass with a reference more in the map and one
    more for each entry the reducer added to the cache. *)
Lemma settles_elimination (h : list node) (e : elimination) :
  settles h (elimination_calls e)
    (e_subst e :: table_values (drop (length (e_cache e)) (e_cache' e)) ++ h).
Proof.
  unfold elimination_calls.
  set (X := e_subst e :: table_values (drop (length (e_cache e)) (e_cache' e)) ++ h).
  change (settles h
            ([BetaReduceFull (e_graph e) (e_app e) (e_cache e) (e_subst e) (e_cache' e)] ++
             [InsertSubstitution (e_app e) (e_subst e)] ++
             [NodeRelease (e_subst e)]) X).
  eapply settles_app.
  { apply (settles_acquire h (BetaReduceFull _ _ _ _ _)). done. }
  eapply settles_app.
  { apply (settles_acquire _ (InsertSubstitution _ _)). done. }
  apply (settles_release X (NodeRelease _)). done.
Qed.

Lemma settles_eliminations (h : list node) es :
  settles h (es ≫= elimination_calls)
    (table_values (recorded es) ++ added_values es ++ h).
Proof.
  revert h. induction es as [|e es IH]; intros h; [apply settles_nil|].
  change ((e :: es) ≫= elimination_calls)
    with (elimination_calls e ++ (es ≫= elimination_calls)).
  eapply settles_app; [apply settles_elimination|].
  eapply settles_perm; [done | | apply IH].
  unfold added_values, recorded, table_values. simpl. solve_Permutation.
Qed.

Lemma settles_round (r : Z) (h : list node) es :
  settles h (round_calls r es) (added_values es ++ h).
Proof.
  unfold round_calls.
  change (settles h
            ([InitSubstitutions] ++ (es ≫= elimination_calls) ++
             [Msg (EliminateRound (Z.of_nat (length es)) r)] ++
             [SubstituteAndRebuild (recorded es)] ++
             [DeleteSubstitutions (recorded es)])
            (added_values es ++ h)).
  eapply settles_app; [by apply settles_neutral|].
  eapply settles_app; [apply settles_eliminations|].
  eapply settles_app; [by apply settles_neutral|].
  eapply settles_app; [by apply settles_neutral|].
  apply (settles_release _ (DeleteSubstitutions _)). done.
Qed.

Lemma settles_loop (r : Z) (h : list node) (rs : list (list elimination)) :
  settles h (loop_calls r rs) (added_values (concat rs) ++ h).
Proof.
  revert r h. induction rs as [|es rs IH]; intros r h; [apply settles_nil|].
  change (loop_calls r (es :: rs)) with (round_calls r es ++ loop_calls (r + 1) rs).
  eapply settles_app; [apply settles_round|].
  eapply settles_perm; [done | | apply IH].
  unfold added_values. simpl. rewrite bind_app. solve_Permutation.
Qed.

Lemma settles_teardown (h : list node) (c : cache) :
  settles (table_values c ++ h) (teardown_calls (G:=G) c) h.
Proof.
  induction c as [|[k v] c IH].
  - apply (settles_neutral h HashptrTableDelete); done.
  - rewrite teardown_calls_cons.
    change (settles ([v] ++ table_values c ++ h)
              ([NodeRelease v] ++ [NodePairDelete k] ++ teardown_calls (G:=G) c) h).
    eapply settles_app.
    { apply (settles_release _ (NodeRelease v)). done. }
    eapply settles_app; [by apply settles_neutral | done].
Qed.

(** The values of the cache are those of the entries the eliminations added. *)
Lemma final_cache_values (c : cache) es :
  cache_threaded c es -> Forall elimination_ok es ->
  table_values (final_cache c es) = table_values c ++ added_values es.
Proof.
  revert c. induction es as [|e es IH]; intros c Hth Hok.
  { simpl. by rewrite app_nil_r. }
  destruct Hth as [Hc Hth]. inversion_clear Hok as [|? ? Hoke Hok']. subst c.
  destruct (elimination_populates e Hoke) as [new Hnew].
  simpl. rewrite (IH _ Hth Hok'). unfold added_values. simpl.
  rewrite Hnew, drop_app_length.
  unfold table_values. by rewrite fmap_app, <- app_assoc.
Qed.

(** C3.  In a run that returns, the references the pass acquires are the one
    each call of the reducer returns, the one each entry the reducer adds to
    the pair cache holds on its value, and the one a substitution map takes
    on a replacement when it is inserted; the references it releases are
    that of the release after each insertion, those the map of each round
    holds when it is deleted, and that on every value of the cache at
    teardown.  The reference count of every node changes with these calls,
    and with them only.  At every point of the run what has been released is
    part of what has been acquired, and when the pass returns the two
    coincide, counted with multiplicity: each reference is released exactly
    once, and every node has the reference count it had before the run. *)
Theorem references_released_exactly_once ndebug fuel b b' :
  btor_eliminate_applies ndebug fuel b = Returned b' ->
  (forall n, refs (nodes b') n = refs (nodes b) n) /\
  exists new,
    calls b' = calls b ++ new /\
    (forall n,
       refs (nodes b') n =
       refs (nodes b) n
       + occurrences n (new ≫= acquired) - occurrences n (new ≫= released)) /\
    (forall p q, new = p ++ q -> p ≫= released ⊆+ p ≫= acquired) /\
    new ≫= acquired ≡ₚ new ≫= released /\
    length (new ≫= acquired) = length (new ≫= released).
Proof.
  intros E. destruct (run_accounted _ _ _ _ E) as (new0 & Hc0 & Hrefs).
  assert (exists new, calls b' = calls b ++ new /\ settles [] new [])
    as (new & Hc & Hp & Hb).
  { destruct (decide (lambdas (nodes b) = [])) as [Hl|Hl].
    { rewrite early_return in E by done. inversion E; subst b'.
      exists []. rewrite app_nil_r. split; [done|]. apply settles_nil. }
    apply run_Returned in E
      as (rs & s & _ & _ & Hoks & Hth & _ & _ & _ & _ & _ & _ & Hcalls & _); [|done].
    eexists. split; [exact Hcalls|].
    assert (concat (rs ++ [[]]) = concat rs) as Hcat
      by (rewrite concat_app; simpl; by rewrite !app_nil_r).
    pose proof (final_cache_values [] (concat rs) Hth Hoks) as Hval. simpl in Hval.
    change (settles []
              ([UtilTimeStamp (t_start b)] ++ [HashptrTableNew] ++
               loop_calls 1 (rs ++ [[]]) ++
               teardown_calls (final_cache [] (concat rs)) ++
               [UtilTimeStamp (t_stop b)] ++
               [Msg (EliminatedTotal (Z.of_nat (length (concat rs)))
                       (t_stop b - t_start b))]) []).
    eapply settles_app; [by apply settles_neutral|].
    eapply settles_app; [by apply settles_neutral|].
    eapply settles_app.
    { pose proof (settles_loop 1 [] (rs ++ [[]])) as Hloop.
      rewrite Hcat, app_nil_r, <- Hval in Hloop. exact Hloop. }
    eapply settles_app.
    { pose proof (settles_teardown [] (final_cache [] (concat rs))) as Htd.
      rewrite app_nil_r in Htd. exact Htd. }
    eapply settles_app; by apply settles_neutral. }
  rewrite !app_nil_r in Hb.
  assert (new0 = new) as -> by (rewrite Hc in Hc0; by apply app_inv_head in Hc0).
  split.
  { intros n. rewrite Hrefs, (occurrences_perm n _ _ Hb). lia. }
  exists new. split; [done|]. split; [done|]. split; [|split].
  - intros p q Hpq. specialize (Hp p q Hpq). by rewrite app_nil_r in Hp.
  - done.
  - by rewrite Hb.
Qed.

End References.

(** The rounds of a run, as its log shows them. *)
Lemma run_rounds ndebug fuel b b' :
  btor_eliminate_applies ndebug fuel b = Returned b' ->
  lambdas (nodes b) <> [] ->
  exists rs pre post new,
    new = pre ++ loop_calls 1 (rs ++ [[]]) ++ post /\
    calls b' = calls b ++ new /\
    Forall (fun es => es <> []) rs /\
    Forall (fun es => NoDup (table_keys (recorded es))) rs /\
    rebuild_maps new = recorded <$> (rs ++ [[]]) /\
    round_records new =
      imap (fun i es => (Z.of_nat (length es), 1 + Z.of_nat i)) (rs ++ [[]]).
Proof.
  intros E Hne.
  apply run_Returned in E
    as (rs & s & _ & Hnes & _ & _ & _ & _ & _ & _ & _ & _ & Hcalls & Hnds & _); [|done].
  eexists rs, _, _, _. split; [reflexivity|]. split; [exact Hcalls|].
  split; [done|]. split; [done|].
  destruct (observations_teardown (final_cache [] (concat rs)))
    as (H1 & H2 & _).
  unfold rebuild_maps at 1, round_records at 1. rewrite !bind_app.
  fold (rebuild_maps (teardown_calls (G:=G) (final_cache [] (concat rs)))).
  fold (round_records (teardown_calls (G:=G) (final_cache [] (concat rs)))).
  fold (rebuild_maps (loop_calls 1 (rs ++ [[]]))).
  fold (round_records (loop_calls 1 (rs ++ [[]]))).
  rewrite H1, H2, rebuild_maps_loop, round_records_loop. simpl.
  by rewrite !app_nil_r.
Qed.

(** C2, as amended.  The rebuild pass is invoked in every round, the round
    that recorded zero substitutions included: each round ends with its
    diagnostic, the call of the rebuild pass on the map the round
    accumulated, and the deletion of that map, and the next round carries
    the next index.  The rounds before the last recorded at least one
    substitution; the last recorded none, its map is empty, and the loop
    stops after it. *)
Theorem rebuild_in_every_round ndebug fuel b b' :
  btor_eliminate_applies ndebug fuel b = Returned b' ->
  lambdas (nodes b) <> [] ->
  exists rs pre post new,
    new = pre ++ loop_calls 1 (rs ++ [[]]) ++ post /\
    calls b' = calls b ++ new /\
    Forall (fun es => es <> []) rs /\
    rebuild_maps new = recorded <$> (rs ++ [[]]) /\
    round_records new =
      imap (fun i es => (Z.of_nat (length es), 1 + Z.of_nat i)) (rs ++ [[]]).
Proof.
  intros E Hne.
  destruct (run_rounds _ _ _ _ E Hne)
    as (rs & pre & post & new & Hnew & Hc & Hnes & _ & Hmaps & Hrec).
  by exists rs, pre, post, new.
Qed.

Section Unique.

(** The registry is a set of lambdas, the apply parents of a lambda are a set
    of nodes, and an apply node is a parent of the lambda it applies. *)
Hypothesis lambdas_NoDup : forall g : G, NoDup (lambdas g).
Hypothesis apply_parents_NoDup : forall (g : G) (fn : node), NoDup (apply_parents g fn).
Hypothesis apply_parents_edge : forall (g : G) (fn app : node),
  app ∈ apply_parents g fn -> applied_lambda app = Some fn.

Lemma visit_apply_parent_fresh ndebug app st :
  app ∉ table_keys (substitutions (l_btor st)) ->
  visit_apply_parent ndebug app st <> Aborted DuplicateSubstitution.
Proof.
  intros Hfresh%table_get_None. unfold visit_apply_parent.
  destruct (parameterized (nodes (l_btor st)) app); [discriminate|].
  unfold int_add. case_bool_decide; [|discriminate]. simpl.
  destruct (btor_beta_reduce_full (nodes (l_btor st)) app (l_cache st))
    as [[subst c'] g'].
  simpl. rewrite Hfresh. rewrite bool_decide_eq_true_2 by done.
  unfold assert, btor_insert_substitution. simpl. rewrite Hfresh.
  destruct ndebug; discriminate.
Qed.

Lemma keys_apart_step ndebug fn fns app rest st st' :
  fn ∉ fns ->
  keys_apart fn fns (app :: rest) st ->
  visit_apply_parent ndebug app st = Returned st' ->
  keys_apart fn fns rest st'.
Proof.
  intros Hfn (Hnd & Hfun & Hkeys & Hother) E.
  pose proof (NoDup_cons_1_1 _ _ Hnd) as Happ.
  apply NoDup_cons_1_2 in Hnd.
  apply visit_apply_parent_Returned in E
    as [[_ ->] | (subst & c' & g' & _ & _ & _ & _ & ->)].
  - repeat split; [done| |intros k Hk Hin|done].
    + intros a Ha. apply Hfun. by right.
    + apply (Hkeys k Hk). by right.
  - unfold keys_apart, table_keys. simpl. rewrite fmap_app. simpl.
    repeat split; [done| | |].
    + intros a Ha. apply Hfun. by right.
    + intros k [Hk | ->%list_elem_of_singleton]%elem_of_app Hin; [|done].
      apply (Hkeys k Hk). by right.
    + intros k f [Hk | ->%list_elem_of_singleton]%elem_of_app Hf.
      * by apply Hother.
      * rewrite (Hfun app) by left. intros [= ->]. done.
Qed.

Lemma keys_of_visited_start fn fns st :
  keys_of_visited (fn :: fns) st ->
  (fn ∉ fns) /\
  keys_apart fn fns (apply_parents (nodes (l_btor st)) fn) st.
Proof.
  intros [Hnd Hother]. pose proof (NoDup_cons_1_1 _ _ Hnd) as Hfn.
  split; [done|].
  repeat split; [apply apply_parents_NoDup|apply apply_parents_edge| |].
  - intros k Hk Hin%apply_parents_edge. apply (Hother k fn Hk); [left|done].
  - intros k f Hk Hf. apply Hother; [done | by right].
Qed.

Lemma collect_never_duplicates ndebug st :
  substitutions (l_btor st) = [] ->
  collect ndebug st <> Aborted DuplicateSubstitution.
Proof.
  intros Hempty. unfold collect.
  apply (for_each_not_aborted keys_of_visited).
  { split; [apply lambdas_NoDup|]. rewrite Hempty. by intros k f Hk%elem_of_nil. }
  intros fn fns st1 Hinv.
  destruct (keys_of_visited_start _ _ _ Hinv) as [Hfn Hstart].
  destruct Hinv as [Hnd%NoDup_cons_1_2 _]. split.
  - unfold visit_lambda.
    apply (for_each_not_aborted (keys_apart fn fns)); [done|].
    intros app rest st2 Hin. split.
    + apply visit_apply_parent_fresh. destruct Hin as (_ & _ & Hkeys & _).
      intros Hk. apply (Hkeys _ Hk). left.
    + intros st3. by apply keys_apart_step.
  - intros st2 E. split; [done|].
    apply (for_each_inv (keys_apart fn fns)) in E as (_ & _ & _ & Hother); [done|done|].
    intros app rest s1 s2. by apply keys_apart_step.
Qed.

Lemma rounds_never_duplicate ndebug fuel s :
  rounds ndebug fuel s <> Aborted DuplicateSubstitution.
Proof.
  revert s. induction fuel as [|fuel IH]; intros s E; simpl in E; [discriminate|].
  apply bind_Aborted in E as [E | (s1 & _ & E)].
  - unfold round_body in E.
    apply bind_Aborted in E as [E | (st & _ & E)].
    { by apply collect_never_duplicates in E. }
    unfold int_add in E. repeat case_bool_decide; simpl in E; discriminate.
  - case_bool_decide; [by apply IH in E | discriminate].
Qed.

(** C8.  No run aborts on a duplicate substitution, in a debug build (the
    assertion of line 63) or in a release build (the insertion itself): when
    an application is inserted into the map of a round it is not yet a key
    of that map.  So the keys of the map of every round, as the rebuild pass
    receives it, are pairwise distinct. *)
Theorem no_duplicate_substitution ndebug fuel b :
  btor_eliminate_applies ndebug fuel b <> Aborted DuplicateSubstitution /\
  (forall b',
     btor_eliminate_applies ndebug fuel b = Returned b' ->
     exists new,
       calls b' = calls b ++ new /\
       Forall (fun m => NoDup (table_keys m)) (rebuild_maps new)).
Proof.
  split.
  - unfold btor_eliminate_applies. case_bool_decide; [discriminate|].
    unfold time_stamp. cbv beta iota zeta. intros E.
    apply bind_Aborted in E as [E | (s & _ & E)].
    { by apply rounds_never_duplicate in E. }
    apply bind_Aborted in E as [E | (u & _ & E)].
    + unfold check_no_ground_apply in E. revert E.
      apply (for_each_not_aborted (fun _ _ => True)); [done|].
      intros fn fns [] _. split; [|done].
      apply (for_each_not_aborted (fun _ _ => True)); [done|].
      intros app rest [] _. split; [|done].
      unfold assert. destruct ndebug; [done|].
      by destruct (parameterized (nodes (s_btor s)) app).
    + apply bind_Aborted in E as [E | (u' & _ & E)]; [|discriminate].
      unfold assert in E. destruct ndebug; [done|].
      by destruct (btor_dbg_check _).
  - intros b' E. destruct (decide (lambdas (nodes b) = [])) as [Hl|Hl].
    { rewrite early_return in E by done. inversion E; subst b'.
      exists []. by rewrite app_nil_r. }
    destruct (run_rounds _ _ _ _ E Hl)
      as (rs & pre & post & new & _ & Hc & _ & Hnds & Hmaps & _).
    exists new. split; [done|]. rewrite Hmaps, fmap_app.
    apply Forall_app. split.
    + by apply Forall_fmap.
    + apply Forall_singleton, NoDup_nil_2.
Qed.

End Unique.

End DriverFacts.

(** ** The term universe meets the contracts, and the scenarios *)

Import TermUniverse.

Lemma replace_nil (t : term) : replace [] t = t.
Proof. induction t; simpl; congruence. Qed.

Lemma rebuild_nil (g : graph) : btor_substitute_and_rebuild g [] = g.
Proof.
  simpl. unfold rebuild. induction g as [|t g IH]; [done|].
  rewrite fmap_cons, replace_nil. by f_equal.
Qed.

Lemma release_keeps (g : graph) (n fn app : term) :
  fn ∈ lambdas (btor_node_release g n) ->
  app ∈ apply_parents (btor_node_release g n) fn ->
  fn ∈ lambdas g /\ app ∈ apply_parents g fn /\
  parameterized (btor_node_release g n) app = parameterized g app.
Proof. by intros. Qed.

Lemma registry_NoDup (g : graph) : NoDup (lambdas g).
Proof. apply NoDup_filter, NoDup_remove_dups. Qed.

Lemma parents_NoDup (g : graph) (fn : term) : NoDup (apply_parents g fn).
Proof. apply NoDup_filter, NoDup_remove_dups. Qed.

Lemma parents_edge (g : graph) (fn app : term) :
  app ∈ apply_parents g fn -> applied_lambda app = Some fn.
Proof. simpl. unfold parents. by intros [? _]%list_elem_of_filter. Qed.

Lemma term_size_ind (P : term -> Prop) :
  (forall t, (forall t', (term_size t' < term_size t)%nat -> P t') -> P t) ->
  forall t, P t.
Proof.
  intros H t. remember (term_size t) as n eqn:Hn. revert t Hn.
  induction n as [n IH] using lt_wf_ind. intros t ->.
  apply H. intros t' Hlt. by eapply IH.
Qed.

(** The reducer adds entries to the cache and touches none that is there;
    the lambda of an entry it adds is a node of the term it reduces. *)
Lemma eval_adds (t : term) : forall env c,
  exists new,
    (eval env t c).2 = c ++ new /\
    forall k, k ∈ table_keys new -> (term_size k.1 < term_size t)%nat.
Proof.
  induction t as [t IH] using term_size_ind. intros env c.
  destruct t as [v|y|x body|fn arg|l r]; simpl.
  - exists []. split; [by rewrite app_nil_r|]. intros k []%elem_of_nil.
  - exists []. split; [by rewrite app_nil_r|]. intros k []%elem_of_nil.
  - destruct (IH body ltac:(simpl; lia) (filter (fun xa => xa.1 ≠ x) env) c)
      as (new & Hnew & Hk).
    destruct (eval _ body c) as [body' c1]. simpl in *.
    exists new. split; [done|]. intros k Hin. apply Hk in Hin. lia.
  - destruct (IH arg ltac:(simpl; lia) env c) as (n1 & H1 & K1).
    destruct (eval env arg c) as [a c1]. simpl in H1. subst c1.
    assert (forall t' env',
              (term_size t' < S (term_size fn + term_size arg))%nat ->
              exists new,
                (eval env' t' (c ++ n1)).2 = c ++ new /\
                forall k, k ∈ table_keys new ->
                  (term_size k.1 < S (term_size fn + term_size arg))%nat) as Hsub.
    { intros t' env' Hlt. destruct (IH t' Hlt env' (c ++ n1)) as (n2 & H2 & K2).
      exists (n1 ++ n2). split; [by rewrite app_assoc|].
      unfold table_keys. rewrite fmap_app. intros k [Hin|Hin]%elem_of_app.
      - apply K1 in Hin. lia.
      - apply K2 in Hin. lia. }
    assert (exists new,
              (let '(f, c0) := eval env fn (c ++ n1) in (Apply f a, c0)).2 = c ++ new /\
              forall k, k ∈ table_keys new ->
                (term_size k.1 < S (term_size fn + term_size arg))%nat) as Hfn.
    { destruct (Hsub fn env ltac:(lia)) as (new & Hnew & Hk).
      destruct (eval env fn (c ++ n1)) as [f c0]. by exists new. }
    destruct fn as [v|y|x body|f1 a1|l1 r1]; try exact Hfn. clear Hfn.
    destruct (Hsub body ((x, a) :: env) ltac:(simpl; lia)) as (n2 & H2 & K2).
    destruct (is_parameterized (Lambda x body)); [by exists n2|].
    destruct (btor_hashptr_table_get (c ++ n1) (Lambda x body, a)).
    { exists n1. split; [done|]. intros k Hin. apply K1 in Hin. simpl. lia. }
    destruct (eval ((x, a) :: env) body (c ++ n1)) as [r c2]. simpl in *. subst c2.
    exists (n2 ++ [((Lambda x body, a), r)]). split; [by rewrite app_assoc|].
    unfold table_keys. rewrite fmap_app.
    intros k [Hin|Hin%list_elem_of_singleton]%elem_of_app; [by apply K2|].
    subst k. simpl. lia.
  - destruct (IH l ltac:(simpl; lia) env c) as (n1 & H1 & K1).
    destruct (eval env l c) as [l' c1]. simpl in H1. subst c1.
    destruct (IH r ltac:(simpl; lia) env (c ++ n1)) as (n2 & H2 & K2).
    destruct (eval env r (c ++ n1)) as [r' c2]. simpl in *. subst c2.
    exists (n1 ++ n2). split; [by rewrite app_assoc|].
    unfold table_keys. rewrite fmap_app. intros k [Hin|Hin]%elem_of_app.
    + apply K1 in Hin. lia.
    + apply K2 in Hin. lia.
Qed.

Lemma reduce_grows (g : graph) (app : term) (c : table (term * term) term) :
  exists new, (btor_beta_reduce_full g app c).1.2 = c ++ new.
Proof.
  simpl. unfold reduce. destruct (eval_adds app [] c) as (new & Hnew & _).
  destruct (eval [] app c) as [r c']. by exists new.
Qed.

(** A reduction is served from a cache that holds what it would add. *)
Lemma eval_serves (t : term) : forall env c c',
  table_within (eval env t c).2 c' -> eval env t c' = ((eval env t c).1, c').
Proof.
  induction t as [t IH] using term_size_ind. intros env c c'.
  destruct t as [v|y|x body|fn arg|l r]; simpl.
  - done.
  - done.
  - intros Hin.
    pose proof (IH body ltac:(simpl; lia) (filter (fun xa => xa.1 ≠ x) env) c c') as Hb.
    destruct (eval _ body c) as [body' c1]. simpl in *. by rewrite Hb.
  - pose proof (IH arg ltac:(simpl; lia) env c c') as Ha.
    destruct (eval env arg c) as [a c1]. simpl in Ha.
    assert (forall t' env',
              (term_size t' < S (term_size fn + term_size arg))%nat ->
              table_within (eval env' t' c1).2 c' ->
              eval env arg c' = (a, c') /\
              eval env' t' c' = ((eval env' t' c1).1, c')) as Hsub.
    { intros t' env' Hlt Hin. split; [|by apply IH].
      apply Ha. destruct (eval_adds t' env' c1) as (new & Hnew & _).
      rewrite Hnew in Hin. eapply table_within_trans; [|exact Hin].
      apply table_within_app. }
    assert (table_within (let '(f, c0) := eval env fn c1 in (Apply f a, c0)).2 c' ->
            (let '(a0, c0) := eval env arg c' in
             let '(f, c2) := eval env fn c0 in (Apply f a0, c2)) =
            ((let '(f, c0) := eval env fn c1 in (Apply f a, c0)).1, c')) as Hfn.
    { intros Hin. destruct (Hsub fn env ltac:(lia)) as [-> Hf].
      { by destruct (eval env fn c1). }
      rewrite Hf. by destruct (eval env fn c1). }
    destruct fn as [v|y|x body|f1 a1|l1 r1]; try exact Hfn. clear Hfn.
    specialize (Hsub body ((x, a) :: env) ltac:(simpl; lia)).
    destruct (is_parameterized (Lambda x body)).
    { intros Hin. destruct (Hsub Hin) as [-> Hb]. by rewrite Hb. }
    destruct (btor_hashptr_table_get c1 (Lambda x body, a)) as [r|] eqn:Hget.
    { simpl. intros Hin. rewrite (Ha Hin). by rewrite (Hin _ _ Hget). }
    destruct (eval_adds body ((x, a) :: env) c1) as (new & Hnew & Hkeys).
    destruct (eval ((x, a) :: env) body c1) as [r c2]. simpl in *. subst c2.
    intros Hin.
    assert (btor_hashptr_table_get (c1 ++ new) (Lambda x body, a) = None) as Hnone.
    { rewrite table_get_app, Hget. apply table_get_None. intros Hk.
      apply Hkeys in Hk. simpl in Hk. lia. }
    destruct Hsub as [-> _].
    { eapply table_within_trans; [|exact Hin]. apply table_within_app. }
    rewrite (Hin (Lambda x body, a) r); [done|].
    rewrite table_get_app, Hnone. simpl. by rewrite decide_True.
  - intros Hin.
    pose proof (IH l ltac:(simpl; lia) env c c') as Hl.
    destruct (eval env l c) as [l' c1]. simpl in Hl.
    pose proof (IH r ltac:(simpl; lia) env c1 c') as Hr.
    destruct (eval_adds r env c1) as (new & Hnew & _).
    destruct (eval env r c1) as [r' c2]. simpl in *. subst c2.
    rewrite Hl, Hr; [done|done|].
    eapply table_within_trans; [|exact Hin]. apply table_within_app.
Qed.

Lemma reduce_serves (g g' : graph) (app : term) (c c' : table (term * term) term) :
  table_within (btor_beta_reduce_full g app c).1.2 c' ->
  (btor_beta_reduce_full g' app c').1 = ((btor_beta_reduce_full g app c).1.1, c').
Proof.
  simpl. unfold reduce. intros Hin.
  pose proof (eval_serves app [] c c') as Hs.
  destruct (eval [] app c) as [r c1]. simpl in *. by rewrite Hs.
Qed.

(** The counted universe meets the contract of the reference counts. *)
Lemma refs_bump (f : graph) (d : Z) (m n : term) (cs : table term Z) :
  CountedUniverse.refs (CountedUniverse.mkCounted f (CountedUniverse.bump d m cs)) n =
  CountedUniverse.refs (CountedUniverse.mkCounted f cs) n + d * occurrences n [m].
Proof.
  unfold CountedUniverse.refs, occurrences. simpl.
  induction cs as [|[m' k] cs IH]; simpl.
  - rewrite filter_cons. destruct (decide (m = n)); simpl; lia.
  - destruct (decide (m' = m)) as [->|Hne]; simpl.
    + rewrite filter_cons. destruct (decide (m = n)); simpl; lia.
    + destruct (decide (m' = n)) as [->|Hne']; simpl; [|exact IH].
      rewrite filter_cons. case_decide; [congruence|]. simpl. lia.
Qed.

Lemma counted_copy_acquires (g : CountedUniverse.counted) (m n : term) :
  CountedUniverse.refs (btor_node_copy g m) n =
  CountedUniverse.refs g n + occurrences n [m].
Proof.
  destruct g as [f cs]. simpl. unfold CountedUniverse.acquire. simpl.
  rewrite refs_bump. lia.
Qed.

Lemma counted_release_releases (g : CountedUniverse.counted) (m n : term) :
  CountedUniverse.refs (btor_node_release g m) n =
  CountedUniverse.refs g n - occurrences n [m].
Proof.
  destruct g as [f cs]. simpl. unfold CountedUniverse.release. simpl.
  rewrite refs_bump. lia.
Qed.

Lemma counted_rebuild_transfers (g : CountedUniverse.counted) (m : table term term)
  (n : term) :
  CountedUniverse.refs (btor_substitute_and_rebuild g m) n = CountedUniverse.refs g n.
Proof. done. Qed.

Lemma counted_reduce_grows (g : CountedUniverse.counted) (app : term)
  (c : table (term * term) term) :
  exists new, (btor_beta_reduce_full g app c).1.2 = c ++ new.
Proof.
  simpl. unfold CountedUniverse.counted_reduce, reduce.
  destruct (eval_adds app [] c) as (new & Hnew & _).
  destruct (eval [] app c) as [r c']. by exists new.
Qed.

Lemma foldl_acquire_refs (l : list term) (g : CountedUniverse.counted) (n : term) :
  CountedUniverse.refs (foldl CountedUniverse.acquire g l) n =
  CountedUniverse.refs g n + occurrences n l.
Proof.
  revert g. induction l as [|m l IH]; intros g.
  - unfold occurrences. simpl. lia.
  - change (m :: l) with ([m] ++ l) at 2. rewrite occurrences_app.
    simpl. rewrite IH. pose proof (counted_copy_acquires g m n) as Hc.
    simpl in Hc. rewrite Hc. lia.
Qed.

Lemma counted_reduce_acquires (g : CountedUniverse.counted) (app : term)
  (c : table (term * term) term) (n : term) :
  CountedUniverse.refs (btor_beta_reduce_full g app c).2 n =
  CountedUniverse.refs g n
  + occurrences n
      ((btor_beta_reduce_full g app c).1.1 ::
       table_values (drop (length c) (btor_beta_reduce_full g app c).1.2)).
Proof.
  cbn [btor_beta_reduce_full CountedUniverse.counted_universe].
  unfold CountedUniverse.counted_reduce, reduce.
  destruct (eval [] app c) as [r c']. cbn [fst snd].
  by rewrite foldl_acquire_refs.
Qed.

(** Membership in a list that computes. *)
Ltac in_list :=
  match goal with
  | |- ?x ∈ ?l => apply (bool_decide_unpack (x ∈ l)); vm_compute; exact I
  end.

(** C7, as amended.  Scenario B, [λx. (λy. y)(x)] applied to [v]: round 1
    records exactly one substitution, of the outer application by [v], the
    fully reduced body the reducer returns for it; the application of the
    inner identity lambda to [v] is reduced within that call, which enters
    it into the cache, and is never a node of the formula.  Round 2 records
    no substitution and the pass returns, on the formula [v]: it converges
    after 2 rounds, with every amount of fuel from 2 on and not with less. *)
Theorem scenario_b_two_rounds (ndebug : bool) (fuel : nat) :
  let run := btor_eliminate_applies ndebug (2 + fuel) (btor_of scenario_b) in
  (round_records <$> calls_of run) = Some [(1, 1); (0, 2)] /\
  (rebuild_maps <$> calls_of run) =
    Some [[(Apply outer_lambda (Var 7), Var 7)]; []] /\
  (reductions <$> calls_of run) =
    Some [mkElim scenario_b (Apply outer_lambda (Var 7)) [] (Var 7)
            [((id_lambda, Var 7), Var 7); ((outer_lambda, Var 7), Var 7)]] /\
  nodes_of run = Some [Var 7] /\
  btor_eliminate_applies ndebug 1 (btor_of scenario_b) = OutOfFuel.
Proof.
  assert (btor_eliminate_applies ndebug (2 + fuel) (btor_of scenario_b)
          = btor_eliminate_applies ndebug 2 (btor_of scenario_b)) as ->.
  { apply run_more_fuel; [|lia]. destruct ndebug; vm_compute; discriminate. }
  destruct ndebug; vm_compute; repeat split; reflexivity.
Qed.

(** C7, counterexample.  On scenario B the rounds are not the three of the
    claim: the first records the substitution of the outer application by
    [v], not by the application of the inner identity lambda to [v], and the
    second, which records none, is the last. *)
Lemma scenario_b_not_three_rounds :
  let run := btor_eliminate_applies false 3 (btor_of scenario_b) in
  (round_records <$> calls_of run) = Some [(1, 1); (0, 2)] /\
  (round_records <$> calls_of run) <> Some [(1, 1); (1, 2); (0, 3)] /\
  (rebuild_maps <$> calls_of run) =
    Some [[(Apply outer_lambda (Var 7), Var 7)]; []] /\
  (rebuild_maps <$> calls_of run) <>
    Some [[(Apply outer_lambda (Var 7), Apply id_lambda (Var 7))];
          [(Apply id_lambda (Var 7), Var 7)];
          []].
Proof. vm_compute. repeat split; (reflexivity || discriminate). Qed.

(** C2, counterexample.  On a formula that holds a lambda and no ground
    application the only round records zero substitutions, and the rebuild
    pass is invoked in it. *)
Lemma rebuild_invoked_in_quiet_round :
  calls_of (btor_eliminate_applies false 1 (btor_of lone_lambda)) =
    Some [UtilTimeStamp 0; HashptrTableNew; InitSubstitutions;
          Msg (EliminateRound 0 1); SubstituteAndRebuild [];
          DeleteSubstitutions []; HashptrTableDelete; UtilTimeStamp 1;
          Msg (EliminatedTotal 0 1)] /\
  (rebuild_in_quiet_round <$>
     calls_of (btor_eliminate_applies false 1 (btor_of lone_lambda))) = Some true.
Proof. split; vm_compute; reflexivity. Qed.

(** C5, counterexample.  The pass returns [scenario_a_converged] on
    scenario A; its registry is empty, and the re-run on it makes no round
    at all, so it does not make one round that records zero substitutions.
    The same holds of a formula without any lambda, on which the first run
    already returns at line 31. *)
Lemma rerun_without_round :
  (btor_eliminate_applies false 2 (btor_of scenario_a) = Returned scenario_a_converged /\
   ~ rerun_is_one_quiet_round false 2 scenario_a_converged) /\
  (btor_eliminate_applies false 2 (btor_of [Var 7]) = Returned (btor_of [Var 7]) /\
   ~ rerun_is_one_quiet_round false 2 (btor_of [Var 7])).
Proof.
  assert (forall b : Btor term graph,
            lambdas (nodes b) = [] -> ~ rerun_is_one_quiet_round false 2 b) as Hno.
  { intros b Hl (b2 & new & E & Hc & Hr & _).
    rewrite early_return in E by done.
    inversion E; subst b2; clear E.
    apply (f_equal length) in Hc. rewrite length_app in Hc.
    destruct new; [discriminate | simpl in Hc; lia]. }
  split; (split; [vm_compute; reflexivity | by apply Hno]).
Qed.

(** ** The general properties at work on the scenarios *)

(** A formula without lambda, with no fuel at all. *)
Lemma empty_registry_zero_rounds_witness :
  exists b' new,
    btor_eliminate_applies false 0 (btor_of [Var 7]) = Returned b' /\
    nodes b' = [Var 7] /\
    calls b' = [] ++ new /\ round_records new = [].
Proof.
  apply (empty_registry_zero_rounds false 0 (btor_of [Var 7])). reflexivity.
Defined.

(** What the pass returned on scenario A has no lambda left: the state, with
    its log and its time, goes through a second run untouched. *)
Lemma empty_registry_frame_witness :
  exists b',
    btor_eliminate_applies true 0 scenario_a_converged = Returned b' /\
    caches_created (calls b') = caches_created (calls scenario_a_converged) /\
    round_records (calls b') = round_records (calls scenario_a_converged) /\
    calls b' = calls scenario_a_converged /\
    time_elimapplies b' = 1 /\
    ticks b' = 2%nat /\
    b' = scenario_a_converged.
Proof.
  apply (empty_registry_frame true 0 scenario_a_converged). reflexivity.
Defined.

(** On [mixed] the pass eliminates the ground application of the identity;
    the application of the identity to the parameter of the outer lambda
    survives, and it is parameterized. *)
Lemma no_ground_apply_after_return_witness :
  btor_eliminate_applies false 2 (btor_of mixed) = Returned mixed_converged /\
  parameterized (nodes mixed_converged) (Apply id_lambda (Param 0)) = true.
Proof.
  split; [vm_compute; reflexivity|].
  refine (no_ground_apply_after_return rebuild_nil release_keeps
            false 2 (btor_of mixed) mixed_converged _ id_lambda _ _ _).
  - vm_compute; reflexivity.
  - in_list.
  - in_list.
Defined.

(** The re-run on what the pass returned on [mixed], whose registry is not
    empty: one round, without substitution. *)
Lemma rerun_on_converged_witness :
  exists b2 new,
    btor_eliminate_applies false 1 mixed_converged = Returned b2 /\
    nodes b2 = [Op outer_lambda (Var 7)] /\
    calls b2 = calls mixed_converged ++ new /\
    reduced_apps new = [] /\
    round_records new = [(0, 1)].
Proof.
  refine (rerun_on_converged rebuild_nil release_keeps
            false 2 0 (btor_of mixed) mixed_converged _).
  vm_compute; reflexivity.
Defined.

(** The general properties on the run of scenario A. *)
Lemma rebuild_in_every_round_witness :
  exists (rs : list (list (elimination term graph))) pre post new,
    new = pre ++ loop_calls 1 (rs ++ [[]]) ++ post /\
    calls scenario_a_converged = [] ++ new /\
    Forall (fun es => es <> []) rs /\
    rebuild_maps new = recorded <$> (rs ++ [[]]) /\
    round_records new =
      imap (fun i es => (Z.of_nat (length es), 1 + Z.of_nat i)) (rs ++ [[]]).
Proof.
  refine (rebuild_in_every_round false 2 (btor_of scenario_a) scenario_a_converged _ _).
  - vm_compute; reflexivity.
  - vm_compute; discriminate.
Defined.

(** Scenario B with reference counts: the run acquires four references on
    [v] and releases four. *)
Lemma references_released_exactly_once_witness :
  (forall n,
     CountedUniverse.refs (nodes CountedUniverse.scenario_b_converged) n =
     CountedUniverse.refs (nodes (CountedUniverse.counted_of scenario_b)) n) /\
  exists new,
    calls CountedUniverse.scenario_b_converged = [] ++ new /\
    (forall n,
       CountedUniverse.refs (nodes CountedUniverse.scenario_b_converged) n =
       CountedUniverse.refs (nodes (CountedUniverse.counted_of scenario_b)) n
       + occurrences n (new ≫= acquired) - occurrences n (new ≫= released)) /\
    (forall p q, new = p ++ q -> p ≫= released ⊆+ p ≫= acquired) /\
    new ≫= acquired ≡ₚ new ≫= released /\
    length (new ≫= acquired) = length (new ≫= released).
Proof.
  refine (references_released_exactly_once CountedUniverse.refs
            counted_reduce_grows counted_reduce_acquires
            counted_copy_acquires counted_release_releases counted_rebuild_transfers
            false 2 (CountedUniverse.counted_of scenario_b)
            CountedUniverse.scenario_b_converged _).
  vm_compute; reflexivity.
Defined.


Lemma no_duplicate_substitution_witness :
  btor_eliminate_applies false 2 (btor_of scenario_a) <> Aborted DuplicateSubstitution /\
  exists new,
    calls scenario_a_converged = [] ++ new /\
    Forall (fun m => NoDup (table_keys m)) (rebuild_maps new).
Proof.
  destruct (no_duplicate_substitution registry_NoDup parents_NoDup parents_edge
              false 2 (btor_of scenario_a)) as [Hnever Hmaps].
  split; [exact Hnever|].
  refine (Hmaps scenario_a_converged _). vm_compute; reflexivity.
Defined.

Lemma parameterized_parents_skipped_witness :
  visit_apply_parent false (Apply id_lambda (Param 0))
    (mkLocals (btor_of lone_lambda) [] 0)
  = Returned (mkLocals (btor_of lone_lambda) [] 0) /\
  exists new,
    calls scenario_a_converged = [] ++ new /\
    Forall (fun e => parameterized (e_graph e) (e_app e) = false) (reductions new) /\
    insertions new = recorded (reductions new).
Proof.
  destruct (parameterized_parents_skipped (node:=term) (G:=graph) false) as [Hskip Hrun].
  split.
  - apply Hskip. reflexivity.
  - refine (Hrun 2%nat (btor_of scenario_a) scenario_a_converged _).
    vm_compute; reflexivity.
Defined.

(** ** Further properties of the pass *)

Section MoreDriverFacts.

Context {node G : Type} `{!EqDecision node} `{!NodeUniverse node G}.

Abbreviation cache := (table (node * node) node).
Abbreviation substs := (table node node).
Abbreviation call := (call node G).
Abbreviation Btor := (Btor node G).
Abbreviation locals := (locals node G).
Abbreviation loop_state := (loop_state node G).
Abbreviation elimination := (elimination node G).

Implicit Types (b : Btor) (st : locals) (s : loop_state) (es : list elimination).

(** An observation that sees none of the calls of a list sees nothing. *)
Lemma bind_unseen {A B : Type} (f : A -> list B) (l : list A) :
  Forall (fun x => f x = []) l -> l ≫= f = [].
Proof.
  induction 1 as [|x l Hx _ IH]; [done|].
  change ((x :: l) ≫= f) with (f x ++ (l ≫= f)). by rewrite Hx, IH.
Qed.

Lemma elimination_calls_Forall (P : call -> Prop) es :
  (forall g app c subst c', P (BetaReduceFull g app c subst c')) ->
  (forall app subst, P (InsertSubstitution app subst)) ->
  (forall n, P (NodeRelease n)) ->
  Forall P (es ≫= elimination_calls).
Proof.
  intros Hred Hins Hrel. induction es as [|e es IH]; [constructor|].
  change ((e :: es) ≫= elimination_calls)
    with (elimination_calls e ++ (es ≫= elimination_calls)).
  apply Forall_app. split; [|done].
  unfold elimination_calls. repeat constructor; auto.
Qed.

(** The calls a round is made of, whatever it eliminates: the calls of the
    eliminations and the four calls around them. *)
Lemma loop_calls_Forall (P : call -> Prop) (r : Z) (rs : list (list elimination)) :
  P InitSubstitutions ->
  (forall g app c subst c', P (BetaReduceFull g app c subst c')) ->
  (forall app subst, P (InsertSubstitution app subst)) ->
  (forall n, P (NodeRelease n)) ->
  (forall n round, P (Msg (EliminateRound n round))) ->
  (forall m, P (SubstituteAndRebuild m)) ->
  (forall m, P (DeleteSubstitutions m)) ->
  Forall P (loop_calls r rs).
Proof.
  intros Hinit Hred Hins Hrel Hmsg Hreb Hdel.
  revert r. induction rs as [|es rs IH]; intros r; [constructor|].
  change (loop_calls r (es :: rs)) with (round_calls r es ++ loop_calls (r + 1) rs).
  apply Forall_app. split; [|apply IH].
  unfold round_calls. constructor; [done|].
  apply Forall_app. split; [by apply elimination_calls_Forall|].
  repeat constructor; auto.
Qed.

Lemma teardown_calls_Forall (P : call -> Prop) (c : cache) :
  (forall n, P (NodeRelease n)) ->
  (forall p, P (NodePairDelete p)) ->
  P HashptrTableDelete ->
  Forall P (teardown_calls (G:=G) c).
Proof.
  intros Hrel Hpair Hdel. induction c as [|[k v] c IH].
  - by repeat constructor.
  - rewrite teardown_calls_cons. apply Forall_app. split; [|done].
    repeat constructor; auto.
Qed.

(** The log of a run that goes through the loop, with the eliminations the
    log itself shows. *)
Lemma run_log ndebug fuel b b' :
  btor_eliminate_applies ndebug fuel b = Returned b' ->
  lambdas (nodes b) <> [] ->
  exists rs new,
    calls b' = calls b ++ new /\
    new = [UtilTimeStamp (t_start b); HashptrTableNew] ++
          loop_calls 1 (rs ++ [[]]) ++
          teardown_calls (final_cache [] (reductions new)) ++
          [UtilTimeStamp (t_stop b);
           Msg (EliminatedTotal (Z.of_nat (length (reductions new)))
                  (t_stop b - t_start b))] /\
    reductions new = concat rs /\
    Forall (fun es => es <> []) rs /\
    substitutions b' = [] /\
    time_elimapplies b' = time_elimapplies b + (t_stop b - t_start b) /\
    ticks b' = S (S (ticks b)).
Proof.
  intros E Hne.
  apply run_Returned in E
    as (rs & s & _ & Hnes & _ & _ & _ & _ & _ & Hsub & Htime & Hticks & Hcalls & _);
    [|done].
  exists rs. eexists. split; [exact Hcalls|].
  assert (reductions
            ([UtilTimeStamp (t_start b); HashptrTableNew] ++
             loop_calls 1 (rs ++ [[]]) ++
             teardown_calls (final_cache [] (concat rs)) ++
             [UtilTimeStamp (t_stop b);
              Msg (EliminatedTotal (Z.of_nat (length (concat rs)))
                     (t_stop b - t_start b))]) = concat rs) as Hred.
  { unfold reductions. rewrite !bind_app.
    fold (reductions (loop_calls 1 (rs ++ [[]]))).
    rewrite reductions_loop, concat_app.
    rewrite (bind_unseen _ (teardown_calls _))
      by (by apply teardown_calls_Forall).
    simpl. by rewrite !app_nil_r. }
  rewrite Hred. by repeat split.
Qed.

(** Which failures the loop can end in: the two of the collection. *)
Lemma for_each_Aborted {A S : Type} (body : A -> S -> outcome S) (l : list A)
  (acc : S) (f : failure) :
  for_each body l acc = Aborted f -> exists x acc', body x acc' = Aborted f.
Proof.
  revert acc. induction l as [|x l IH]; intros acc E; simpl in E; [discriminate|].
  apply bind_Aborted in E as [E | (acc1 & _ & E)]; eauto.
Qed.

Lemma rounds_Aborted ndebug fuel s (f : failure) :
  rounds ndebug fuel s = Aborted f ->
  f = DuplicateSubstitution \/ f = SignedOverflow.
Proof.
  revert s. induction fuel as [|fuel IH]; intros s E; simpl in E; [discriminate|].
  apply bind_Aborted in E as [E | (s1 & _ & E)].
  - unfold round_body in E.
    apply bind_Aborted in E as [E | (st & _ & E)].
    + apply for_each_Aborted in E as (fn & st1 & E).
      apply for_each_Aborted in E as (app & st2 & E).
      unfold visit_apply_parent in E.
      destruct (parameterized _ _); [discriminate|].
      apply bind_Aborted in E as [E | (n & _ & E)].
      { unfold int_add in E. case_bool_decide; inversion E. by right. }
      destruct (btor_beta_reduce_full _ _ _) as [[subst c'] g'].
      apply bind_Aborted in E as [E | (u & _ & E)].
      { unfold assert in E. destruct ndebug; [discriminate|].
        case_bool_decide; inversion E. by left. }
      apply bind_Aborted in E as [E | (b1 & _ & E)]; [|discriminate].
      unfold btor_insert_substitution in E.
      destruct (btor_hashptr_table_get _ _); inversion E. by left.
    + apply bind_Aborted in E as [E | (total & _ & E)].
      { unfold int_add in E. case_bool_decide; inversion E. by right. }
      apply bind_Aborted in E as [E | (round & _ & E)]; [|discriminate].
      unfold int_add in E. case_bool_decide; inversion E. by right.
  - case_bool_decide; [by apply IH in E | discriminate].
Qed.

Section Postcondition.

Hypothesis rebuild_empty : forall g : G, btor_substitute_and_rebuild g [] = g.

(** X1.  The post-condition check of debug builds (lines 81-94) cannot
    fail: when the loop is left, every apply parent of every registered
    lambda is parameterized, so [assert (app->parameterized)] holds each time
    it is evaluated. *)
Theorem postcondition_assertion_never_fails ndebug fuel b :
  btor_eliminate_applies ndebug fuel b <> Aborted GroundApplySurvives.
Proof.
  unfold btor_eliminate_applies. case_bool_decide; [discriminate|].
  unfold time_stamp. cbv beta iota zeta. intros E.
  apply bind_Aborted in E as [E | (s & Hs & E)].
  { apply rounds_Aborted in E as [E | E]; discriminate. }
  apply bind_Aborted in E as [E | (u & _ & E)].
  - rewrite check_no_ground_apply_passes in E; [discriminate|].
    by eapply (rounds_no_ground rebuild_empty).
  - apply bind_Aborted in E as [E | (u' & _ & E)]; [|discriminate].
    unfold assert in E. destruct ndebug; [discriminate|].
    by destruct (btor_dbg_check _).
Qed.

End Postcondition.

(** X2.  On the path through the loop the clock is read exactly twice, at
    entry and after the teardown, and the closing diagnostic is printed
    once: its total is the sum of the counts of the per-round diagnostics,
    which is the number of calls of the reducer. *)
Theorem statistics_add_up ndebug fuel b b' :
  btor_eliminate_applies ndebug fuel b = Returned b' ->
  lambdas (nodes b) <> [] ->
  exists new delta,
    calls b' = calls b ++ new /\
    time_stamps new = [t_start b; t_stop b] /\
    totals_reported new = [(substitutions_recorded new, delta)] /\
    substitutions_recorded new = Z.of_nat (length (reductions new)).
Proof.
  intros E Hne.
  destruct (run_eliminations _ _ _ _ E) as (new' & Hc' & _ & _ & _ & Hsum & _).
  destruct (run_log _ _ _ _ E Hne) as (rs & new & Hc & Hnew & Hred & _ & _ & Htime & _).
  assert (new' = new) as -> by (rewrite Hc in Hc'; by apply app_inv_head in Hc').
  exists new, (t_stop b - t_start b). split; [done|]. rewrite Hsum.
  repeat split; try done.
  - rewrite Hnew. unfold time_stamps. rewrite !bind_app.
    rewrite (bind_unseen _ (loop_calls _ _)) by (by apply loop_calls_Forall).
    rewrite (bind_unseen _ (teardown_calls _)) by (by apply teardown_calls_Forall).
    done.
  - rewrite Hnew at 1. unfold totals_reported. rewrite !bind_app.
    rewrite (bind_unseen _ (loop_calls _ _)) by (by apply loop_calls_Forall).
    rewrite (bind_unseen _ (teardown_calls _)) by (by apply teardown_calls_Forall).
    done.
Qed.

Lemma pairs_deleted_teardown (c : cache) :
  pairs_deleted (teardown_calls (G:=G) c) = table_keys c.
Proof.
  induction c as [|[k v] c IH]; [done|].
  rewrite teardown_calls_cons. unfold pairs_deleted in *.
  rewrite bind_app, IH. done.
Qed.

(** X3.  The teardown is complete.  Once the loop is left, the value of every
    entry of the pair cache, as the last call of the reducer left it, is
    released and its pair deleted, entry by entry; then the table is
    deleted.  No pair is deleted before that, one table is created and one
    deleted; what follows the teardown is the second reading of the clock
    and the closing diagnostic. *)
Theorem teardown_is_complete ndebug fuel b b' :
  btor_eliminate_applies ndebug fuel b = Returned b' ->
  lambdas (nodes b) <> [] ->
  exists new front msg,
    calls b' = calls b ++ new /\
    new = front ++ teardown_calls (final_cache [] (reductions new)) ++
          [UtilTimeStamp (t_stop b); Msg msg] /\
    pairs_deleted front = [] /\
    pairs_deleted new = table_keys (final_cache [] (reductions new)) /\
    caches_created new = 1%nat /\
    tables_deleted new = 1%nat.
Proof.
  intros E Hne.
  destruct (run_log _ _ _ _ E Hne) as (rs & new & Hc & Hnew & _ & _ & Hsub & _).
  set (c := final_cache [] (reductions new)) in *.
  exists new, ([UtilTimeStamp (t_start b); HashptrTableNew] ++ loop_calls 1 (rs ++ [[]])).
  eexists.
  fold c. split; [done|]. split; [by rewrite <- app_assoc|].
  assert (pairs_deleted
            ([UtilTimeStamp (t_start b); HashptrTableNew] ++ loop_calls 1 (rs ++ [[]]))
          = []) as Hfront.
  { unfold pairs_deleted. rewrite bind_app.
    rewrite (bind_unseen _ (loop_calls _ _)) by (by apply loop_calls_Forall). done. }
  split; [done|]. clearbody c. rewrite Hnew. repeat split.
  - rewrite app_assoc. unfold pairs_deleted in *. rewrite bind_app, Hfront.
    rewrite bind_app. fold (pairs_deleted (teardown_calls (G:=G) c)).
    rewrite pairs_deleted_teardown. simpl. by rewrite app_nil_r.
  - unfold caches_created. rewrite !bind_app.
    rewrite (bind_unseen _ (loop_calls _ _)) by (by apply loop_calls_Forall).
    rewrite (bind_unseen _ (teardown_calls _)) by (by apply teardown_calls_Forall).
    done.
  - unfold tables_deleted. rewrite !bind_app.
    rewrite (bind_unseen _ (loop_calls _ _)) by (by apply loop_calls_Forall).
    assert (forall c' : cache,
              length (teardown_calls (G:=G) c' ≫= fun ev =>
                match ev with HashptrTableDelete => [()] | _ => [] end) = 1%nat)
      as Htd.
    { induction c' as [|[k v] c' IH]; [done|].
      rewrite teardown_calls_cons, bind_app, length_app, IH. done. }
    rewrite !length_app, Htd. done.
Qed.

(** The first round of the loop tells whether there was anything to
    eliminate. *)
Lemma rounds_first ndebug fuel s s' :
  rounds ndebug fuel s = Returned s' ->
  exists rs,
    calls (s_btor s') = calls (s_btor s) ++ loop_calls (s_round s) (rs ++ [[]]) /\
    (rs = [] <-> no_ground_apply (nodes (s_btor s))).
Proof.
  destruct fuel as [|fuel]; [discriminate|]. simpl. intros E.
  apply bind_Returned in E as (s1 & E1 & E).
  pose proof E1 as (es & st & Hcol & Hes & _ & _ & Hs1)%round_body_Returned.
  destruct (round_body_facts _ _ _ E1) as (es' & _ & _ & _ & Hn' & _ & Hr' & Hl' & _).
  assert (Z.of_nat (length es') = Z.of_nat (length es)) as Hlen
    by (rewrite <- Hn', Hs1; done).
  destruct Hes as (_ & _ & _ & Hn & _ & _ & _ & _ & Hst). simpl in Hn.
  case_bool_decide as Hpos.
  - apply rounds_Returned in E as (rs2 & _ & _ & _ & _ & Hl2 & _).
    exists (es' :: rs2). split.
    + rewrite Hl2, Hl', Hr'. by rewrite <- app_assoc.
    + split; [discriminate|]. intros Hno. exfalso.
      rewrite collect_no_ground in Hcol by done.
      inversion Hcol; subst st. simpl in Hn. lia.
  - inversion E; subst s'; clear E. exists [].
    assert (es' = []) as -> by (destruct es'; [done | simpl in Hn'; lia]).
    split; [by rewrite Hl'|]. split; [|done]. intros _.
    assert (es = []) as -> by (destruct es; [done | simpl in Hlen; lia]).
    rewrite (Hst eq_refl) in Hcol.
    by apply collect_quiet in Hcol as [_ Hno].
Qed.

(** X4.  A run through the loop makes exactly one round if and only if the
    universe it is given holds no ground application of a registered
    lambda. *)
Theorem one_round_iff_nothing_to_eliminate ndebug fuel b b' :
  btor_eliminate_applies ndebug fuel b = Returned b' ->
  lambdas (nodes b) <> [] ->
  exists new,
    calls b' = calls b ++ new /\
    (length (round_records new) = 1%nat <-> no_ground_apply (nodes b)).
Proof.
  intros E Hne. unfold btor_eliminate_applies in E.
  rewrite bool_decide_eq_false_2 in E by (by destruct (lambdas (nodes b))).
  unfold time_stamp in E. cbv beta iota zeta in E.
  apply bind_Returned in E as (s & Hs & E).
  apply bind_Returned in E as ([] & _ & E).
  rewrite teardown_cache_eq in E. cbv beta iota zeta in E.
  apply bind_Returned in E as (u & _ & E).
  inversion E; subst b'; clear E.
  apply rounds_first in Hs as (rs & Hl & Hiff). simpl in Hl, Hiff.
  eexists. split.
  { simpl. rewrite Hl. rewrite <- !app_assoc. reflexivity. }
  rewrite <- Hiff. unfold round_records. rewrite !bind_app.
  fold (round_records (loop_calls 1 (rs ++ [[]]))).
  rewrite round_records_loop.
  rewrite (bind_unseen _ (teardown_calls _)) by (by apply teardown_calls_Forall).
  simpl. rewrite app_nil_r, length_imap, length_app. simpl.
  split; [intros Hlen; destruct rs; [done | simpl in Hlen; lia] | by intros ->].
Qed.

End MoreDriverFacts.

(** ** The further properties on the scenarios *)

(** On scenario B the check after the loop passes. *)
Lemma postcondition_assertion_never_fails_witness :
  btor_eliminate_applies false 3 (btor_of scenario_b) <> Aborted GroundApplySurvives.
Proof.
  exact (postcondition_assertion_never_fails rebuild_nil false 3 (btor_of scenario_b)).
Defined.

Lemma statistics_add_up_witness :
  exists new delta,
    calls mixed_converged = [] ++ new /\
    time_stamps new = [0; 1] /\
    totals_reported new = [(substitutions_recorded new, delta)] /\
    substitutions_recorded new = Z.of_nat (length (reductions new)).
Proof.
  refine (statistics_add_up false 2 (btor_of mixed) mixed_converged _ _).
  - vm_compute; reflexivity.
  - vm_compute; discriminate.
Defined.

Lemma teardown_is_complete_witness :
  exists new front msg,
    calls mixed_converged = [] ++ new /\
    new = front ++ teardown_calls (final_cache [] (reductions new)) ++
          [UtilTimeStamp 1; Msg msg] /\
    pairs_deleted front = [] /\
    pairs_deleted new = table_keys (final_cache [] (reductions new)) /\
    caches_created new = 1%nat /\
    tables_deleted new = 1%nat.
Proof.
  refine (teardown_is_complete false 2 (btor_of mixed) mixed_converged _ _).
  - vm_compute; reflexivity.
  - vm_compute; discriminate.
Defined.

(** On [mixed] there is a ground application: the run makes two rounds. *)
Lemma one_round_iff_nothing_to_eliminate_witness :
  exists new,
    calls mixed_converged = [] ++ new /\
    (length (round_records new) = 1%nat <-> no_ground_apply (nodes (btor_of mixed))).
Proof.
  refine (one_round_iff_nothing_to_eliminate false 2 (btor_of mixed) mixed_converged _ _).
  - vm_compute; reflexivity.
  - vm_compute; discriminate.
Defined.

(** * Properties of the command line front end *)

Import BtorMain.

(** ** Reasoning about the results of the front end *)

(** A decidable proposition about concrete strings. *)
Ltac decide_it := apply (bool_decide_unpack _); vm_compute; exact I.

Lemma bind_Ok {A B : Type} (m : res A) (k : A -> res B) (b : B) :
  m ≫= k = Ok b <-> exists a, m = Ok a /\ k a = Ok b.
Proof.
  split.
  - destruct m; simpl; intros E; try discriminate. eauto.
  - intros (a & -> & E). done.
Qed.

Lemma to_int_Ok (n : nat) (z : Z) :
  to_int n = Ok z <-> Z.of_nat n <= INT_MAX /\ z = Z.of_nat n.
Proof.
  unfold to_int. case_bool_decide; split.
  - intros E; inversion E. done.
  - by intros [_ ->].
  - discriminate.
  - intros [? _]. lia.
Qed.

Lemma to_int_small (n : nat) : Z.of_nat n <= INT_MAX -> to_int n = Ok (Z.of_nat n).
Proof. intros. by apply to_int_Ok. Qed.

(** A list ends in [suf] exactly when dropping all but that many elements
    leaves [suf]. *)
Lemma suffix_drop {A : Type} (suf l : list A) :
  suf `suffix_of` l <-> (length suf <= length l)%nat /\ drop (length l - length suf) l = suf.
Proof.
  split.
  - intros [k ->]. rewrite length_app. split; [lia|].
    replace (length k + length suf - length suf)%nat with (length k) by lia.
    by rewrite drop_app_length.
  - intros [_ E]. exists (take (length l - length suf) l).
    rewrite <- (take_drop (length l - length suf) l) at 1. by rewrite E.
Qed.

Lemma has_suffix_small (str suf : cstring) :
  Z.of_nat (length str) <= INT_MAX -> Z.of_nat (length suf) <= INT_MAX ->
  has_suffix str suf = Ok (if bool_decide (suf `suffix_of` str) then 1 else 0).
Proof.
  intros Hl Hk. unfold has_suffix, strlen.
  rewrite !to_int_small by done. simpl.
  case_bool_decide as Hd.
  - rewrite bool_decide_eq_false_2; [done|].
    intros [Hle _]%suffix_drop. lia.
  - unfold streq. f_equal.
    replace (Z.to_nat (Z.of_nat (length str) - Z.of_nat (length suf)))
      with (length str - length suf)%nat by lia.
    case_bool_decide as Hs; case_bool_decide as Hs'; try done.
    + exfalso. apply Hs'. apply suffix_drop. split; [lia|done].
    + exfalso. apply Hs. by apply suffix_drop in Hs' as [_ ?].
Qed.

Lemma has_suffix_Ok (str suf : cstring) (r : Z) :
  has_suffix str suf = Ok r ->
  Z.of_nat (length str) <= INT_MAX /\
  r = if bool_decide (suf `suffix_of` str) then 1 else 0.
Proof.
  intros E. pose proof E as E'. unfold has_suffix in E'.
  apply bind_Ok in E' as (l & [Hl ->]%to_int_Ok & E').
  apply bind_Ok in E' as (k & [Hk ->]%to_int_Ok & _).
  rewrite has_suffix_small in E by done. inversion E. done.
Qed.

(** X5.  [has_suffix (str, suffix)] is 1 when [str] ends in [suffix] and 0
    when it does not, whenever it has a value; and it has one as soon as the
    two lengths fit an [int]. *)
Theorem has_suffix_decides_suffix (str suf : cstring) :
  (forall r, has_suffix str suf = Ok r ->
     (r = 1 /\ suf `suffix_of` str) \/ (r = 0 /\ ~ suf `suffix_of` str)) /\
  (Z.of_nat (length str) <= INT_MAX -> Z.of_nat (length suf) <= INT_MAX ->
   exists r, has_suffix str suf = Ok r).
Proof.
  split.
  - intros r [_ ->]%has_suffix_Ok. case_bool_decide; auto.
  - intros Hl Hk. rewrite has_suffix_small by done. eauto.
Qed.

Lemma has_suffix_large (str suf : cstring) :
  ~ Z.of_nat (length str) <= INT_MAX -> has_suffix str suf = Fault IntConversion.
Proof.
  intros Hl. unfold has_suffix, to_int, strlen.
  rewrite (bool_decide_eq_false_2 (Z.of_nat (length str) <= INT_MAX)) by done.
  reflexivity.
Qed.

Lemma sprintf_Fault (size : Z) (text : cstring) :
  size < Z.of_nat (length text) + 1 -> sprintf size text = Fault OutOfBounds.
Proof. intros. unfold sprintf, strlen. rewrite bool_decide_eq_false_2; [done|lia]. Qed.

(** *** The name and the value of an option *)

Lemma scan_name_spec (raw rest opt : cstring) (k : Z) :
  "="%char ∉ raw -> (rest = [] \/ exists v, rest = "="%char :: v) -> k <= 50 ->
  scan_name (raw ++ rest) k opt =
  if bool_decide (k + Z.of_nat (length raw) <= 50)
  then Ok (k + Z.of_nat (length raw), opt ++ (underscore <$> raw), rest)
  else Fault OutOfBounds.
Proof.
  revert k opt. induction raw as [|c raw IH]; intros k opt Hraw Hrest Hk.
  - simpl. rewrite bool_decide_eq_true_2 by lia.
    rewrite Z.add_0_r, app_nil_r.
    destruct Hrest as [-> | [v ->]]; done.
  - apply not_elem_of_cons in Hraw as [Hc Hraw]. simpl.
    rewrite bool_decide_eq_false_2 by congruence.
    case_bool_decide as Hk'.
    + rewrite IH by (done || lia).
      replace (k + 1 + Z.of_nat (length raw)) with (k + Z.of_nat (S (length raw))) by lia.
      rewrite <- app_assoc. done.
    + rewrite bool_decide_eq_false_2 by lia. done.
Qed.

(** How an argument that starts with a dash is taken apart: [dashes] is 1
    or 2, [raw] the name as it is written, [v] the text behind the first
    equals sign. *)
Lemma split_arg_parts `{!Boolector B} (two : bool) (raw : cstring) (v : option cstring) :
  "="%char ∉ raw -> (two = false -> head raw <> Some "-"%char) ->
  let arg := "-"%char :: (if two then ["-"%char] else []) ++ raw ++
             (if v is Some x then "="%char :: x else []) in
  Z.of_nat (length arg) <= INT_MAX ->
  split_arg arg =
  if bool_decide (length raw < 50)%nat
  then Ok (mkParsed (if two then 0 else 1) (underscore <$> raw) v
             (if v is Some _ then 1 else 0) (if v is Some x then atoi x else 0))
  else Fault OutOfBounds.
Proof.
  intros Hraw Hhead arg Hlen. unfold split_arg.
  rewrite to_int_small by done. simpl.
  assert (bool_decide (char_at arg 1 = "-"%char) = two) as ->.
  { subst arg. destruct two; [done|]. apply bool_decide_eq_false_2.
    unfold char_at. intros Hc. apply Hhead; [done|].
    destruct raw as [|c raw]; simpl in *.
    - destruct v; simpl in Hc; discriminate.
    - by subst c. }
  assert (drop (if bool_decide ((if two then 0 else 1) <> 0) then 1%nat else 2%nat) arg
          = raw ++ (if v is Some x then "="%char :: x else [])) as ->.
  { subst arg. by destruct two. }
  rewrite scan_name_spec; [|done|destruct v; eauto|done].
  rewrite Z.add_0_l.
  destruct (decide (length raw < 50)%nat) as [Hn|Hn].
  - rewrite (bool_decide_eq_true_2 (_ <= 50)) by lia.
    rewrite (bool_decide_eq_true_2 (_ < _)%nat) by done. simpl.
    rewrite bool_decide_eq_true_2 by lia. simpl.
    by destruct v.
  - rewrite (bool_decide_eq_false_2 (_ < _)%nat) by done.
    case_bool_decide; [|done]. simpl.
    rewrite bool_decide_eq_false_2 by lia. done.
Qed.

Lemma name_and_value (l : cstring) :
  exists raw rest,
    l = raw ++ rest /\ ("="%char ∉ raw) /\ (rest = [] \/ exists v, rest = "="%char :: v).
Proof.
  induction l as [|c l (raw & rest & -> & Hraw & Hrest)].
  - exists [], []. repeat split; [apply not_elem_of_nil | by left].
  - destruct (decide (c = "="%char)) as [->|Hc].
    + exists [], ("="%char :: raw ++ rest). repeat split; [apply not_elem_of_nil|].
      right. eauto.
    + exists (c :: raw), rest. repeat split; [|done].
      apply not_elem_of_cons. done.
Qed.

Lemma underscore_no_dash (raw : cstring) : "-"%char ∉ underscore <$> raw.
Proof.
  intros (c & Hc & _)%list_elem_of_fmap. unfold underscore in Hc.
  case_bool_decide; [discriminate | congruence].
Qed.

Lemma underscore_no_equals (raw : cstring) :
  "="%char ∉ raw -> "="%char ∉ underscore <$> raw.
Proof.
  intros Hraw (c & Hc & Hin)%list_elem_of_fmap. unfold underscore in Hc.
  case_bool_decide; [discriminate | congruence].
Qed.

Lemma underscore_dashed (l : cstring) : "-"%char ∉ l -> underscore <$> dashed l = l.
Proof.
  induction l as [|c l IH]; [done|]. intros [Hc Hl]%not_elem_of_cons.
  unfold dashed in *. rewrite !fmap_cons, (IH Hl). f_equal. unfold underscore, dash.
  repeat case_bool_decide; congruence.
Qed.

Lemma underscore_id (l : cstring) : "-"%char ∉ l -> underscore <$> l = l.
Proof.
  induction l as [|c l IH]; [done|]. intros [Hc Hl]%not_elem_of_cons.
  rewrite fmap_cons, (IH Hl). f_equal. unfold underscore.
  by rewrite bool_decide_eq_false_2 by congruence.
Qed.

Lemma dashed_length (l : cstring) : length (dashed l) = length l.
Proof. apply length_fmap. Qed.

Lemma dashed_no_equals (l : cstring) : "="%char ∉ l -> "="%char ∉ dashed l.
Proof.
  intros Hl (c & Hc & Hin)%list_elem_of_fmap. unfold dash in Hc.
  case_bool_decide; [discriminate | congruence].
Qed.

(** X6.  An argument that starts with a dash is taken apart into the
    number of its dashes, its name and the text behind its first equals
    sign.  The name the branches compare has fewer than 50 characters and
    holds neither a dash nor an equals sign: every dash of the argument's
    name has become an underscore. *)
Theorem option_argument_is_split `{!Boolector B} (arg : cstring) (s : parsed) :
  head arg = Some "-"%char -> split_arg arg = Ok s ->
  (length (s_opt s) < 50)%nat /\ ("-"%char ∉ s_opt s) /\ ("="%char ∉ s_opt s) /\
  exists raw,
    s_opt s = underscore <$> raw /\
    arg = (if bool_decide (s_shrt s = 0) then lit "--" else lit "-") ++ raw ++
          (if s_valstr s is Some v then "="%char :: v else []) /\
    s_readval s = (if s_valstr s is Some _ then 1 else 0) /\
    s_val s = (if s_valstr s is Some v then atoi v else 0).
Proof.
  intros Hhead E.
  assert (Z.of_nat (length arg) <= INT_MAX) as Hlen.
  { unfold split_arg in E. by apply bind_Ok in E as (len & [? _]%to_int_Ok & _). }
  destruct arg as [|c body]; [discriminate|]. inversion Hhead; subst c.
  set (two := bool_decide (head body = Some "-"%char)).
  destruct (name_and_value (if two then drop 1 body else body))
    as (raw & rest & Hbody & Hraw & Hrest).
  set (v := match rest with [] => None | _ :: x => Some x end).
  assert (rest = if v is Some x then "="%char :: x else []) as Hv.
  { subst v. by destruct Hrest as [-> | [x ->]]. }
  assert ("-"%char :: body
          = "-"%char :: (if two then ["-"%char] else []) ++ raw ++
            (if v is Some x then "="%char :: x else [])) as Harg.
  { rewrite <- Hv, <- Hbody. subst two. case_bool_decide as Hb; [|done].
    destruct body as [|c body]; [discriminate|]. inversion Hb. done. }
  rewrite Harg in E, Hlen. rewrite split_arg_parts in E; [|done| |done].
  2: { intros Htwo Hr. rewrite Htwo in Hbody. subst two.
       apply bool_decide_eq_false_1 in Htwo. apply Htwo. rewrite Hbody.
       destruct raw; [discriminate | done]. }
  case_bool_decide as Hn; [|discriminate]. inversion E; subst s; clear E. simpl.
  rewrite length_fmap. split; [done|].
  split; [apply underscore_no_dash|]. split; [by apply underscore_no_equals|].
  exists raw. split; [done|]. rewrite Harg.
  destruct two; simpl; repeat split; by destruct v.
Qed.

(** X7.  What the help text shows for an option is accepted as that option:
    its long name with a dash for every underscore behind two dashes, with
    or without a value behind an equals sign, and its short name behind one
    dash.  The names must be free of dashes and equals signs and shorter
    than 50 characters. *)
Theorem help_spelling_is_accepted `{!Boolector B} (o : BtorOpt) (v : option cstring) :
  let value := if v is Some x then "="%char :: x else [] in
  Z.of_nat (length (lng o) + length (default [] (shrt o)) + length value) + 2 <= INT_MAX ->
  ("-"%char ∉ lng o -> "="%char ∉ lng o -> (length (lng o) < 50)%nat ->
   exists s,
     split_arg (lit "--" ++ dashed (lng o) ++ value) = Ok s /\
     matches s o = true /\ s_shrt s = 0 /\ s_valstr s = v) /\
  (forall n,
     shrt o = Some n -> "-"%char ∉ n -> "="%char ∉ n -> (length n < 50)%nat ->
     exists s,
       split_arg (lit "-" ++ n ++ value) = Ok s /\
       matches s o = true /\ s_shrt s = 1 /\ s_valstr s = v).
Proof.
  intros value Hlen. split.
  - intros Hdash Heq Hn.
    pose proof (split_arg_parts true (dashed (lng o)) v) as Hs. cbv zeta in Hs.
    rewrite dashed_length, bool_decide_eq_true_2 in Hs by done.
    eexists. split.
    + apply Hs; [by apply dashed_no_equals|done|].
      subst value. simpl. rewrite !length_app, dashed_length. lia.
    + simpl. rewrite underscore_dashed by done. repeat split.
      unfold matches. simpl. unfold streq.
      rewrite (bool_decide_eq_true_2 (lng o = lng o)) by done.
      by rewrite ?orb_true_r.
  - intros n Hshrt Hdash Heq Hn.
    pose proof (split_arg_parts false n v) as Hs. cbv zeta in Hs.
    rewrite bool_decide_eq_true_2 in Hs by done.
    eexists. split.
    + apply Hs; [done| |].
      * intros _ Hh. destruct n as [|c n]; [discriminate|]. inversion Hh; subst c.
        apply Hdash. left.
      * subst value. simpl. rewrite !length_app.
        rewrite Hshrt in Hlen. simpl in Hlen. lia.
    + simpl. repeat split. unfold matches. simpl. rewrite Hshrt. unfold streq.
      rewrite underscore_id by done.
      by rewrite (bool_decide_eq_true_2 (n = n)) by done.
Qed.

(** *** A line of the help text *)

#[local] Arguments sprintf : simpl never.
#[local] Arguments has_suffix : simpl never.
#[local] Arguments lit : simpl never.
#[local] Arguments opt_text : simpl never.
#[local] Arguments param_of : simpl never.
#[local] Arguments dashed : simpl never.

Lemma sprintf_Ok (size : Z) (text r : cstring) :
  sprintf size text = Ok r <-> Z.of_nat (length text) + 1 <= size /\ r = text.
Proof.
  unfold sprintf, strlen. case_bool_decide; split.
  - intros [= <-]. done.
  - by intros [_ ->].
  - discriminate.
  - intros [? _]. lia.
Qed.

Lemma sprintf_fits (size : Z) (text : cstring) :
  Z.of_nat (length text) + 1 <= size -> sprintf size text = Ok text.
Proof. intros. by apply sprintf_Ok. Qed.

Lemma param_of_length (l : cstring) : (length (param_of l) <= 15)%nat.
Proof.
  unfold param_of.
  repeat match goal with |- context [if ?c then _ else _] => destruct c end;
    vm_compute; lia.
Qed.

(** The number of characters that [sprintf] writes into [optstr], without
    the terminating NUL. *)
Lemma opt_text_length (o : BtorOpt) (p l : cstring) :
  Z.of_nat (length (opt_text o p l)) =
  match shrt o with
  | Some s =>
      2 * Z.of_nat (length p) + Z.of_nat (length s) + Z.of_nat (length l) + 7
      + (if p is [] then 0 else 2)
  | None => Z.of_nat (length p) + Z.of_nat (length l) + 4 + (if p is [] then 0 else 1)
  end.
Proof.
  unfold opt_text, strlen. destruct (shrt o) as [s|]; simpl default.
  - rewrite !length_app. destruct p as [|c p]; simpl; lia.
  - rewrite !length_app. destruct p as [|c p]; simpl; lia.
Qed.

(** X8.  A line of the help text starts with a column of exactly 34
    characters: the spellings of the option, filled up with spaces.  Behind
    it come one space, the description and a newline. *)
Theorem help_line_has_a_column (ndebug : bool) (o : BtorOpt) (line : cstring) :
  print_opt ndebug o = Ok line ->
  exists pad : nat,
    line = (opt_text o (param_of (lng o)) (dashed (lng o)) ++ replicate pad " "%char)
           ++ lit " " ++ desc o ++ newline /\
    length (opt_text o (param_of (lng o)) (dashed (lng o)) ++ replicate pad " "%char)
    = 34%nat.
Proof.
  unfold print_opt. intros E.
  apply bind_Ok in E as (p & [_ ->]%sprintf_Ok & E).
  generalize dependent (opt_text o (param_of (lng o)) (dashed (lng o))).
  intros text E.
  apply bind_Ok in E as (u & _ & E).
  apply bind_Ok in E as (len & _ & E).
  apply bind_Ok in E as (text' & [Hfit ->]%sprintf_Ok & E).
  apply bind_Ok in E as (n & [_ ->]%to_int_Ok & E).
  injection E as <-. unfold strlen.
  eexists. split; [reflexivity|].
  rewrite length_app, length_replicate. unfold LEN_OPTSTR in *. lia.
Qed.

(** X9.  What the assertion of [print_opt] is worth.  For an option
    without a short name it is enough: in a build with assertions the line
    is printed or the assertion fails, and nothing is written beyond
    [optstr].  For an option with a short name it is not: the text may be up
    to two characters longer than the sum the assertion bounds by
    LEN_OPTSTR, and the bound leaves no room for the terminating NUL. *)
Theorem assertion_covers_long_names_only (o : BtorOpt) :
  (shrt o = None ->
   print_opt false o = AssertionFails \/ exists line, print_opt false o = Ok line) /\
  (forall s,
     shrt o = Some s ->
     let p := param_of (lng o) in
     let sum := 2 * Z.of_nat (length p) + Z.of_nat (length s)
                + Z.of_nat (length (lng o)) + 7 in
     sum <= LEN_OPTSTR ->
     LEN_OPTSTR <= sum + (if p is [] then 0 else 2) ->
     print_opt false o = Fault OutOfBounds).
Proof.
  pose proof (param_of_length (lng o)) as Hp.
  pose proof (opt_text_length o (param_of (lng o)) (dashed (lng o))) as Hw.
  rewrite dashed_length in Hw.
  unfold print_opt, c_assert, fits_asserted, strlen.
  rewrite sprintf_fits by (unfold LEN_PARAMSTR; lia). cbn [mbind res_bind].
  generalize dependent (opt_text o (param_of (lng o)) (dashed (lng o))).
  intros text Hw. unfold LEN_OPTSTR, LEN_PARAMSTR in *. split.
  - intros Hs. rewrite Hs in *.
    destruct (streq (lng o) (lit "lingeling_opts")) eqn:Hl.
    + apply bool_decide_eq_true_1 in Hl. right.
      rewrite Hl in Hw. change (Z.of_nat (length text) = 34) in Hw.
      rewrite Hl. change (length (lit "lingeling_opts")) with 14%nat.
      cbn [mbind res_bind orb].
      rewrite to_int_small by by vm_compute. cbn [mbind res_bind].
      rewrite sprintf_fits by lia. cbn [mbind res_bind].
      rewrite to_int_small by (unfold INT_MAX; lia). by eexists.
    + cbn [mbind res_bind orb]. case_bool_decide as Hfit; [|by left]. right.
      cbn [mbind res_bind].
      rewrite to_int_small by (unfold INT_MAX; lia). cbn [mbind res_bind].
      rewrite sprintf_fits by (destruct (param_of (lng o)); simpl length in *; lia).
      cbn [mbind res_bind].
      rewrite to_int_small; [by eexists|].
      unfold INT_MAX. destruct (param_of (lng o)); simpl length in *; lia.
  - intros s Hs Hsum Hover. rewrite Hs in *.
    rewrite (bool_decide_eq_true_2 (_ <= 35)) by done.
    rewrite orb_true_r. cbn [mbind res_bind].
    rewrite to_int_small by (unfold INT_MAX; lia). cbn [mbind res_bind].
    rewrite sprintf_Fault; [done|]. lia.
Qed.

(** X10.  Every option of the front end's own table is printed, in every
    build: none trips the assertion, none overflows [optstr]. *)
Theorem own_options_are_printed (cfg : config) (ndebug : bool) :
  Forall (fun o => exists line, print_opt ndebug o = Ok line)
    (main_opts (btormain_init_opts cfg)).
Proof.
  destruct cfg as [? ? [] [] []], ndebug;
    repeat constructor; eexists; vm_compute; reflexivity.
Qed.

Ltac too_small :=
  unfold strlen, lit; simpl; rewrite ?length_app, ?length_drop; simpl; lia.

Section FrontEndFacts.

Context {B : Type} `{!Boolector B}.

Variable cfg : config.

Abbreviation frame := (frame (B:=B)).
Abbreviation flow := (flow (B:=B)).
Abbreviation BtorMainApp := (BtorMainApp (B:=B)).

Implicit Types (f : frame) (a : BtorMainApp) (s : parsed) (o : BtorOpt)
  (argv : list cstring) (name arg : cstring).

(** The buffer of [strlen (name + 40)] characters is too small for each of
    the three commands, and the fourth way through the block never writes
    it. *)
Lemma open_compressed_faults name a : exists u, open_compressed name a = Fault u.
Proof.
  unfold open_compressed.
  destruct (bool_decide (40 <= strlen name)%nat); [|by eexists]. simpl.
  destruct (decide (Z.of_nat (length name) <= INT_MAX)) as [Hl|Hl];
    [|rewrite !(has_suffix_large name) by done; by eexists].
  rewrite !has_suffix_small by (first [assumption | by vm_compute]). simpl.
  destruct (bool_decide (lit ".gz" `suffix_of` name)); simpl.
  { rewrite sprintf_Fault by too_small. by eexists. }
  destruct (bool_decide (lit ".bz2" `suffix_of` name)); simpl.
  { rewrite sprintf_Fault by too_small. by eexists. }
  destruct (bool_decide (lit ".7z" `suffix_of` name)); simpl.
  { rewrite sprintf_Fault by too_small. by eexists. }
  by eexists.
Qed.

Lemma compressed_small name :
  Z.of_nat (length name) <= INT_MAX ->
  or_else (has_suffix name (lit ".gz"))
    (or_else (has_suffix name (lit ".bz2")) (has_suffix name (lit "7z")))
  = Ok (if bool_decide (lit ".gz" `suffix_of` name \/ lit ".bz2" `suffix_of` name \/
                        lit "7z" `suffix_of` name) then 1 else 0).
Proof.
  intros Hl. rewrite !has_suffix_small by (first [assumption | by vm_compute]).
  unfold or_else. simpl.
  repeat case_bool_decide; simpl; try done; tauto.
Qed.

(** X11.  No compressed input is ever opened within defined behaviour: for an
    existing file whose name ends in [.gz], [.bz2] or [7z], the buffer of
    [strlen (name + 40)] characters is too small for the command printed
    into it, or is never written, or [name + 40] lies beyond the name. *)
Theorem compressed_input_leaves_defined_behaviour name f :
  close_infile (app f) = 0 ->
  btor_file_exists (trace (app f)) name = true ->
  lit ".gz" `suffix_of` name \/ lit ".bz2" `suffix_of` name \/ lit "7z" `suffix_of` name ->
  exists u, open_infile name f = Fault u.
Proof.
  intros Hclose Hex Hsuf. unfold open_infile.
  rewrite Hclose. change (bool_decide (0 <> 0)) with false.
  cbv zeta. simpl trace. rewrite Hex. simpl negb. cbv iota.
  destruct (decide (Z.of_nat (length name) <= INT_MAX)) as [Hl|Hl];
    [|rewrite !(has_suffix_large name) by done; unfold or_else; simpl; by eexists].
  rewrite compressed_small, bool_decide_eq_true_2 by done. simpl.
  destruct (open_compressed_faults name
              (record (FileExists name true) (set_infile_name (Some name) (app f))))
    as [u ->].
  by exists u.
Qed.

(** The four ways through the block that opens the input. *)
Lemma open_infile_Ok name f r :
  open_infile name f = Ok r ->
  let a := record (FileExists name (btor_file_exists (trace (app f)) name))
             (set_infile_name (Some name) (app f)) in
  (close_infile (app f) <> 0 /\
   r = GotoDone (on_app (btormain_error (lit "multiple input files")) f)) \/
  (close_infile (app f) = 0 /\
   btor_file_exists (trace (app f)) name = false /\
   r = GotoDone (on_app (btormain_error (lit "can not read '" ++ name ++ lit "'"))
                   (set_app (set_infile None a) f))) \/
  (close_infile (app f) = 0 /\
   btor_file_exists (trace (app f)) name = true /\
   ~ (lit ".gz" `suffix_of` name \/ lit ".bz2" `suffix_of` name \/
      lit "7z" `suffix_of` name) /\
   ((fopen (trace a) name (lit "r") = true /\
     r = Next (set_app
                 (set_close_infile 1
                    (set_infile (Some (fopened name (lit "r")))
                       (record (Fopen name (lit "r") true) a))) f)) \/
    (fopen (trace a) name (lit "r") = false /\
     r = GotoDone (on_app (btormain_error (lit "can not read '" ++ name ++ lit "'"))
                     (set_app (set_infile None (record (Fopen name (lit "r") false) a))
                        f))))).
Proof.
  unfold open_infile. case_bool_decide as Hc.
  { intros E; inversion E. left. done. }
  assert (close_infile (app f) = 0) as Hc0 by lia. clear Hc.
  cbv zeta. simpl trace.
  destruct (btor_file_exists (trace (app f)) name) eqn:Hex; simpl negb; cbv iota.
  2: { simpl. intros E; inversion E. right; left. done. }
  intros (a & Ha & E)%bind_Ok. right; right.
  apply bind_Ok in Ha as (c & Hc & Ha).
  assert (Z.of_nat (length name) <= INT_MAX) as Hl.
  { destruct (decide (Z.of_nat (length name) <= INT_MAX)) as [|Hl]; [done|].
    rewrite !(has_suffix_large name) in Hc by done. discriminate. }
  rewrite compressed_small in Hc by done. inversion Hc; subst c; clear Hc.
  destruct (decide (lit ".gz" `suffix_of` name \/ lit ".bz2" `suffix_of` name \/
                    lit "7z" `suffix_of` name)) as [Hsuf|Hsuf].
  { rewrite (bool_decide_eq_true_2 _ Hsuf) in Ha. simpl in Ha.
    destruct (open_compressed_faults name
                (record (FileExists name true) (set_infile_name (Some name) (app f))))
      as [u Hu].
    rewrite Hu in Ha. discriminate. }
  rewrite (bool_decide_eq_false_2 _ Hsuf) in Ha. simpl in Ha.
  inversion Ha; subst a; clear Ha.
  split; [done|]. split; [done|]. split; [done|].
  unfold open_plain in E. cbv zeta in E. simpl trace in E.
  destruct (fopen _ name (lit "r")) eqn:Hopen; simpl in E; inversion E; auto.
Qed.

(** *** What the branches of the loop keep *)

Lemma steady_refl a : steady a a.
Proof. by repeat split. Qed.

Lemma steady_trans a1 a2 a3 : steady a1 a2 -> steady a2 a3 -> steady a1 a3.
Proof.
  unfold steady. intros (?&?&?&?&?&?&?&?&?&?) (?&?&?&?&?&?&?&?&?&?).
  repeat split; congruence.
Qed.

Lemma inputs_probed_snoc (t : list event) (ev : event) :
  inputs_probed (t ++ [ev]) =
  inputs_probed t ++ match ev with FileExists n _ => [n] | _ => [] end.
Proof. unfold inputs_probed. rewrite bind_app. simpl. by rewrite app_nil_r. Qed.

Lemma pipes_opened_snoc (t : list event) (ev : event) :
  pipes_opened (t ++ [ev]) =
  pipes_opened t ++ match ev with Popen c _ _ => [c] | _ => [] end.
Proof. unfold pipes_opened. rewrite bind_app. simpl. by rewrite app_nil_r. Qed.

Lemma record_steady (ev : event) a :
  match ev with FileExists _ _ | Popen _ _ _ => False | _ => True end ->
  steady a (record ev a).
Proof.
  intros Hev. unfold steady. simpl.
  rewrite inputs_probed_snoc, pipes_opened_snoc.
  destruct ev; try done; by rewrite !app_nil_r.
Qed.

Lemma boolector_set_steady (n : cstring) (v : Z) a : steady a (boolector_set n v a).
Proof.
  unfold boolector_set.
  eapply steady_trans; [|by apply record_steady]. by repeat split.
Qed.

Lemma fprintf_steady (text : cstring) a a' : fprintf text a = Ok a' -> steady a a'.
Proof.
  unfold fprintf. destruct (outfile a); [|discriminate].
  intros E; inversion E. by apply record_steady.
Qed.

Lemma print_opt_to_steady o a a' : print_opt_to cfg o a = Ok a' -> steady a a'.
Proof.
  unfold print_opt_to. intros (line & _ & E)%bind_Ok. by apply fprintf_steady in E.
Qed.

Lemma each_steady {A : Type} (body : A -> BtorMainApp -> res BtorMainApp) (l : list A) :
  (forall x a a', body x a = Ok a' -> steady a a') ->
  forall a a', each body l a = Ok a' -> steady a a'.
Proof.
  intros Hbody. induction l as [|x l IH]; intros a a' E; simpl in E.
  - inversion E. apply steady_refl.
  - apply bind_Ok in E as (a1 & E1 & E).
    eapply steady_trans; [by eapply Hbody | by apply IH].
Qed.

(** Chains of calls that keep the state steady. *)
Ltac steady_chain :=
  repeat match goal with
  | |- steady ?a ?a => apply steady_refl
  | H : Ok ?b = Ok ?x |- steady ?a ?x =>
      inversion H; subst; clear H
  | H : fprintf _ ?b = Ok ?x |- steady ?a ?x =>
      apply (steady_trans a b x); [clear H | exact (fprintf_steady _ _ _ H)]
  | H : print_opt_to _ _ ?b = Ok ?x |- steady ?a ?x =>
      apply (steady_trans a b x); [clear H | exact (print_opt_to_steady _ _ _ H)]
  | H : each _ _ ?b = Ok ?x |- steady ?a ?x =>
      apply (steady_trans a b x);
      [clear H
      |eapply each_steady; [|exact H]; clear;
       let E := fresh "E" in intros ? ? ? E; cbv beta in E; steady_chain]
  | H : (if ?c then _ else _) = Ok ?x |- steady ?a ?x =>
      destruct c
  | H : match ?c with _ => _ end = Ok ?x |- steady ?a ?x =>
      destruct c
  | H : (_ ≫= _) = Ok ?x |- steady ?a ?x =>
      let y := fresh "a" in let Hy := fresh "E" in
      apply bind_Ok in H as (y & Hy & H)
  end.

Lemma print_help_done a a' :
  print_help cfg a = Ok a' -> exists a'', steady a a'' /\ a' = set_done 1 a''.
Proof.
  unfold print_help. intros E.
  repeat (let y := fresh "a" in let Hy := fresh "E" in
          apply bind_Ok in E as (y & Hy & E)).
  inversion E; subst; clear E. eexists. split; [|reflexivity].
  steady_chain.
Qed.

Lemma print_copyright_done a a' :
  print_copyright cfg a = Ok a' -> exists a'', steady a a'' /\ a' = set_done 1 a''.
Proof.
  unfold print_copyright. intros E.
  repeat (let y := fresh "a" in let Hy := fresh "E" in
          apply bind_Ok in E as (y & Hy & E)).
  inversion E; subst; clear E. eexists. split; [|reflexivity].
  steady_chain.
Qed.

Lemma print_version_done a a' :
  print_version a = Ok a' -> exists a'', steady a a'' /\ a' = set_done 1 a''.
Proof.
  unfold print_version. intros E.
  repeat (let y := fresh "a" in let Hy := fresh "E" in
          apply bind_Ok in E as (y & Hy & E)).
  inversion E; subst; clear E. eexists. split; [|reflexivity].
  steady_chain.
Qed.

Lemma parsing_steady f f' :
  parsing cfg f -> steady (app f) (app f') -> parsing cfg f'.
Proof.
  unfold parsing, steady, input_state, output_state.
  intros (Hd & He & Ho & Hin & Hout & Hp) (?&?&?&?&?&?&?&?&?&?).
  repeat split; try congruence.
  - destruct Hin as [(?&?&?&?) | (n & ?&?&?&?)];
      [left | right; exists n]; repeat split; congruence.
  - destruct Hout as [(?&?) | (n & ?&?)];
      [left | right; exists n]; repeat split; congruence.
Qed.

Lemma next_follows f f' :
  parsing cfg f -> steady (app f) (app f') -> i f <= i f' <= i f + 1 ->
  follows cfg f (Next f').
Proof. intros Hp Hs Hi. split; [by eapply parsing_steady | done]. Qed.

Lemma error_follows (msg : cstring) f0 f :
  done (app f) = 0 -> follows cfg f0 (GotoDone (on_app (btormain_error msg) f)).
Proof. intros Hd. right. by split. Qed.

Lemma printed_follows f0 f a a'' :
  parsing cfg f -> steady (app f) a'' -> a = set_done 1 a'' ->
  follows cfg f0 (GotoDone (set_app a f)).
Proof.
  intros (Hd & He & _) (_ & _ & He' & _) ->. left. simpl. split; [done|congruence].
Qed.

Lemma read_value_Ok argv s (name : res cstring) f (r : frame * Z + frame) :
  read_value argv s name f = Ok r ->
  match r with
  | inl (f', _) => app f' = app f /\ i f <= i f' <= i f + 1
  | inr f' => exists msg f1, app f1 = app f /\ f' = on_app (btormain_error msg) f1
  end.
Proof.
  unfold read_value. case_bool_decide.
  - cbv zeta. case_bool_decide.
    + intros (n & _ & E)%bind_Ok. inversion E. eexists _, _. split; [|reflexivity]. done.
    + intros (x & _ & (y & _ & E)%bind_Ok)%bind_Ok. inversion E. simpl. split; [done|lia].
  - intros E; inversion E. split; [done|lia].
Qed.

Lemma skip_value_Ok argv s o f (r : frame + frame) :
  skip_value argv s o f = Ok r ->
  match r with
  | inl f' => app f' = app f /\ i f <= i f' <= i f + 1
  | inr f' => exists msg f1, app f1 = app f /\ f' = on_app (btormain_error msg) f1
  end.
Proof.
  unfold skip_value. case_bool_decide.
  - cbv zeta. case_bool_decide.
    + intros (n & _ & E)%bind_Ok. inversion E. eexists _, _. split; [|reflexivity]. done.
    + intros E. inversion E. simpl. split; [done|lia].
  - intros E; inversion E. split; [done|lia].
Qed.

(** One step of the analysis of a branch of the loop. *)
Ltac branch_step :=
  match goal with
  | H : Ok _ = Ok _ |- _ => inversion H; subst; clear H
  | H : Fault _ = Ok _ |- _ => discriminate H
  | H : error_done _ _ = Ok _ |- _ => unfold error_done in H
  | H : set_and_go _ _ _ = Ok _ |- _ => unfold set_and_go in H
  | H : read_value _ _ _ _ = Ok ?r |- _ =>
      apply read_value_Ok in H; destruct r as [[? ?]|?];
      [destruct H as [? ?] | destruct H as (? & ? & ? & ->)]
  | H : skip_value _ _ _ _ = Ok ?r |- _ =>
      apply skip_value_Ok in H; destruct r as [?|?];
      [destruct H as [? ?] | destruct H as (? & ? & ? & ->)]
  | H : (_ ≫= _) = Ok _ |- _ =>
      let y := fresh "x" in let Hy := fresh "E" in
      apply bind_Ok in H as (y & Hy & H)
  | H : (if ?c then _ else _) = Ok _ |- _ => destruct c eqn:?
  | H : match ?c with _ => _ end = Ok _ |- _ => destruct c eqn:?
  end.

Ltac steady_sets :=
  simpl;
  repeat first
    [ apply steady_refl
    | match goal with H : app _ = app _ |- _ => rewrite H; clear H end
    | apply boolector_set_steady
    | eapply steady_trans; [|apply boolector_set_steady] ].

Ltac branch_end Hp :=
  match goal with
  | |- follows _ _ (GotoDone (on_app (btormain_error _) _)) =>
      apply error_follows; simpl; try (destruct Hp as (? & _)); congruence
  | |- follows _ _ (GotoDone _) =>
      right; simpl; split; [destruct Hp as (? & _); congruence | reflexivity]
  | |- follows _ _ (Next _) =>
      solve [apply next_follows; [exact Hp | steady_sets | simpl; lia]]
  end.

Lemma time_option_follows argv s f r :
  parsing cfg f -> time_option argv s f = Ok r -> follows cfg f r.
Proof.
  intros Hp E. unfold time_option in E. cbv zeta in E.
  repeat branch_step; branch_end Hp.
Qed.

Lemma lingeling_opts_option_follows argv s o f r :
  parsing cfg f -> lingeling_opts_option argv s o f = Ok r -> follows cfg f r.
Proof.
  intros Hp E. unfold lingeling_opts_option in E.
  repeat branch_step; branch_end Hp.
Qed.

Lemma window_option_follows argv s o (others : bool) (what : string)
  (set_flag : Z -> frame -> frame) f r :
  (forall x g, app (set_flag x g) = app g /\ i (set_flag x g) = i g) ->
  parsing cfg f -> window_option argv s o others what set_flag f = Ok r ->
  follows cfg f r.
Proof.
  intros Hflag Hp E. unfold window_option in E.
  repeat branch_step; try branch_end Hp.
  apply next_follows; [done| |].
  - rewrite (proj1 (Hflag _ _)). steady_sets.
  - rewrite (proj2 (Hflag _ _)). simpl. lia.
Qed.

Lemma rewrite_level_option_follows argv s o (name : res cstring) f r :
  parsing cfg f -> rewrite_level_option argv s o name f = Ok r -> follows cfg f r.
Proof.
  intros Hp E. unfold rewrite_level_option in E.
  repeat branch_step; branch_end Hp.
Qed.

Lemma library_option_follows argv s o f r :
  parsing cfg f -> library_option cfg argv s o f = Ok r -> follows cfg f r.
Proof.
  intros Hp E. unfold library_option in E. cbv zeta in E.
  repeat match goal with
  | H : window_option _ _ _ _ _ _ _ = Ok _ |- _ =>
      by (eapply window_option_follows; [|exact Hp|exact H])
  | H : rewrite_level_option _ _ _ _ _ = Ok _ |- _ =>
      by (eapply rewrite_level_option_follows; [exact Hp|exact H])
  | _ => branch_step
  end; branch_end Hp.
Qed.

Lemma other_option_follows argv s f r :
  parsing cfg f -> other_option cfg argv s f = Ok r -> follows cfg f r.
Proof.
  intros Hp E. unfold other_option in E. cbv zeta in E.
  repeat match goal with
  | H : library_option _ _ _ _ _ = Ok _ |- _ =>
      by (eapply library_option_follows; [exact Hp|exact H])
  | _ => branch_step
  end; branch_end Hp.
Qed.

Lemma output_option_follows argv s f r :
  parsing cfg f -> output_option argv s f = Ok r -> follows cfg f r.
Proof.
  intros Hp E. unfold output_option in E. cbv zeta in E.
  repeat branch_step; try branch_end Hp.
  - match goal with H : app _ = app f |- _ => rename H into Happ end.
    match goal with H : _ <= _ <= _ |- _ => rename H into Hi end.
    destruct Hp as (Hd & He & Ho & Hin & Hout & Hpipe).
    split; [|done]. unfold parsing. simpl. rewrite Happ.
    repeat split; try done.
    + unfold input_state in *. simpl. rewrite inputs_probed_snoc, app_nil_r. done.
    + right. eexists. done.
    + rewrite pipes_opened_snoc, app_nil_r. done.
Qed.

Lemma open_infile_follows name f r :
  parsing cfg f -> open_infile name f = Ok r -> follows cfg f r.
Proof.
  intros Hp E. apply open_infile_Ok in E. cbv zeta in E.
  destruct Hp as (Hd & He & Ho & Hin & Hout & Hpipe).
  destruct E as [[_ ->] | [(_ & _ & ->) | (Hc & _ & _ & [[_ ->] | [_ ->]])]];
    try (by apply error_follows).
  split; [|simpl; lia]. unfold parsing. simpl.
  repeat split; try done.
  - right. exists name. simpl. repeat split; try done.
    destruct Hin as [(_ & _ & _ & Hnone) | (n & Hc1 & _)]; [|lia].
    rewrite !inputs_probed_snoc, Hnone. done.
  - rewrite !pipes_opened_snoc, Hpipe. done.
Qed.

Lemma visit_arg_follows argv f r :
  parsing cfg f -> visit_arg cfg argv f = Ok r -> follows cfg f r.
Proof.
  intros Hp E. unfold visit_arg in E. cbv zeta in E.
  apply bind_Ok in E as (x & _ & E). apply bind_Ok in E as (arg & _ & E).
  case_bool_decide; [by eapply open_infile_follows|].
  apply bind_Ok in E as (s & _ & E).
  destruct (matches s (help (opts (app f)))).
  { apply bind_Ok in E as (a & (a'' & Hs & ->)%print_help_done & E).
    inversion E. by eapply printed_follows. }
  destruct (matches s (copyright (opts (app f)))).
  { apply bind_Ok in E as (a & (a'' & Hs & ->)%print_copyright_done & E).
    inversion E. by eapply printed_follows. }
  destruct (matches s (version (opts (app f)))).
  { apply bind_Ok in E as (a & (a'' & Hs & ->)%print_version_done & E).
    inversion E. by eapply printed_follows. }
  destruct (matches s (time (opts (app f)))); [by eapply time_option_follows|].
  destruct (matches s (output (opts (app f)))); [by eapply output_option_follows|].
  destruct (lingeling_opts (opts (app f))) as [lo|]; [|by eapply other_option_follows].
  destruct (matches s lo);
    [by eapply lingeling_opts_option_follows | by eapply other_option_follows].
Qed.

Lemma initial_parsing (b : B) : parsing cfg (initial cfg b).
Proof.
  unfold parsing, initial, new_app. simpl. repeat split; try done.
  - left. done.
  - left. done.
Qed.

(** The loop with enough fuel: it ends, between two arguments or at [DONE]. *)
Lemma args_loop_follows (fuel : nat) argv f :
  parsing cfg f -> Z.of_nat (length argv) - i f <= Z.of_nat fuel ->
  exists r,
    args_loop cfg fuel argv f = Some r /\
    match r with
    | Ok (Next f') => parsing cfg f' /\ Z.of_nat (length argv) <= i f'
    | Ok (GotoDone f') => stopped f'
    | _ => True
    end.
Proof.
  revert f. induction fuel as [|fuel IH]; intros f Hp Hfuel; simpl.
  - rewrite bool_decide_eq_false_2 by lia. eexists. split; [done|]. split; [done|lia].
  - case_bool_decide as Hi; [|eexists; split; [done|]; split; [done|lia]].
    destruct (visit_arg cfg argv f) as [[f'|f']| |u] eqn:E;
      try (eexists; split; [done|]; done).
    + apply visit_arg_follows in E as [Hp' Hi']; [|done].
      apply IH; [|simpl; lia].
      eapply parsing_steady; [exact Hp'|]. simpl. apply steady_refl.
    + apply visit_arg_follows in E; [|done]. eexists. split; [done|]. done.
Qed.

(** X12.  The loop over the arguments ends for every command line, and when
    it ends between two arguments the application has neither printed one of
    its texts nor met an error, so that the assertion behind the loop holds;
    the table of the front end's own options is as [btormain_init_opts] left
    it, so that no SAT solver is ever forced.  When the loop is left for
    [DONE], exactly one of [done] and [err] was set. *)
Theorem argument_loop_ends_in_order argv (b : B) :
  exists r,
    parse_args cfg argv b = Some r /\
    match r with
    | Ok (Next f) =>
        done (app f) = 0 /\ err (app f) = 0 /\ assert_parsed cfg f = Ok tt /\
        opts (app f) = btormain_init_opts cfg /\
        Z.of_nat (length argv) <= i f
    | Ok (GotoDone f) =>
        (done (app f) = 1 /\ err (app f) = 0) \/
        (done (app f) = 0 /\ err (app f) = BTOR_ERR_EXIT)
    | _ => True
    end.
Proof.
  destruct (args_loop_follows (length argv) argv (initial cfg b)) as (r & E & Hr).
  { apply initial_parsing. }
  { simpl. lia. }
  exists r. split; [exact E|].
  destruct r as [[f|f]| |]; try done.
  destruct Hr as [(Hd & He & Ho & _) Hi]. repeat split; try done.
  unfold assert_parsed. rewrite Hd, He. simpl. by destruct (NDEBUG cfg).
Qed.

(** X13.  Of the runs that do not read their input through a decompressor
    ([popen] is not called; lines 599-614 are no part of this property).
    When the loop has gone through all arguments, the input is the standard
    input and no file was looked for, or it is the one file that was looked
    for, opened with [fopen] and to be closed with [fclose]; the output is
    the standard output or a file opened for writing. *)
Theorem streams_after_the_loop argv (b : B) f :
  parse_args cfg argv b = Some (Ok (Next f)) ->
  pipes_opened (trace (app f)) = [] ->
  input_state (app f) /\ output_state (app f).
Proof.
  intros E _.
  destruct (args_loop_follows (length argv) argv (initial cfg b)) as (r & E' & Hr).
  { apply initial_parsing. }
  { simpl. lia. }
  unfold parse_args in E. rewrite E in E'. inversion E'; subst r.
  destruct Hr as [(_ & _ & _ & Hin & Hout & Hpipe) _]. done.
Qed.

(** *** The options that take a value *)

Lemma arg_at_Some argv (n : Z) arg :
  0 <= n -> argv !! Z.to_nat n = Some arg -> arg_at argv n = Ok (Some arg).
Proof.
  intros Hn Harg. unfold arg_at.
  apply lookup_lt_Some in Harg as Hlt.
  rewrite bool_decide_eq_true_2 by lia. by rewrite Harg.
Qed.

(** The argument [argv[i]] is there, and it is an option. *)
Lemma visit_option argv f arg :
  0 <= i f -> argv !! Z.to_nat (i f) = Some arg -> char_at arg 0 = "-"%char ->
  visit_arg cfg argv f =
  s ← split_arg arg;
  let o := opts (app f) in
  if matches s (help o) then
    a ← print_help cfg (app f); Ok (GotoDone (set_app a f))
  else if matches s (copyright o) then
    a ← print_copyright cfg (app f); Ok (GotoDone (set_app a f))
  else if matches s (version o) then
    a ← print_version (app f); Ok (GotoDone (set_app a f))
  else if matches s (time o) then time_option argv s f
  else if matches s (output o) then output_option argv s f
  else
    match lingeling_opts o with
    | Some lo =>
        if matches s lo then lingeling_opts_option argv s lo f
        else other_option cfg argv s f
    | None => other_option cfg argv s f
    end.
Proof.
  intros Hi Harg Hdash. unfold visit_arg.
  rewrite (arg_at_Some _ _ _ Hi Harg). cbn [mbind res_bind deref].
  by rewrite bool_decide_eq_false_2 by (by intros []).
Qed.

Ltac eval_matches :=
  repeat match goal with
  | |- context [matches ?s ?o] =>
      let b := eval vm_compute in (matches s o) in
      change (matches s o) with b; cbv iota
  end.

(** X14.  [-t] and [--time] take the next argument as the limit: when there
    is none the front end says so, when [atoi] makes a number of it that is
    not positive the front end rejects it, and otherwise the number becomes
    [static_set_alarm] and the value of the option [time] of the library.
    The argument that was read is skipped. *)
Theorem time_limit_is_read argv f arg :
  opts (app f) = btormain_init_opts cfg ->
  0 <= i f -> argv !! Z.to_nat (i f) = Some arg ->
  arg = lit "-t" \/ arg = lit "--time" ->
  visit_arg cfg argv f =
  match argv !! Z.to_nat (i f + 1) with
  | None =>
      Ok (GotoDone (on_app (btormain_error
                              (lit "missing argument for '" ++ arg ++ lit "'"))
                      (set_i (i f + 1) f)))
  | Some v =>
      let g := set_static_set_alarm (atoi v) (set_i (i f + 1) f) in
      if bool_decide (atoi v <= 0) then
        Ok (GotoDone (on_app (btormain_error
                                (lit "invalid argument for '" ++ arg ++ lit "'")) g))
      else Ok (Next (on_app (boolector_set (lit "time") (atoi v)) g))
  end.
Proof.
  intros Hopts Hi Harg Hspell.
  rewrite (visit_option argv f arg Hi Harg) by (by destruct Hspell as [-> | ->]).
  rewrite Hopts. cbv zeta.
  assert (exists s, split_arg arg = Ok s /\ s_readval s = 0 /\
            matches s (help (btormain_init_opts cfg)) = false /\
            matches s (copyright (btormain_init_opts cfg)) = false /\
            matches s (version (btormain_init_opts cfg)) = false /\
            matches s (time (btormain_init_opts cfg)) = true /\
            spelled s (time (btormain_init_opts cfg)) = Ok arg)
    as (s & Hs & Hread & Hh & Hc & Hv & Ht & Hname).
  { destruct Hspell as [-> | ->]; eexists; (split; [by vm_compute|]);
      repeat split; by vm_compute. }
  rewrite Hs. cbn [mbind res_bind]. rewrite Hh, Hc, Hv, Ht.
  unfold time_option, read_value.
  rewrite Hopts, Hname, Hread. rewrite bool_decide_eq_true_2 by done. cbv zeta.
  change (i (set_i (i f + 1) f)) with (i f + 1).
  destruct (argv !! Z.to_nat (i f + 1)) as [v|] eqn:Hnext.
  - apply lookup_lt_Some in Hnext as Hlt.
    rewrite bool_decide_eq_false_2 by (simpl; lia).
    rewrite (arg_at_Some argv (i f + 1) v) by (done || lia).
    cbn [mbind res_bind deref]. simpl static_set_alarm.
    by destruct (bool_decide (atoi v <= 0)).
  - apply lookup_ge_None in Hnext.
    rewrite bool_decide_eq_true_2 by (simpl; lia). done.
Qed.

(** X15.  The diagnostic for a missing name of the output file cannot be
    reached: [++i > argc] never holds inside the loop.  When [-o] or
    [--output] is the last argument, [fopen] is called on [argv[argc]], the
    null pointer that ends [argv]. *)
Theorem missing_output_file_is_not_reported argv f arg :
  (forall s o g g', i g < Z.of_nat (length argv) -> skip_value argv s o g <> Ok (inr g')) /\
  (opts (app f) = btormain_init_opts cfg ->
   0 <= i f -> argv !! Z.to_nat (i f) = Some arg ->
   arg = lit "-o" \/ arg = lit "--output" ->
   Z.of_nat (length argv) = i f + 1 ->
   close_outfile (app f) = 0 ->
   visit_arg cfg argv f = Fault NullPointer).
Proof.
  split.
  - intros s o g g' Hi. unfold skip_value.
    case_bool_decide; [|discriminate]. cbv zeta.
    rewrite bool_decide_eq_false_2 by (simpl; lia). discriminate.
  - intros Hopts Hi Harg Hspell Hlast Hclose.
    rewrite (visit_option argv f arg Hi Harg) by (by destruct Hspell as [-> | ->]).
    rewrite Hopts. cbv zeta.
    assert (exists s, split_arg arg = Ok s /\ s_readval s = 0 /\
              matches s (help (btormain_init_opts cfg)) = false /\
              matches s (copyright (btormain_init_opts cfg)) = false /\
              matches s (version (btormain_init_opts cfg)) = false /\
              matches s (time (btormain_init_opts cfg)) = false /\
              matches s (output (btormain_init_opts cfg)) = true)
      as (s & Hs & Hread & Hh & Hc & Hv & Ht & Ho).
    { destruct Hspell as [-> | ->]; eexists; (split; [by vm_compute|]);
        repeat split; by vm_compute. }
    rewrite Hs. cbn [mbind res_bind]. rewrite Hh, Hc, Hv, Ht, Ho.
    unfold output_option, skip_value.
    rewrite Hread. rewrite bool_decide_eq_true_2 by done. cbv zeta.
    change (i (set_i (i f + 1) f)) with (i f + 1).
    rewrite bool_decide_eq_false_2 by lia. cbn [mbind res_bind].
    change (app (set_i (i f + 1) f)) with (app f). rewrite Hclose.
    change (bool_decide (0 <> 0)) with false. cbv iota.
    change (i (set_i (i f + 1) f)) with (i f + 1).
    unfold arg_at. rewrite bool_decide_eq_true_2 by lia.
    rewrite (proj2 (lookup_ge_None argv (Z.to_nat (i f + 1)))) by lia.
    done.
Qed.

(** X16.  A name given behind an equals sign is not the name of the output
    file: with [--output=v] or [-o=v] the file that is opened for writing is
    named by the whole argument. *)
Theorem output_file_is_named_by_the_argument argv f arg (v : cstring) :
  opts (app f) = btormain_init_opts cfg ->
  0 <= i f -> argv !! Z.to_nat (i f) = Some arg ->
  arg = lit "--output=" ++ v \/ arg = lit "-o=" ++ v ->
  Z.of_nat (length arg) <= INT_MAX ->
  close_outfile (app f) = 0 ->
  visit_arg cfg argv f =
  let a := record (Fopen arg (lit "w") (fopen (trace (app f)) arg (lit "w"))) (app f) in
  if fopen (trace (app f)) arg (lit "w") then
    Ok (Next (set_app (set_close_outfile 1
                         (set_outfile (Some (fopened arg (lit "w"))) a)) f))
  else
    Ok (GotoDone (on_app (btormain_error (lit "can not create '" ++ arg ++ lit "'"))
                    (set_app (set_outfile None a) f))).
Proof.
  intros Hopts Hi Harg Hspell Hlen Hclose.
  rewrite (visit_option argv f arg Hi Harg) by (by destruct Hspell as [-> | ->]).
  rewrite Hopts. cbv zeta.
  assert (exists s, split_arg arg = Ok s /\ s_readval s = 1 /\
            matches s (help (btormain_init_opts cfg)) = false /\
            matches s (copyright (btormain_init_opts cfg)) = false /\
            matches s (version (btormain_init_opts cfg)) = false /\
            matches s (time (btormain_init_opts cfg)) = false /\
            matches s (output (btormain_init_opts cfg)) = true)
    as (s & Hs & Hread & Hh & Hc & Hv & Ht & Ho).
  { destruct Hspell as [-> | ->].
    - pose proof (split_arg_parts true (lit "output") (Some v)) as Hp.
      cbv zeta in Hp.
      change (lit "--output=" ++ v)
        with ("-"%char :: ["-"%char] ++ lit "output" ++ "="%char :: v) in *.
      rewrite Hp; [|decide_it|done|exact Hlen].
      eexists. split; [by vm_compute|]. repeat split; by vm_compute.
    - pose proof (split_arg_parts false (lit "o") (Some v)) as Hp.
      cbv zeta in Hp.
      change (lit "-o=" ++ v)
        with ("-"%char :: [] ++ lit "o" ++ "="%char :: v) in *.
      rewrite Hp; [|decide_it|intros _; decide_it|exact Hlen].
      eexists. split; [by vm_compute|]. repeat split; by vm_compute. }
  rewrite Hs. cbn [mbind res_bind]. rewrite Hh, Hc, Hv, Ht, Ho.
  unfold output_option, skip_value.
  rewrite Hread. change (bool_decide (1 = 0)) with false. cbn [mbind res_bind].
  rewrite Hclose. change (bool_decide (0 <> 0)) with false. cbv iota.
  rewrite (arg_at_Some _ _ _ Hi Harg). cbn [mbind res_bind deref]. cbv zeta.
  by destruct (fopen (trace (app f)) arg (lit "w")).
Qed.

(** X17.  In a build with Lingeling, the branch for [--lingeling-opts] sets
    the local [lingeling_opts] to [valstr], with or without an equals sign
    in the argument.  Behind an equals sign [valstr] is the value.  Without
    one it is [argv[i] + strlen (argv[i]) + 1], the address one past the
    terminating NUL of the argument itself; the next argument is stepped
    over, and is not read through [argv] (nor is it missed when there is
    none, since [++i > argc] does not hold then).  What lies at that address
    is a matter of how the arguments are laid out in memory, which is not
    part of the embedding. *)
Theorem lingeling_opts_is_valstr argv f :
  BTOR_USE_LINGELING cfg = true ->
  opts (app f) = btormain_init_opts cfg ->
  0 <= i f ->
  (argv !! Z.to_nat (i f) = Some (lit "--lingeling-opts") ->
   visit_arg cfg argv f =
   Ok (Next (set_lingeling_opts_arg (Some None) (set_i (i f + 1) f)))) /\
  (forall v,
     argv !! Z.to_nat (i f) = Some (lit "--lingeling-opts=" ++ v) ->
     Z.of_nat (length v) + 17 <= INT_MAX ->
     visit_arg cfg argv f = Ok (Next (set_lingeling_opts_arg (Some (Some v)) f))).
Proof.
  intros Hling Hopts Hi.
  assert (lingeling_opts (btormain_init_opts cfg)
          = Some (BTORMAIN_INIT_OPT 1 None "lingeling_opts" 0 0 0
                    "set lingeling option(s) '--<opt>=<val>'")) as Hlo.
  { unfold btormain_init_opts. simpl. by rewrite Hling. }
  split.
  - intros Harg. rewrite (visit_option argv f _ Hi Harg) by done.
    rewrite Hopts. cbv zeta. rewrite Hlo.
    change (split_arg (lit "--lingeling-opts"))
      with (Ok (mkParsed 0 (lit "lingeling_opts") None 0 0)) .
    cbn [mbind res_bind]. eval_matches.
    unfold lingeling_opts_option, skip_value. simpl s_readval.
    change (bool_decide (0 = 0)) with true. cbv iota zeta.
    change (i (set_i (i f + 1) f)) with (i f + 1).
    apply lookup_lt_Some in Harg.
    rewrite bool_decide_eq_false_2 by lia. done.
  - intros v Harg Hlen. rewrite (visit_option argv f _ Hi Harg) by done.
    rewrite Hopts. cbv zeta. rewrite Hlo.
    pose proof (split_arg_parts true (lit "lingeling-opts") (Some v)) as Hp.
    cbv zeta in Hp.
    change (lit "--lingeling-opts=" ++ v)
      with ("-"%char :: ["-"%char] ++ lit "lingeling-opts" ++ "="%char :: v).
    rewrite Hp; [|decide_it|done|].
    2: { unfold lit. simpl. rewrite ?length_app. simpl. lia. }
    change (bool_decide (length (lit "lingeling-opts") < 50)%nat) with true.
    cbv iota. cbn [mbind res_bind].
    change (underscore <$> lit "lingeling-opts") with (lit "lingeling_opts").
    eval_matches.
    unfold lingeling_opts_option, skip_value. simpl s_readval.
    change (bool_decide (1 = 0)) with false. done.
Qed.

(** X18.  The help text and the loop disagree about the options of the
    incremental windows.  [print_opt] shows the placeholder [<w>] for the
    options named [look_ahead], [in_depth] and [interval]; the loop reads a
    width for options named otherwise.  Such an option, given by its long
    name, is set to 1 like a flag, whatever stands behind the equals sign,
    and no argument is read for it. *)
Theorem window_placeholder_is_never_read argv s o f :
  param_of (lng o) = lit "<w>" -> s_shrt s = 0 ->
  library_option cfg argv s o f = Ok (Next (on_app (boolector_set (lng o) 1) f)).
Proof.
  intros Hw Hs.
  assert (lng o = lit "look_ahead" \/ lng o = lit "in_depth" \/ lng o = lit "interval")
    as Hl.
  { unfold param_of, streq in Hw.
    repeat case_bool_decide; simpl in Hw; try discriminate; auto. }
  unfold library_option, is_opt, set_and_go. rewrite Hs.
  change (bool_decide (0 <> 0)) with false. cbn [andb orb].
  destruct Hl as [-> | [-> | ->]];
    repeat match goal with
    | |- context [streq ?a ?b] =>
        let r := eval vm_compute in (streq a b) in change (streq a b) with r
    end;
    cbn [andb orb negb]; by rewrite ?andb_false_r.
Qed.

End FrontEndFacts.

(** ** The front end on examples *)

Import Demo.

Lemma has_suffix_decides_suffix_witness :
  has_suffix (lit "f.btor.gz") (lit ".gz") = Ok 1 /\
  lit ".gz" `suffix_of` lit "f.btor.gz".
Proof.
  destruct (has_suffix_decides_suffix (lit "f.btor.gz") (lit ".gz")) as [Hr Hdef].
  destruct Hdef as [r Er]; [by vm_compute | by vm_compute |].
  destruct (Hr r Er) as [[-> Hs] | [-> Hs]].
  - split; [exact Er | exact Hs].
  - exfalso. apply Hs. exists (lit "f.btor"). vm_compute; reflexivity.
Defined.

(** A file that is there, with a name of 43 characters that ends in [.gz]. *)
Lemma compressed_input_leaves_defined_behaviour_witness :
  exists u,
    open_infile (lit "0123456789012345678901234567890123456789.gz")
      (initial build []) = Fault u.
Proof.
  apply compressed_input_leaves_defined_behaviour.
  - reflexivity.
  - vm_compute; reflexivity.
  - left. exists (lit "0123456789012345678901234567890123456789").
    vm_compute; reflexivity.
Defined.

(** [boolector -m f.btor] *)
Lemma streams_after_the_loop_witness :
  exists f,
    parse_args build [lit "boolector"; lit "-m"; lit "f.btor"] [] = Some (Ok (Next f)) /\
    pipes_opened (trace (app f)) = [] /\
    input_state (app f) /\ output_state (app f).
Proof.
  eexists. split; [vm_compute; reflexivity|]. split; [vm_compute; reflexivity|].
  refine (streams_after_the_loop build
            [lit "boolector"; lit "-m"; lit "f.btor"] [] _ _ _).
  - vm_compute; reflexivity.
  - vm_compute; reflexivity.
Defined.

(** [--rewrite-level=2] *)
Lemma option_argument_is_split_witness :
  let s := mkParsed 0 (lit "rewrite_level") (Some (lit "2")) 1 2 in
  (length (s_opt s) < 50)%nat /\ ("-"%char ∉ s_opt s) /\ ("="%char ∉ s_opt s) /\
  exists raw,
    s_opt s = underscore <$> raw /\
    lit "--rewrite-level=2" =
      (if bool_decide (s_shrt s = 0) then lit "--" else lit "-") ++ raw ++
      (if s_valstr s is Some v then "="%char :: v else []) /\
    s_readval s = (if s_valstr s is Some _ then 1 else 0) /\
    s_val s = (if s_valstr s is Some v then atoi v else 0).
Proof.
  refine (option_argument_is_split (lit "--rewrite-level=2") _ _ _).
  - reflexivity.
  - vm_compute; reflexivity.
Defined.

(** The third option of the library, [rewrite_level] with the short name
    [rwl], and the value 2. *)
Lemma help_spelling_is_accepted_witness :
  (exists s,
     split_arg (lit "--rewrite-level=2") = Ok s /\
     matches s (mkOpt 0 (Some (lit "rwl")) (lit "rewrite_level") 3 3 0 3
                  (lit "set rewrite level")) = true /\
     s_shrt s = 0 /\ s_valstr s = Some (lit "2")) /\
  (exists s,
     split_arg (lit "-rwl=2") = Ok s /\
     matches s (mkOpt 0 (Some (lit "rwl")) (lit "rewrite_level") 3 3 0 3
                  (lit "set rewrite level")) = true /\
     s_shrt s = 1 /\ s_valstr s = Some (lit "2")).
Proof.
  destruct (help_spelling_is_accepted
              (mkOpt 0 (Some (lit "rwl")) (lit "rewrite_level") 3 3 0 3
                 (lit "set rewrite level")) (Some (lit "2"))) as [Hlong Hshort].
  { by vm_compute. }
  split.
  - apply Hlong; [decide_it | decide_it | vm_compute; lia].
  - apply (Hshort (lit "rwl")); [reflexivity | decide_it | decide_it | vm_compute; lia].
Defined.

(** The line of [-t <seconds>, --time=<seconds>]. *)
Lemma help_line_has_a_column_witness :
  exists line (pad : nat),
    print_opt false (time (btormain_init_opts build)) = Ok line /\
    line = (opt_text (time (btormain_init_opts build)) (lit "<seconds>") (lit "time")
            ++ replicate pad " "%char)
           ++ lit " " ++ lit "set time limit" ++ newline /\
    length (opt_text (time (btormain_init_opts build)) (lit "<seconds>") (lit "time")
            ++ replicate pad " "%char) = 34%nat.
Proof.
  eexists.
  assert (print_opt false (time (btormain_init_opts build)) = Ok _) as E
    by (vm_compute; reflexivity).
  destruct (help_line_has_a_column false (time (btormain_init_opts build)) _ E)
    as (pad & Hline & Hlen).
  exists pad. split; [exact E|]. split; [exact Hline | exact Hlen].
Defined.

(** An option with the short name [x] and a long name of 27 characters: the
    sum of the assertion is 35. *)
Lemma assertion_covers_long_names_only_witness :
  print_opt false
    (mkOpt 0 (Some (lit "x")) (lit "abcdefghijklmnopqrstuvwxyza") 0 0 0 1 (lit "an option"))
  = Fault OutOfBounds.
Proof.
  destruct (assertion_covers_long_names_only
              (mkOpt 0 (Some (lit "x")) (lit "abcdefghijklmnopqrstuvwxyza") 0 0 0 1
                 (lit "an option"))) as [_ Hshort].
  apply (Hshort (lit "x")); [reflexivity | by vm_compute | by vm_compute].
Defined.

(** [boolector -t 5] and [boolector -t]. *)
Lemma time_limit_is_read_witness :
  visit_arg build [lit "boolector"; lit "-t"; lit "5"] (initial build [])
  = Ok (Next (on_app (boolector_set (lit "time") 5)
                (set_static_set_alarm 5 (set_i 2 (initial build []))))).
Proof.
  refine (time_limit_is_read build [lit "boolector"; lit "-t"; lit "5"]
            (initial build []) (lit "-t") _ _ _ _).
  - reflexivity.
  - by vm_compute.
  - reflexivity.
  - by left.
Defined.

(** [boolector -o] *)
Lemma missing_output_file_is_not_reported_witness :
  visit_arg build [lit "boolector"; lit "-o"] (initial build []) = Fault NullPointer.
Proof.
  destruct (missing_output_file_is_not_reported build [lit "boolector"; lit "-o"]
              (initial build []) (lit "-o")) as [_ Hlast].
  apply Hlast.
  - reflexivity.
  - by vm_compute.
  - reflexivity.
  - by left.
  - reflexivity.
  - reflexivity.
Defined.

(** [boolector --output=out.smt2]: the file is named [--output=out.smt2]. *)
Lemma output_file_is_named_by_the_argument_witness :
  visit_arg build [lit "boolector"; lit "--output=out.smt2"] (initial build [])
  = Ok (Next (set_app
                (set_close_outfile 1
                   (set_outfile (Some (fopened (lit "--output=out.smt2") (lit "w")))
                      (record (Fopen (lit "--output=out.smt2") (lit "w") true)
                         (app (initial build [])))))
                (initial build []))).
Proof.
  refine (output_file_is_named_by_the_argument build
            [lit "boolector"; lit "--output=out.smt2"] (initial build [])
            (lit "--output=out.smt2") (lit "out.smt2") _ _ _ _ _ _).
  - reflexivity.
  - by vm_compute.
  - reflexivity.
  - by left.
  - by vm_compute.
  - reflexivity.
Defined.

(** [boolector --lingeling-opts verbose=1] *)
Lemma lingeling_opts_is_valstr_witness :
  visit_arg build [lit "boolector"; lit "--lingeling-opts"; lit "verbose=1"]
    (initial build [])
  = Ok (Next (set_lingeling_opts_arg (Some None) (set_i 2 (initial build [])))).
Proof.
  destruct (lingeling_opts_is_valstr build
              [lit "boolector"; lit "--lingeling-opts"; lit "verbose=1"]
              (initial build [])) as [Hnext _].
  - reflexivity.
  - reflexivity.
  - by vm_compute.
  - apply Hnext. reflexivity.
Defined.

(** [--in-depth=5] for a library with an option [in_depth]: the option is
    set to 1. *)
Lemma window_placeholder_is_never_read_witness :
  library_option build [lit "boolector"; lit "--in-depth=5"]
    (mkParsed 0 (lit "in_depth") (Some (lit "5")) 1 5)
    (mkOpt 0 None (lit "in_depth") 0 0 0 1 (lit "incremental in-depth width"))
    (initial build [])
  = Ok (Next (on_app (boolector_set (lit "in_depth") 1) (initial build []))).
Proof.
  refine (window_placeholder_is_never_read build
            [lit "boolector"; lit "--in-depth=5"]
            (mkParsed 0 (lit "in_depth") (Some (lit "5")) 1 5)
            (mkOpt 0 None (lit "in_depth") 0 0 0 1 (lit "incremental in-depth width"))
            (initial build []) _ _).
  - reflexivity.
  - reflexivity.
Defined.
